(** * Animal speed chart and species dialog: a shallow embedding

    The development follows two components of the application:

    - [AnimalSpeedGraph]: the chart component.  Its first effect loads a
      CSV file and stores the rows unless the effect was cleaned up in
      the meantime; its second effect clears the container and, for a
      non-empty dataset, builds three d3 scales and draws the chart.
    - [SpeciesDetailsDialog]: the dialog whose view mode offers the
      "Edit Species" button to the author of the record only.

    JavaScript numbers are modelled by exact rationals ([Q]): the
    development covers finite measurements and leaves rounding and the
    non-finite values (NaN, Infinity) out.  The d3 functions the component
    calls (d3-array [max] and [tickIncrement], d3-scale [scaleLinear],
    [scaleBand], [scaleOrdinal]) are modelled in [Module D3] after the
    library's documented behaviour. *)

From Stdlib Require Import String List ZArith QArith Qround Qpower Bool Lia Lqa.
Import ListNotations.
Local Open Scope Q_scope.

Set Warnings "-register-all".

(** ** Data model *)

(** [interface AnimalDatum].  The diet is kept as the string the CSV
    carries: the loader casts it without a runtime check. *)
Record AnimalDatum : Type := mkDatum {
  name : string;
  speed : Q;
  diet : string
}.

Definition Dataset : Type := list AnimalDatum.

Definition Herbivore : string := "Herbivore".
Definition Carnivore : string := "Carnivore".
Definition Omnivore : string := "Omnivore".

(** ** The d3 functions used by the chart *)

Module D3.

(** d3-array [max(values, accessor)]: the greatest value, [undefined]
    ([None]) for an empty sequence. *)
Fixpoint max_from (m : Q) (l : list Q) : Q :=
  match l with
  | [] => m
  | v :: rest => max_from (if Qlt_le_dec m v then v else m) rest
  end.

Definition max (l : list Q) : option Q :=
  match l with
  | [] => None
  | v :: rest => Some (max_from v rest)
  end.

(** *** Linear scale *)

Definition pow10 (p : Z) : Q := Qpower (inject_Z 10) p.

(** Greatest [p] with [10^p <= q], for [0 < q]:
    [Math.floor(Math.log10(q))]. *)
Fixpoint log10_up (fuel : nat) (q : Q) (p : Z) : Z :=
  match fuel with
  | O => p
  | S f => if Qle_bool (pow10 (p + 1)) q then log10_up f q (p + 1)%Z else p
  end.

Fixpoint log10_down (fuel : nat) (q : Q) (p : Z) : Z :=
  match fuel with
  | O => p
  | S f => if Qle_bool (pow10 p) q then p else log10_down f q (p - 1)%Z
  end.

Definition floor_log10 (q : Q) : Z :=
  if Qle_bool 1 q
  then log10_up (S (Z.to_nat (Z.log2 (Qnum q)))) q 0%Z
  else log10_down (S (Pos.to_nat (Pos.size (Qden q)))) q (-1)%Z.

(** d3-array [tickIncrement(start, stop, count)].  The result is positive
    for a step of at least 1 and the negated inverse of the step below 1.
    The comparisons with [Math.sqrt(50)], [Math.sqrt(10)] and
    [Math.sqrt(2)] are made on the squares.  A non-positive raw step,
    where the source computes with the logarithm of a non-positive
    number, is rendered by [0]: a value that is neither [> 0] nor [< 0],
    like the NaN of the source. *)
Definition tickIncrement (start stop count : Q) : Q :=
  let step := (stop - start) / (if Qlt_le_dec 0 count then count else 0) in
  if Qlt_le_dec 0 step then
    let power := floor_log10 step in
    let error := step / pow10 power in
    let factor : Q :=
      if Qle_bool 50 (error * error) then 10
      else if Qle_bool 10 (error * error) then 5
      else if Qle_bool 2 (error * error) then 2
      else 1 in
    if (0 <=? power)%Z then factor * pow10 power
    else - (pow10 (- power)) / factor
  else 0.

Definition floorQ (q : Q) : Q := inject_Z (Qfloor q).
Definition ceilQ (q : Q) : Q := inject_Z (Qceiling q).

(** The loop of [linear.nice(count)] on [start <= stop]: at most
    [maxIter] rounds; [Some] when the step repeats (the domain is then
    written), [None] when the loop runs out or breaks (the domain is
    left as it was). *)
Fixpoint nice_loop (maxIter : nat) (count start stop : Q) (prestep : option Q)
  : option (Q * Q) :=
  match maxIter with
  | O => None
  | S k =>
      let step := tickIncrement start stop count in
      if match prestep with Some p => Qeq_bool step p | None => false end
      then Some (start, stop)
      else if Qlt_le_dec 0 step
      then nice_loop k count (floorQ (start / step) * step)
                     (ceilQ (stop / step) * step) (Some step)
      else if Qlt_le_dec step 0
      then nice_loop k count (ceilQ (start * step) / step)
                     (floorQ (stop * step) / step) (Some step)
      else None
  end.

(** [linear.nice()] on a two-element domain, [count = 10] and
    [maxIter = 10].  A descending domain is niced on its swapped ends and
    written back in its own order.  On a zero-span domain the source
    gets the step [-Infinity], then NaN ends, then the step NaN, and
    breaks out of the loop without writing the domain. *)
Definition nice (d : Q * Q) : Q * Q :=
  let '(d0, d1) := d in
  if Qeq_bool d0 d1 then d
  else if Qlt_le_dec d1 d0
  then match nice_loop 10 10 d1 d0 None with
       | Some (start, stop) => (stop, start)
       | None => d
       end
  else match nice_loop 10 10 d0 d1 None with
       | Some (start, stop) => (start, stop)
       | None => d
       end.

Record Linear : Type := mkLinear {
  l_domain : Q * Q;
  l_range : Q * Q
}.

(** [normalize(a, b)]: the position of [x] between [a] and [b]; the
    constant [0.5] on a zero-span domain. *)
Definition normalize (a b x : Q) : Q :=
  if Qeq_bool (b - a) 0 then 1 # 2 else (x - a) / (b - a).

(** [interpolateNumber(a, b)(t)]. *)
Definition interpolateNumber (a b t : Q) : Q := a * (1 - t) + b * t.

(** [bimap]: the scale function of a two-element domain and range. *)
Definition linear_apply (s : Linear) (x : Q) : Q :=
  let '(d0, d1) := l_domain s in
  let '(r0, r1) := l_range s in
  if Qlt_le_dec d1 d0
  then interpolateNumber r1 r0 (normalize d1 d0 x)
  else interpolateNumber r0 r1 (normalize d0 d1 x).

(** *** Ordinal scale *)

(** Position of the first occurrence of [d]: the lookup [index.get(d)]
    in the scale's key-to-index map. *)
Fixpoint index_of (d : string) (l : list string) : option nat :=
  match l with
  | [] => None
  | k :: rest =>
      if String.eqb d k then Some O
      else match index_of d rest with
           | Some i => Some (S i)
           | None => None
           end
  end.

(** [ordinal.domain(values)]: every value is entered once, at its first
    occurrence. *)
Definition intern (values : list string) : list string :=
  fold_left (fun dom v => match index_of v dom with
                          | Some _ => dom
                          | None => dom ++ [v]
                          end) values [].

(** [o_unknown = None] is the [implicit] marker a fresh [scaleOrdinal]
    carries; [Some u] is an explicit unknown value, [Some None] being
    [undefined]. *)
Record Ordinal (A : Type) : Type := mkOrdinal {
  o_domain : list string;
  o_range : list A;
  o_unknown : option (option A)
}.
Arguments mkOrdinal {A} _ _ _.
Arguments o_domain {A} _.
Arguments o_range {A} _.
Arguments o_unknown {A} _.

(** The scale function: [range[i % range.length]] for a key in the
    domain; for any other key the explicit unknown value, or under
    [implicit] the key is pushed on the domain and gets the next range
    slot.  The scale after the call is returned with the value. *)
Definition ordinal_apply {A : Type} (s : Ordinal A) (d : string)
  : option A * Ordinal A :=
  match index_of d (o_domain s) with
  | Some i => (nth_error (o_range s) (i mod length (o_range s)), s)
  | None =>
      match o_unknown s with
      | Some u => (u, s)
      | None =>
          (nth_error (o_range s) (length (o_domain s) mod length (o_range s)),
           mkOrdinal (o_domain s ++ [d]) (o_range s) None)
      end
  end.

(** The scale applied to a sequence of keys, in order. *)
Fixpoint ordinal_map {A : Type} (s : Ordinal A) (ds : list string)
  : list (option A) * Ordinal A :=
  match ds with
  | [] => ([], s)
  | d :: rest =>
      let '(v, s1) := ordinal_apply s d in
      let '(vs, s2) := ordinal_map s1 rest in
      (v :: vs, s2)
  end.

(** *** Band scale *)

Record Band : Type := mkBand {
  b_domain : list string;
  b_range : Q * Q;
  b_paddingInner : Q;
  b_paddingOuter : Q;
  b_align : Q
}.

Definition Qmax2 (a b : Q) : Q := if Qlt_le_dec a b then b else a.
Definition Qmin2 (a b : Q) : Q := if Qlt_le_dec b a then b else a.

(** [scaleBand().domain(names).range(r).padding(p)]: the padding sets the
    outer padding to [p] and the inner one to [Math.min(1, p)]; the
    alignment keeps its default [0.5] and rounding stays off. *)
Definition scaleBand (names : list string) (r : Q * Q) (p : Q) : Band :=
  mkBand (intern names) r (Qmin2 1 p) p (1 # 2).

Definition band_n (s : Band) : Q := inject_Z (Z.of_nat (length (b_domain s))).
Definition band_reverse (s : Band) : bool :=
  if Qlt_le_dec (snd (b_range s)) (fst (b_range s)) then true else false.
Definition band_lo (s : Band) : Q :=
  if band_reverse s then snd (b_range s) else fst (b_range s).
Definition band_hi (s : Band) : Q :=
  if band_reverse s then fst (b_range s) else snd (b_range s).

(** The quantities of [rescale()]. *)
Definition band_step (s : Band) : Q :=
  (band_hi s - band_lo s)
  / Qmax2 1 (band_n s - b_paddingInner s + b_paddingOuter s * 2).

Definition band_start (s : Band) : Q :=
  band_lo s
  + (band_hi s - band_lo s - band_step s * (band_n s - b_paddingInner s))
    * b_align s.

Definition bandwidth (s : Band) : Q := band_step s * (1 - b_paddingInner s).

Definition band_values (s : Band) : list Q :=
  let values := map (fun i => band_start s + band_step s * inject_Z (Z.of_nat i))
                    (seq 0 (length (b_domain s))) in
  if band_reverse s then rev values else values.

(** The band scale is an ordinal scale over [band_values] whose unknown
    value is [undefined]. *)
Definition band_apply (s : Band) (d : string) : option Q :=
  fst (ordinal_apply (mkOrdinal (b_domain s) (band_values s) (Some None)) d).

End D3.

(** ** The drawing surface *)

Inductive AttrValue : Type :=
| VNum (q : Q)
| VNaN
| VStr (s : string)
| VTranslate (x y : Q)
| VRotate (deg : Q).

(** Text content: a string, or the string form of a number. *)
Inductive Content : Type :=
| TStr (s : string)
| TNum (q : Q).

Inductive AxisSpec : Type :=
| AxisBottom (scale : D3.Band)
| AxisLeft (scale : D3.Linear) (ticks : Z).

(** An element with its attributes in the order they are set, or the
    content a d3 axis generates in a group, with the styles and
    attributes set on its tick labels afterwards. *)
Inductive Node : Type :=
| Elem (tag : string) (attrs : list (string * AttrValue))
       (text : option Content) (children : list Node)
| Axis (spec : AxisSpec) (label_styles : list (string * string))
       (label_attrs : list (string * AttrValue)).

(** The [div] behind [graphRef]: its client size and its content
    ([innerHTML]). *)
Record Container : Type := mkContainer {
  clientWidth : Z;
  clientHeight : Z;
  children : list Node
}.

(** [selection.attr(name, value)] with a computed value: [undefined]
    ([None]) sets no attribute. *)
Definition attr_opt (name : string) (v : option AttrValue)
  : list (string * AttrValue) :=
  match v with
  | Some a => [(name, a)]
  | None => []
  end.

Fixpoint get_attr (name : string) (attrs : list (string * AttrValue))
  : option AttrValue :=
  match attrs with
  | [] => None
  | (k, v) :: rest => if String.eqb name k then Some v else get_attr name rest
  end.

Definition node_attr (name : string) (n : Node) : option AttrValue :=
  match n with
  | Elem _ attrs _ _ => get_attr name attrs
  | Axis _ _ _ => None
  end.

Definition node_children (n : Node) : list Node :=
  match n with
  | Elem _ _ _ cs => cs
  | Axis _ _ _ => []
  end.

(** ** The render effect of [AnimalSpeedGraph] *)

Module Chart.

Definition margin_top : Z := 70.
Definition margin_right : Z := 60.
Definition margin_bottom : Z := 80.
Definition margin_left : Z := 100.

Definition containerWidth (graphRef : option Container) : Z :=
  match graphRef with Some c => clientWidth c | None => 800 end.
Definition containerHeight (graphRef : option Container) : Z :=
  match graphRef with Some c => clientHeight c | None => 500 end.

Definition width (graphRef : option Container) : Z :=
  Z.max (containerWidth graphRef) 600.
Definition height (graphRef : option Container) : Z :=
  Z.max (containerHeight graphRef) 400.

Definition innerWidth (graphRef : option Container) : Z :=
  (width graphRef - margin_left - margin_right)%Z.
Definition innerHeight (graphRef : option Container) : Z :=
  (height graphRef - margin_top - margin_bottom)%Z.

(** The non-null assertion on the maximum: behind the guard on the empty
    dataset the maximum is always defined ([max_bang_defined]). *)
Definition max_bang (m : option Q) : Q :=
  match m with Some v => v | None => 0 end.

(** *** Scale builder *)

Definition x (animalData : Dataset) (graphRef : option Container) : D3.Band :=
  D3.scaleBand (map name animalData) (0, inject_Z (innerWidth graphRef))
               (2 # 10).

Definition y (animalData : Dataset) (graphRef : option Container) : D3.Linear :=
  D3.mkLinear
    (D3.nice (0, max_bang (D3.max (map speed animalData))))
    (inject_Z (innerHeight graphRef), 0).

Definition color : D3.Ordinal string :=
  D3.mkOrdinal [Herbivore; Carnivore; Omnivore]
               ["#5AA469"; "#C75C5C"; "#4D96FF"]%string None.

Definition diets : list string := [Herbivore; Carnivore; Omnivore].

(** *** Drawing *)

Definition x_axis_group (animalData : Dataset) (graphRef : option Container)
  : Node :=
  Elem "g" [("transform"%string, VTranslate 0 (inject_Z (innerHeight graphRef)))]
       None
       [Axis (AxisBottom (x animalData graphRef))
             [("text-anchor", "end")]%string
             [("dx", VStr "-0.4em"); ("dy", VStr "0.2em");
              ("transform", VRotate (-90))]%string].

Definition y_axis_group (animalData : Dataset) (graphRef : option Container)
  : Node :=
  Elem "g" [] None [Axis (AxisLeft (y animalData graphRef) 6) [] []].

Definition x_title (graphRef : option Container) : Node :=
  Elem "text"
       [("x", VNum (inject_Z (innerWidth graphRef) / 2));
        ("y", VNum (inject_Z (innerHeight graphRef + 50)));
        ("text-anchor", VStr "middle");
        ("font-weight", VNum 600)]%string
       (Some (TStr "Animal")) [].

Definition y_title (graphRef : option Container) : Node :=
  Elem "text"
       [("transform", VRotate (-90));
        ("x", VNum (- inject_Z (innerHeight graphRef) / 2));
        ("y", VNum (-60));
        ("text-anchor", VStr "middle");
        ("font-weight", VNum 600)]%string
       (Some (TStr "Speed (km/h)")) [].

(** One [rect.bar]; [fill] is the value the colour scale gave for the
    record's diet. *)
Definition bar (animalData : Dataset) (graphRef : option Container)
           (d : AnimalDatum) (fill : option string) : Node :=
  let xs := x animalData graphRef in
  let ys := y animalData graphRef in
  Elem "rect"
       ([("class"%string, VStr "bar")]
        ++ attr_opt "x" (option_map VNum (D3.band_apply xs (name d)))
        ++ [("y"%string, VNum (D3.linear_apply ys (speed d)));
            ("width"%string, VNum (D3.bandwidth xs));
            ("height"%string,
             VNum (inject_Z (innerHeight graphRef) - D3.linear_apply ys (speed d)))]
        ++ attr_opt "fill" (option_map VStr fill))
       None [].

Fixpoint bars_with (animalData : Dataset) (graphRef : option Container)
         (ds : list AnimalDatum) (fills : list (option string)) : list Node :=
  match ds, fills with
  | d :: ds', f :: fills' =>
      bar animalData graphRef d f :: bars_with animalData graphRef ds' fills'
  | _, _ => []
  end.

(** The bars, with the colour scale as the [fill] calls leave it. *)
Definition bars (animalData : Dataset) (graphRef : option Container)
  : list Node * D3.Ordinal string :=
  let '(fills, color1) := D3.ordinal_map color (map diet animalData) in
  (bars_with animalData graphRef animalData fills, color1).

(** One [text.bar-label]; a name the band scale does not know would give
    [undefined + number], which is NaN. *)
Definition bar_label (animalData : Dataset) (graphRef : option Container)
           (d : AnimalDatum) : Node :=
  let xs := x animalData graphRef in
  let ys := y animalData graphRef in
  Elem "text"
       [("class", VStr "bar-label");
        ("x", match D3.band_apply xs (name d) with
              | Some p => VNum (p + D3.bandwidth xs / 2)
              | None => VNaN
              end);
        ("y", VNum (D3.linear_apply ys (speed d) - 6));
        ("text-anchor", VStr "middle");
        ("font-size", VNum 12)]%string
       (Some (TNum (speed d))) [].

Definition legend_item (i : nat) (d : string) (fill : option string) : Node :=
  Elem "g"
       [("class", VStr "legend-item");
        ("transform", VTranslate 0 (inject_Z (Z.of_nat i * 20)))]%string
       None
       [Elem "rect"
             ([("width", VNum 14); ("height", VNum 14);
               ("rx", VNum 2); ("ry", VNum 2)]%string
              ++ attr_opt "fill" (option_map VStr fill))
             None [];
        Elem "text"
             [("x", VNum 20); ("y", VNum 11); ("font-size", VNum 12)]%string
             (Some (TStr d)) []].

Fixpoint legend_items (i : nat) (ds : list string) (fills : list (option string))
  : list Node :=
  match ds, fills with
  | d :: ds', f :: fills' => legend_item i d f :: legend_items (S i) ds' fills'
  | _, _ => []
  end.

(** The legend group, drawn with the colour scale the bars left. *)
Definition legend (graphRef : option Container) (color1 : D3.Ordinal string)
  : Node :=
  Elem "g"
       [("transform"%string,
         VTranslate (inject_Z (innerWidth graphRef - 150)) (-10))]
       None
       (legend_items 0 diets (fst (D3.ordinal_map color1 diets))).

Definition title (graphRef : option Container) : Node :=
  Elem "text"
       [("x", VNum (inject_Z (width graphRef) / 2));
        ("y", VNum (inject_Z margin_top / 2));
        ("text-anchor", VStr "middle");
        ("font-size", VNum 18);
        ("font-weight", VNum 700)]%string
       (Some (TStr "Animal Speeds by Diet")) [].

(** The plotting group [g] with all it receives, in drawing order. *)
Definition plot_group (animalData : Dataset) (graphRef : option Container)
  : Node :=
  let '(rects, color1) := bars animalData graphRef in
  Elem "g"
       [("transform"%string,
         VTranslate (inject_Z margin_left) (inject_Z margin_top))]
       None
       ([x_axis_group animalData graphRef;
         y_axis_group animalData graphRef;
         x_title graphRef;
         y_title graphRef]
        ++ rects
        ++ map (bar_label animalData graphRef) animalData
        ++ [legend graphRef color1]).

(** The [svg] element and its content. *)
Definition svg (animalData : Dataset) (graphRef : option Container) : Node :=
  Elem "svg"
       [("width", VNum (inject_Z (width graphRef)));
        ("height", VNum (inject_Z (height graphRef)))]%string
       None
       [plot_group animalData graphRef; title graphRef].

(** *** The effect *)

(** The stages a render pass goes through, for the record. *)
Inductive Stage : Type :=
| StClear
| StAppendSvg
| StScales
| StDraw.

Record Rendered : Type := mkRendered {
  surface : option Container;
  stages : list Stage
}.

(** [graphRef.current.innerHTML = ""]. *)
Definition clear (c : Container) : Container :=
  mkContainer (clientWidth c) (clientHeight c) [].

(** [select(graphRef.current).append("svg")] and all that is drawn in
    it; a selection of [null] appends nothing. *)
Definition append_svg (n : Node) (c : Container) : Container :=
  mkContainer (clientWidth c) (clientHeight c) (children c ++ [n]).

(** The second effect: runs on mount and whenever [animalData] changes. *)
Definition render (animalData : Dataset) (graphRef : option Container)
  : Rendered :=
  let cleared := option_map clear graphRef in
  let st0 := match graphRef with Some _ => [StClear] | None => [] end in
  if (length animalData =? 0)%nat then mkRendered cleared st0
  else
    mkRendered (option_map (append_svg (svg animalData cleared)) cleared)
               (st0 ++ [StAppendSvg; StScales; StDraw]).

End Chart.

(** ** The component: load effect, state and clean-up *)

Module Component.

(** How the promise of [csv(...)] settles. *)
Inductive Outcome : Type :=
| Fulfilled (rows : Dataset)
| Rejected (reason : string).

(** What an observer of the component sees, in order of time. *)
Inductive Action : Type :=
| ActFetch (url : string)
| ActSetAnimalData (rows : Dataset)
| ActConsoleLog (rows : nat)
| ActCleanup
| ActUnhandledRejection (reason : string).

Inductive Phase : Type := NotMounted | Mounted | Unmounted.

Inductive Fetch : Type := NotStarted | InFlight | Settled.

Record State : Type := mkState {
  phase : Phase;
  animalData : Dataset;
  graphRef : option Container;
  cancelled : bool;
  fetch : Fetch;
  log : list Action
}.

(** [useState([])], a ref of [null], no effect run yet. *)
Definition initial : State :=
  mkState NotMounted [] None false NotStarted [].

Definition record (a : Action) (st : State) : State :=
  mkState (phase st) (animalData st) (graphRef st) (cancelled st) (fetch st)
          (log st ++ [a]).

(** [setAnimalData(rows)]: the state is replaced and, [animalData] being
    a dependency of the render effect, the chart is drawn again. *)
Definition setAnimalData (rows : Dataset) (st : State) : State :=
  mkState (phase st) rows
          (Chart.surface (Chart.render rows (graphRef st)))
          (cancelled st) (fetch st)
          (log st ++ [ActSetAnimalData rows]).

(** The callback given to [then]. *)
Definition on_rows (rows : Dataset) (st : State) : State :=
  let st1 := if negb (cancelled st) then setAnimalData rows st else st in
  record (ActConsoleLog (length rows)) st1.

(** [promise.then(onFulfilled, onRejected)]: the state after the
    reaction, and the rejection reason of the derived promise if it
    rejects.  Without a rejection handler a rejection passes on to the
    derived promise.  (The callbacks here do not throw.) *)
Definition then_ (onFulfilled : Dataset -> State -> State)
           (onRejected : option (string -> State -> State))
           (o : Outcome) (st : State) : State * option string :=
  match o with
  | Fulfilled rows => (onFulfilled rows st, None)
  | Rejected reason =>
      match onRejected with
      | Some handler => (handler reason st, None)
      | None => (st, Some reason)
      end
  end.

(** The promise chain of the load effect: [csv(...).then(on_rows)], the
    derived promise being dropped.  A rejected promise nobody handles is
    reported by the host as an unhandled rejection. *)
Definition settle (o : Outcome) (st : State) : State :=
  let '(st1, rejection) := then_ on_rows None o st in
  match rejection with
  | Some reason => record (ActUnhandledRejection reason) st1
  | None => st1
  end.

Inductive Event : Type :=
| Mount (container : Container)
| Settle (o : Outcome)
| Unmount.

(** One step of the component.  An event that cannot happen in the
    current state (a second mount, a promise settling twice or before it
    exists, an unmount of what is not mounted) leaves it as it is. *)
Definition step (st : State) (e : Event) : State :=
  match e with
  | Mount c =>
      match phase st with
      | NotMounted =>
          (* first effect: the flag and the fetch; second effect: render *)
          mkState Mounted (animalData st)
                  (Chart.surface (Chart.render (animalData st) (Some c)))
                  false InFlight
                  (log st ++ [ActFetch "/sample_animals.csv"])
      | _ => st
      end
  | Settle o =>
      match fetch st with
      | InFlight =>
          settle o (mkState (phase st) (animalData st) (graphRef st)
                            (cancelled st) Settled (log st))
      | _ => st
      end
  | Unmount =>
      match phase st with
      | Mounted =>
          (* the clean-up of the first effect; the ref is detached *)
          mkState Unmounted (animalData st) None true (fetch st)
                  (log st ++ [ActCleanup])
      | _ => st
      end
  end.

Definition run (events : list Event) (st : State) : State :=
  fold_left step events st.

(** The setter calls recorded after the first clean-up. *)
Fixpoint setter_calls (l : list Action) : nat :=
  match l with
  | [] => O
  | ActSetAnimalData _ :: rest => S (setter_calls rest)
  | _ :: rest => setter_calls rest
  end.

Fixpoint after_cleanup (l : list Action) : list Action :=
  match l with
  | [] => []
  | ActCleanup :: rest => rest
  | _ :: rest => after_cleanup rest
  end.

Fixpoint unhandled_rejections (l : list Action) : list string :=
  match l with
  | [] => []
  | ActUnhandledRejection reason :: rest => reason :: unhandled_rejections rest
  | _ :: rest => unhandled_rejections rest
  end.

Fixpoint has_cleanup (l : list Action) : bool :=
  match l with
  | [] => false
  | ActCleanup :: _ => true
  | _ :: rest => has_cleanup rest
  end.

Definition is_fulfilment (e : Event) : bool :=
  match e with
  | Settle (Fulfilled _) => true
  | _ => false
  end.

(** What is drawn in the container, nothing when there is none. *)
Definition drawn (st : State) : list Node :=
  match graphRef st with
  | Some c => children c
  | None => []
  end.

(** What holds of the component in every reachable state: a clean-up in
    the log means the component is unmounted, an unmounted component has
    its flag set, and no setter call is recorded after the clean-up. *)
Definition load_invariant (st : State) : Prop :=
  (has_cleanup (log st) = true -> phase st = Unmounted) /\
  (phase st = Unmounted -> cancelled st = true) /\
  setter_calls (after_cleanup (log st)) = 0%nat.

(** No data, no drawing, no setter call. *)
Definition unloaded (st : State) : Prop :=
  animalData st = [] /\ drawn st = [] /\ setter_calls (log st) = 0%nat.

(** Before the promise settles the component is unloaded. *)
Definition pending_invariant (st : State) : Prop :=
  (phase st = NotMounted -> fetch st = NotStarted) /\
  (fetch st <> Settled -> unloaded st).

(** A component whose promise has settled without loading anything. *)
Definition failed_invariant (st : State) : Prop :=
  fetch st = Settled /\ phase st <> NotMounted /\ unloaded st.

End Component.

(** ** The species dialog *)

Module SpeciesDialog.

(** The fields of a [species] row the dialog's controls depend on. *)
Record Species : Type := mkSpecies {
  id : Z;
  author : string;
  scientific_name : string
}.

Record State : Type := mkState {
  open : bool;
  isEditing : bool
}.

Definition initial : State := mkState false false.

Inductive Button : Type :=
| LearnMore
| EditSpecies
| Close
| UpdateSpecies
| Cancel.

Definition Button_eqb (a b : Button) : bool :=
  match a, b with
  | LearnMore, LearnMore | EditSpecies, EditSpecies | Close, Close
  | UpdateSpecies, UpdateSpecies | Cancel, Cancel => true
  | _, _ => false
  end.

(** [const isAuthor = userId === species.author]. *)
Definition isAuthor (species : Species) (userId : string) : bool :=
  String.eqb userId (author species).

(** The action buttons of the view mode. *)
Definition view_mode_buttons (species : Species) (userId : string)
  : list Button :=
  (if isAuthor species userId then [EditSpecies] else []) ++ [Close].

Definition edit_mode_buttons : list Button := [UpdateSpecies; Cancel].

(** The buttons on screen: the trigger, and the dialog's content when it
    is open. *)
Definition buttons (species : Species) (userId : string) (st : State)
  : list Button :=
  LearnMore ::
  (if open st
   then if isEditing st then edit_mode_buttons
        else view_mode_buttons species userId
   else []).

Inductive Event : Type :=
| OpenChange (o : bool)
| Click (b : Button)
| SubmitSucceeded
| SubmitFailed.

Definition offered (species : Species) (userId : string) (st : State)
           (b : Button) : bool :=
  existsb (Button_eqb b) (buttons species userId st).

(** A click acts only on a button that is on screen.  [EditSpecies] runs
    [startEditing], [Cancel] runs [handleCancel]; the outcome of the
    update request arrives as [SubmitSucceeded] (editing ends) or
    [SubmitFailed] (a toast, editing goes on). *)
Definition step (species : Species) (userId : string) (st : State)
           (e : Event) : State :=
  match e with
  | OpenChange o => mkState o (isEditing st)
  | Click b =>
      if offered species userId st b then
        match b with
        | LearnMore => mkState true (isEditing st)
        | EditSpecies => mkState (open st) true
        | Close => mkState false (isEditing st)
        | Cancel => mkState (open st) false
        | UpdateSpecies => st
        end
      else st
  | SubmitSucceeded => mkState (open st) false
  | SubmitFailed => st
  end.

Definition run (species : Species) (userId : string) (events : list Event)
           (st : State) : State :=
  fold_left (step species userId) events st.

End SpeciesDialog.

(** ** Reachable states of the colour scale *)

(** The states the chart's colour scale can be in: the fixed range, the
    implicit unknown, and a domain that starts with the three diets. *)
Definition color_state (s : D3.Ordinal string) : Prop :=
  D3.o_range s = D3.o_range Chart.color /\
  D3.o_unknown s = None /\
  exists extra, D3.o_domain s = Chart.diets ++ extra.

(** ** Sample data *)

Definition cheetah : AnimalDatum := mkDatum "Cheetah" 120 Carnivore.
Definition elephant : AnimalDatum := mkDatum "Elephant" 40 Herbivore.
Definition sloth_at_rest : AnimalDatum := mkDatum "Sloth" 0 Herbivore.

(** The dataset of the spec's example. *)
Definition two_animals : Dataset := [cheetah; elephant].

(** A dataset whose only measurement is zero. *)
Definition all_at_rest : Dataset := [sloth_at_rest].

(** The chart's [div] as the page lays it out: 1000 wide, 500 high. *)
Definition page : Container := mkContainer 1000 500 [].

(** The same [div] with something left in it. *)
Definition used_page : Container :=
  mkContainer 1000 500 [Elem "svg" [] None []].

Definition lion : SpeciesDialog.Species :=
  SpeciesDialog.mkSpecies 1 "user-1" "Panthera leo".

(** ** Reading the drawing *)

Definition node_text (n : Node) : option Content :=
  match n with
  | Elem _ _ t _ => t
  | Axis _ _ _ => None
  end.

(** The labels of the bars, as the plotting group holds them. *)
Definition bar_labels (animalData : Dataset) (graphRef : option Container)
  : list Node :=
  map (Chart.bar_label animalData graphRef) animalData.

(** A dataset with diets outside the enumeration. *)
Definition mixed_diets : Dataset :=
  [mkDatum "Cheetah" 120 Carnivore;
   mkDatum "Axolotl" 15 "Unknown";
   mkDatum "Elephant" 40 Herbivore;
   mkDatum "Olm" 1 "Unknown";
   mkDatum "Bear" 56 Omnivore;
   mkDatum "Tardigrade" (1 # 100) "Detritivore"].

(** ** Reading the component's log *)

Fixpoint fetch_calls (l : list Component.Action) : nat :=
  match l with
  | [] => O
  | Component.ActFetch _ :: rest => S (fetch_calls rest)
  | _ :: rest => fetch_calls rest
  end.

Fixpoint console_logs (l : list Component.Action) : nat :=
  match l with
  | [] => O
  | Component.ActConsoleLog _ :: rest => S (console_logs rest)
  | _ :: rest => console_logs rest
  end.

(** The rows of the latest setter call. *)
Fixpoint last_set (l : list Component.Action) : option Dataset :=
  match l with
  | [] => None
  | a :: rest =>
      match last_set rest with
      | Some rows => Some rows
      | None => match a with
                | Component.ActSetAnimalData rows => Some rows
                | _ => None
                end
      end
  end.

(** What every reachable state of the component satisfies. *)
Record component_invariant (st : Component.State) : Prop := {
  inv_not_mounted :
    Component.phase st = Component.NotMounted ->
    Component.fetch st = Component.NotStarted /\ Component.log st = [];
  inv_mounted :
    Component.phase st = Component.Mounted ->
    Component.cancelled st = false /\ Component.graphRef st <> None;
  inv_unmounted :
    Component.phase st = Component.Unmounted ->
    Component.cancelled st = true /\ Component.graphRef st = None;
  inv_fetched :
    Component.phase st <> Component.NotMounted ->
    fetch_calls (Component.log st) = 1%nat /\
    Component.fetch st <> Component.NotStarted;
  inv_pending :
    Component.fetch st <> Component.Settled ->
    Component.setter_calls (Component.log st) = 0%nat /\
    console_logs (Component.log st) = 0%nat;
  inv_once :
    (Component.setter_calls (Component.log st) <= 1)%nat /\
    (console_logs (Component.log st) <= 1)%nat;
  inv_data :
    Component.animalData st
    = match last_set (Component.log st) with
      | Some rows => rows
      | None => []
      end
}.

(** ** The species dialog with its form *)

(** The dialog of [SpeciesDialog] together with what that model leaves
    out: the form values, the schema that validates them, the update
    request and its reply, the toasts and the refresh.  Strings are
    sequences of code units below 256. *)
Module SpeciesForm.

(** The white space and line terminators [String.prototype.trim]
    removes, among the code units below 256: TAB, LF, VT, FF, CR, space
    and the no-break space. *)
Definition is_white_space (c : Ascii.ascii) : bool :=
  let n := Ascii.nat_of_ascii c in
  (n =? 9)%nat || (n =? 10)%nat || (n =? 11)%nat || (n =? 12)%nat
  || (n =? 13)%nat || (n =? 32)%nat || (n =? 160)%nat.

Fixpoint trimStart (s : string) : string :=
  match s with
  | EmptyString => EmptyString
  | String c rest => if is_white_space c then trimStart rest else s
  end.

Fixpoint trimEnd (s : string) : string :=
  match s with
  | EmptyString => EmptyString
  | String c rest =>
      match trimEnd rest with
      | EmptyString =>
          if is_white_space c then EmptyString else String c EmptyString
      | String c' rest' => String c (String c' rest')
      end
  end.

Definition trim (s : string) : string := trimEnd (trimStart s).

(** [z.enum(["Animalia", "Plantae", "Fungi", "Protista", "Archaea",
    "Bacteria"])]. *)
Inductive Kingdom : Type :=
| Animalia | Plantae | Fungi | Protista | Archaea | Bacteria.

(** The [species] row as the dialog reads it; [display_name] is
    [species.profiles?.display_name], [None] when there is no profile or
    no name. *)
Record Species : Type := mkSpecies {
  id : Z;
  author : string;
  scientific_name : string;
  common_name : option string;
  kingdom : Kingdom;
  total_population : option Q;
  image : option string;
  description : option string;
  display_name : option string
}.

(** The part of the row the buttons depend on. *)
Definition summary (sp : Species) : SpeciesDialog.Species :=
  SpeciesDialog.mkSpecies (id sp) (author sp) (scientific_name sp).

(** The values of the six form fields. *)
Record FormData : Type := mkForm {
  f_scientific_name : string;
  f_common_name : option string;
  f_kingdom : Kingdom;
  f_total_population : option Q;
  f_image : option string;
  f_description : option string
}.

Definition defaultValues (sp : Species) : FormData :=
  mkForm (scientific_name sp) (common_name sp) (kingdom sp)
         (total_population sp) (image sp) (description sp).

(** *** The schema *)

(** The transform of the nullable text fields: [null], the empty string
    and white space only become [null], anything else is trimmed. *)
Definition nullable_text (val : option string) : option string :=
  match val with
  | None => None
  | Some v =>
      if String.eqb v "" || String.eqb (trim v) "" then None
      else Some (trim v)
  end.

(** [z.string().trim().min(1).transform((val) => val?.trim())]: [None]
    is a validation error. *)
Definition parse_scientific_name (v : string) : option string :=
  let t := trim v in
  if (1 <=? String.length t)%nat then Some (trim t) else None.

(** [Number.isInteger]. *)
Definition is_integer (q : Q) : bool := Qeq_bool q (inject_Z (Qfloor q)).

(** [z.number().int().positive().min(1).nullable()]. *)
Definition valid_total_population (p : option Q) : bool :=
  match p with
  | None => true
  | Some q =>
      is_integer q
      && (if Qlt_le_dec 0 q then true else false)
      && Qle_bool 1 q
  end.

Section Schema.

(** The check of [z.string().url()], which rests on the platform's URL
    parser. *)
Variable url_ok : string -> bool.

(** [z.string().url().nullable().transform(...)]: the outer [None] is a
    validation error. *)
Definition parse_image (v : option string) : option (option string) :=
  match v with
  | None => Some None
  | Some s => if url_ok s then Some (nullable_text (Some s)) else None
  end.

(** [speciesSchema] applied to the form values: the processed values, or
    [None] when a field is invalid. *)
Definition parse (v : FormData) : option FormData :=
  match parse_scientific_name (f_scientific_name v),
        parse_image (f_image v) with
  | Some sci, Some img =>
      if valid_total_population (f_total_population v)
      then Some (mkForm sci (nullable_text (f_common_name v)) (f_kingdom v)
                        (f_total_population v) img
                        (nullable_text (f_description v)))
      else None
  | _, _ => None
  end.

(** *** State, effects and events *)

Inductive Effect : Type :=
| EffUpdate (row_id : Z) (payload : FormData)
| EffToast (title description : string) (destructive : bool)
| EffRefresh.

(** [pending] holds the update requests that have no reply yet, each
    with the input its continuation closes over. *)
Record State : Type := mkState {
  dialog : SpeciesDialog.State;
  species : Species;
  values : FormData;
  pending : list FormData;
  effects : list Effect
}.

Definition initial (sp : Species) : State :=
  mkState SpeciesDialog.initial sp (defaultValues sp) [] [].

(** A change in one of the inputs.  The text inputs hand over the
    string typed; the population input hands over [+event.target.value],
    which is [0] for an empty box ([None]). *)
Inductive Edit : Type :=
| SetScientificName (s : string)
| SetCommonName (s : string)
| SetKingdom (k : Kingdom)
| SetTotalPopulation (box : option Q)
| SetImage (s : string)
| SetDescription (s : string).

Definition apply_edit (e : Edit) (v : FormData) : FormData :=
  match e with
  | SetScientificName s =>
      mkForm s (f_common_name v) (f_kingdom v) (f_total_population v)
             (f_image v) (f_description v)
  | SetCommonName s =>
      mkForm (f_scientific_name v) (Some s) (f_kingdom v)
             (f_total_population v) (f_image v) (f_description v)
  | SetKingdom k =>
      mkForm (f_scientific_name v) (f_common_name v) k
             (f_total_population v) (f_image v) (f_description v)
  | SetTotalPopulation box =>
      mkForm (f_scientific_name v) (f_common_name v) (f_kingdom v)
             (Some (match box with Some q => q | None => 0 end))
             (f_image v) (f_description v)
  | SetImage s =>
      mkForm (f_scientific_name v) (f_common_name v) (f_kingdom v)
             (f_total_population v) (Some s) (f_description v)
  | SetDescription s =>
      mkForm (f_scientific_name v) (f_common_name v) (f_kingdom v)
             (f_total_population v) (f_image v) (Some s)
  end.

Inductive Event : Type :=
| OpenChange (o : bool)
| Click (b : SpeciesDialog.Button)
| Input (e : Edit)
| Reply (n : nat) (error : option string)
| Refreshed (sp : Species).

Definition remove_nth {A : Type} (n : nat) (l : list A) : list A :=
  firstn n l ++ skipn (S n) l.

(** The first half of [onSubmit], run by [form.handleSubmit] on valid
    values: the update request for the row shown. *)
Definition submit (st : State) : State :=
  match parse (values st) with
  | None => st
  | Some input =>
      mkState (dialog st) (species st) (values st)
              (pending st ++ [input])
              (effects st ++ [EffUpdate (id (species st)) input])
  end.

(** The second half of [onSubmit], run when the reply is there. *)
Definition on_reply (input : FormData) (error : option string) (st : State)
  : State :=
  match error with
  | Some message =>
      mkState (dialog st) (species st) (values st) (pending st)
              (effects st
               ++ [EffToast "Something went wrong." message true])
  | None =>
      mkState (SpeciesDialog.mkState (SpeciesDialog.open (dialog st)) false)
              (species st) input (pending st)
              (effects st
               ++ [EffRefresh;
                   EffToast "Species updated successfully!"
                            ("Successfully updated "
                             ++ f_scientific_name input ++ ".")
                            false])
  end.

(** One step of the dialog for the viewing user.  Buttons act only when
    they are on screen, inputs only while the form is; [Reply n] answers
    the [n]-th request still open; [Refreshed] is the parent handing
    over the row anew. *)
Definition step (userId : string) (st : State) (e : Event) : State :=
  let sp := summary (species st) in
  match e with
  | OpenChange o =>
      mkState (SpeciesDialog.step sp userId (dialog st)
                                  (SpeciesDialog.OpenChange o))
              (species st) (values st) (pending st) (effects st)
  | Click b =>
      if SpeciesDialog.offered sp userId (dialog st) b then
        match b with
        | SpeciesDialog.UpdateSpecies => submit st
        | SpeciesDialog.Cancel =>
            mkState (SpeciesDialog.step sp userId (dialog st)
                                        (SpeciesDialog.Click b))
                    (species st) (defaultValues (species st))
                    (pending st) (effects st)
        | _ =>
            mkState (SpeciesDialog.step sp userId (dialog st)
                                        (SpeciesDialog.Click b))
                    (species st) (values st) (pending st) (effects st)
        end
      else st
  | Input ed =>
      if SpeciesDialog.open (dialog st) && SpeciesDialog.isEditing (dialog st)
      then mkState (dialog st) (species st) (apply_edit ed (values st))
                   (pending st) (effects st)
      else st
  | Reply n error =>
      match nth_error (pending st) n with
      | Some input =>
          on_reply input error
                   (mkState (dialog st) (species st) (values st)
                            (remove_nth n (pending st)) (effects st))
      | None => st
      end
  | Refreshed sp' =>
      mkState (dialog st) sp' (values st) (pending st) (effects st)
  end.

Definition run (userId : string) (events : list Event) (st : State) : State :=
  fold_left (step userId) events st.

(** The update requests among the effects. *)
Fixpoint updates (l : list Effect) : list (Z * FormData) :=
  match l with
  | [] => []
  | EffUpdate k payload :: rest => (k, payload) :: updates rest
  | _ :: rest => updates rest
  end.

(** What the old model's event is for an event of this one; events
    that model does not have leave its state alone, like its
    [SubmitFailed]. *)
Definition dialog_event (st : State) (e : Event) : SpeciesDialog.Event :=
  match e with
  | OpenChange o => SpeciesDialog.OpenChange o
  | Click b => SpeciesDialog.Click b
  | Reply n None =>
      match nth_error (pending st) n with
      | Some _ => SpeciesDialog.SubmitSucceeded
      | None => SpeciesDialog.SubmitFailed
      end
  | _ => SpeciesDialog.SubmitFailed
  end.

End Schema.

(** A string that is empty or starts with something else than white
    space. *)
Definition clean_head (s : string) : Prop :=
  match s with
  | EmptyString => True
  | String c _ => is_white_space c = false
  end.

(** A string without white space at either end. *)
Definition trimmed (s : string) : Prop := trimStart s = s /\ trimEnd s = s.

(** Values as the schema leaves them. *)
Definition processed (v : FormData) : Prop :=
  f_scientific_name v <> ""%string /\ trimmed (f_scientific_name v) /\
  (forall s, f_common_name v = Some s -> s <> ""%string /\ trimmed s) /\
  (forall s, f_description v = Some s -> s <> ""%string /\ trimmed s) /\
  (forall s, f_image v = Some s -> s <> ""%string /\ trimmed s) /\
  (forall q, f_total_population v = Some q ->
             exists n : Z, (1 <= n)%Z /\ q == inject_Z n).

End SpeciesForm.

(** A row and a URL check for the examples: a URL here starts with
    ["http"]. *)
Definition guinea_pig : SpeciesForm.Species :=
  SpeciesForm.mkSpecies 7 "user-1" "Cavia porcellus"
                        (Some "Guinea pig"%string)
                        SpeciesForm.Animalia (Some 300000) None None
                        (Some "Ada"%string).

Definition starts_with_http (s : string) : bool :=
  String.prefix "http" (SpeciesForm.trimStart s).

(** ** Conditions on runs of the dialog *)

(** No [Refreshed] event of the run hands over a row of this author. *)
Definition never_authored (userId : string) (events : list SpeciesForm.Event)
  : Prop :=
  forall sp, In (SpeciesForm.Refreshed sp) events ->
             SpeciesForm.author sp <> userId.

(** What holds of the dialog of a user who is not the author. *)
Definition stranger_invariant (userId : string) (v0 : SpeciesForm.FormData)
           (st : SpeciesForm.State) : Prop :=
  SpeciesForm.author (SpeciesForm.species st) <> userId /\
  SpeciesDialog.isEditing (SpeciesForm.dialog st) = false /\
  SpeciesForm.pending st = [] /\
  SpeciesForm.effects st = [] /\
  SpeciesForm.values st = v0.


(** The ids of the rows a run shows: the first row's and those handed
    over by a refresh. *)
Fixpoint refreshed_ids (events : list SpeciesForm.Event) : list Z :=
  match events with
  | [] => []
  | SpeciesForm.Refreshed sp :: rest => SpeciesForm.id sp :: refreshed_ids rest
  | _ :: rest => refreshed_ids rest
  end.

(** Requests go to rows of [ids] only, and carry processed values. *)
Definition requests_sound (ids : list Z) (st : SpeciesForm.State) : Prop :=
  In (SpeciesForm.id (SpeciesForm.species st)) ids /\
  Forall SpeciesForm.processed (SpeciesForm.pending st) /\
  Forall (fun r => In (fst r) ids /\ SpeciesForm.processed (snd r))
         (SpeciesForm.updates (SpeciesForm.effects st)).

(** ** The kingdom select *)

(** The string each member of the enumeration stands for. *)
Definition kingdom_name (k : SpeciesForm.Kingdom) : string :=
  match k with
  | SpeciesForm.Animalia => "Animalia"
  | SpeciesForm.Plantae => "Plantae"
  | SpeciesForm.Fungi => "Fungi"
  | SpeciesForm.Protista => "Protista"
  | SpeciesForm.Archaea => "Archaea"
  | SpeciesForm.Bacteria => "Bacteria"
  end.

(** [kingdoms.options], the items of the select. *)
Definition kingdoms_options : list string :=
  ["Animalia"; "Plantae"; "Fungi"; "Protista"; "Archaea"; "Bacteria"]%string.

(** [kingdoms.parse(value)]; [None] is the error it throws on a string
    outside the enumeration. *)
Definition kingdoms_parse (value : string) : option SpeciesForm.Kingdom :=
  if String.eqb value "Animalia" then Some SpeciesForm.Animalia
  else if String.eqb value "Plantae" then Some SpeciesForm.Plantae
  else if String.eqb value "Fungi" then Some SpeciesForm.Fungi
  else if String.eqb value "Protista" then Some SpeciesForm.Protista
  else if String.eqb value "Archaea" then Some SpeciesForm.Archaea
  else if String.eqb value "Bacteria" then Some SpeciesForm.Bacteria
  else None.

(** ** Counting the effects of the dialog *)

Fixpoint count_effects (p : SpeciesForm.Effect -> bool)
         (l : list SpeciesForm.Effect) : nat :=
  match l with
  | [] => O
  | e :: rest => ((if p e then 1 else 0) + count_effects p rest)%nat
  end.

Definition is_error_toast (e : SpeciesForm.Effect) : bool :=
  match e with SpeciesForm.EffToast _ _ true => true | _ => false end.

Definition is_success_toast (e : SpeciesForm.Effect) : bool :=
  match e with SpeciesForm.EffToast _ _ false => true | _ => false end.

Definition is_refresh (e : SpeciesForm.Effect) : bool :=
  match e with SpeciesForm.EffRefresh => true | _ => false end.

Definition is_update (e : SpeciesForm.Effect) : bool :=
  match e with SpeciesForm.EffUpdate _ _ => true | _ => false end.

(** Requests, replies and toasts add up. *)
Definition accounted (st : SpeciesForm.State) : Prop :=
  count_effects is_update (SpeciesForm.effects st)
  = (count_effects is_error_toast (SpeciesForm.effects st)
     + count_effects is_success_toast (SpeciesForm.effects st)
     + length (SpeciesForm.pending st))%nat /\
  count_effects is_refresh (SpeciesForm.effects st)
  = count_effects is_success_toast (SpeciesForm.effects st).

(** ** Facts about the d3 model *)

Section RoundingFacts.

Variables (a step : Q).

Lemma floor_mult_le : 0 < step -> D3.floorQ (a / step) * step <= a.
Proof.
  intro Hs. unfold D3.floorQ.
  assert (H := Qfloor_le (a / step)).
  apply (Qmult_le_compat_r _ _ step) in H; [| lra].
  assert (E : a / step * step == a) by (field; lra).
  lra.
Qed.

Lemma ceil_mult_ge : 0 < step -> a <= D3.ceilQ (a / step) * step.
Proof.
  intro Hs. unfold D3.ceilQ.
  assert (H := Qle_ceiling (a / step)).
  apply (Qmult_le_compat_r _ _ step) in H; [| lra].
  assert (E : a / step * step == a) by (field; lra).
  lra.
Qed.

Lemma ceil_div_le : step < 0 -> D3.ceilQ (a * step) / step <= a.
Proof.
  intro Hs. unfold D3.ceilQ.
  assert (H := Qle_ceiling (a * step)).
  set (c := inject_Z (Qceiling (a * step))) in *.
  assert (Hn : 0 < - step) by lra.
  assert (E : c / step == (- c) / (- step)) by (field; lra).
  rewrite E. apply Qle_shift_div_r; [exact Hn | lra].
Qed.

Lemma floor_div_ge : step < 0 -> a <= D3.floorQ (a * step) / step.
Proof.
  intro Hs. unfold D3.floorQ.
  assert (H := Qfloor_le (a * step)).
  set (c := inject_Z (Qfloor (a * step))) in *.
  assert (Hn : 0 < - step) by lra.
  assert (E : c / step == (- c) / (- step)) by (field; lra).
  rewrite E. apply Qle_shift_div_l; [exact Hn | lra].
Qed.

Lemma floor_mult_zero : a == 0 -> D3.floorQ (a / step) * step == 0.
Proof.
  intro Ha. unfold D3.floorQ.
  assert (E : a / step == 0) by (rewrite Ha; unfold Qdiv; ring).
  rewrite E. reflexivity.
Qed.

Lemma ceil_div_zero : a == 0 -> D3.ceilQ (a * step) / step == 0.
Proof.
  intro Ha. unfold D3.ceilQ.
  assert (E : a * step == 0) by (rewrite Ha; ring).
  rewrite E. reflexivity.
Qed.

Lemma ceil_mult_zero : a == 0 -> D3.ceilQ (a / step) * step == 0.
Proof.
  intro Ha. unfold D3.ceilQ.
  assert (E : a / step == 0) by (rewrite Ha; unfold Qdiv; ring).
  rewrite E. reflexivity.
Qed.

Lemma floor_div_zero : a == 0 -> D3.floorQ (a * step) / step == 0.
Proof.
  intro Ha. unfold D3.floorQ.
  assert (E : a * step == 0) by (rewrite Ha; ring).
  rewrite E. reflexivity.
Qed.

End RoundingFacts.

(** The loop of [nice] moves the two ends outward only, and leaves an
    end that is zero where it is. *)
Lemma nice_loop_outward :
  forall maxIter count start stop prestep start' stop',
    D3.nice_loop maxIter count start stop prestep = Some (start', stop') ->
    start' <= start /\ stop <= stop' /\
    (start == 0 -> start' == 0) /\ (stop == 0 -> stop' == 0).
Proof.
  induction maxIter as [| k IH]; intros count start stop prestep s' e' H;
    simpl in H; [discriminate |].
  destruct (match prestep with
            | Some p => Qeq_bool (D3.tickIncrement start stop count) p
            | None => false
            end).
  - inversion H; subst. repeat split; lra.
  - destruct (Qlt_le_dec 0 (D3.tickIncrement start stop count)) as [Hp | Hp].
    + apply IH in H. destruct H as (H1 & H2 & H3 & H4).
      assert (A := floor_mult_le start _ Hp).
      assert (B := ceil_mult_ge stop _ Hp).
      repeat split; try lra.
      * intro Hz. apply H3. apply floor_mult_zero. exact Hz.
      * intro Hz. apply H4. apply ceil_mult_zero. exact Hz.
    + destruct (Qlt_le_dec (D3.tickIncrement start stop count) 0) as [Hn | Hn];
        [| discriminate].
      apply IH in H. destruct H as (H1 & H2 & H3 & H4).
      assert (A := ceil_div_le start _ Hn).
      assert (B := floor_div_ge stop _ Hn).
      repeat split; try lra.
      * intro Hz. apply H3. apply ceil_div_zero. exact Hz.
      * intro Hz. apply H4. apply floor_div_zero. exact Hz.
Qed.

(** [nice] on an ascending domain that starts at zero: the lower end
    stays zero and the upper end does not decrease. *)
Lemma nice_from_zero :
  forall m, 0 < m ->
    fst (D3.nice (0, m)) == 0 /\ m <= snd (D3.nice (0, m)).
Proof.
  intros m Hm. unfold D3.nice.
  destruct (Qeq_bool 0 m) eqn:E.
  - apply Qeq_bool_iff in E. lra.
  - destruct (Qlt_le_dec m 0) as [Hlt | _]; [lra |].
    destruct (D3.nice_loop 10 10 0 m None) as [[s e] |] eqn:L; simpl.
    + apply nice_loop_outward in L. destruct L as (_ & L2 & L3 & _).
      split; [apply L3; reflexivity | exact L2].
    + split; [reflexivity | lra].
Qed.

(** [nice] on a descending domain that starts at zero: the upper end
    stays zero and the lower end does not increase. *)
Lemma nice_from_zero_desc :
  forall m, m < 0 ->
    fst (D3.nice (0, m)) == 0 /\ snd (D3.nice (0, m)) <= m.
Proof.
  intros m Hm. unfold D3.nice.
  destruct (Qeq_bool 0 m) eqn:E.
  - apply Qeq_bool_iff in E. lra.
  - destruct (Qlt_le_dec m 0) as [_ | Hle]; [| lra].
    destruct (D3.nice_loop 10 10 m 0 None) as [[s e] |] eqn:L; simpl.
    + apply nice_loop_outward in L. destruct L as (L1 & _ & _ & L4).
      split; [apply L4; reflexivity | exact L1].
    + split; [reflexivity | lra].
Qed.

Lemma nice_zero_span : forall m, m == 0 -> D3.nice (0, m) = (0, m).
Proof.
  intros m Hm. unfold D3.nice.
  destruct (Qeq_bool 0 m) eqn:E; [reflexivity |].
  apply Qeq_bool_neq in E. exfalso. apply E. symmetry. exact Hm.
Qed.

(** The rounding at work: 113 goes up to 120 and 97 to 100, while 120
    is its own nice bound; a zero-span domain is left alone. *)
Example nice_rounds_up :
  D3.nice (0, 113) = (0, 120) /\ D3.nice (0, 97) = (0, 100) /\
  D3.nice (0, 120) = (0, 120) /\ D3.nice (0, 0) = (0, 0).
Proof. repeat split; vm_compute; reflexivity. Qed.

(** *** The maximum *)

Lemma max_from_ge_init : forall l m, m <= D3.max_from m l.
Proof.
  induction l as [| v rest IH]; intro m; simpl; [lra |].
  destruct (Qlt_le_dec m v) as [H | H].
  - specialize (IH v). lra.
  - apply IH.
Qed.

Lemma max_from_ge_elem : forall l m v, In v l -> v <= D3.max_from m l.
Proof.
  induction l as [| w rest IH]; intros m v Hin; simpl in *; [contradiction |].
  destruct Hin as [-> | Hin].
  - destruct (Qlt_le_dec m v) as [H | H].
    + apply max_from_ge_init.
    + assert (A := max_from_ge_init rest m). lra.
  - apply IH. exact Hin.
Qed.

Lemma max_from_attained : forall l m, D3.max_from m l = m \/ In (D3.max_from m l) l.
Proof.
  induction l as [| w rest IH]; intro m; simpl; [left; reflexivity |].
  destruct (Qlt_le_dec m w) as [H | H].
  - destruct (IH w) as [E | E]; [right; left; symmetry; exact E | right; right; exact E].
  - destruct (IH m) as [E | E]; [left; exact E | right; right; exact E].
Qed.

Lemma max_defined : forall l, l <> [] -> exists m, D3.max l = Some m.
Proof.
  intros [| v rest] H; [contradiction H; reflexivity |].
  eexists. reflexivity.
Qed.

Lemma max_upper_bound : forall l m v, D3.max l = Some m -> In v l -> v <= m.
Proof.
  intros [| w rest] m v H Hin; simpl in *; [contradiction |].
  inversion H; subst. destruct Hin as [-> | Hin].
  - apply max_from_ge_init.
  - apply max_from_ge_elem. exact Hin.
Qed.

Lemma max_attained : forall l m, D3.max l = Some m -> In m l.
Proof.
  intros [| w rest] m H; simpl in *; [discriminate |].
  inversion H; subst.
  destruct (max_from_attained rest w) as [E | E]; [left; symmetry; exact E | right; exact E].
Qed.

(** *** The linear scale on the three kinds of domain *)

Lemma linear_apply_ascending :
  forall d0 d1 r0 r1 v, d0 == 0 -> 0 < d1 ->
    D3.linear_apply (D3.mkLinear (d0, d1) (r0, r1)) v
    == r0 * (1 - v / d1) + r1 * (v / d1).
Proof.
  intros d0 d1 r0 r1 v H0 H1. unfold D3.linear_apply; simpl.
  destruct (Qlt_le_dec d1 d0) as [H | _]; [lra |].
  unfold D3.normalize, D3.interpolateNumber.
  destruct (Qeq_bool (d1 - d0) 0) eqn:E.
  - apply Qeq_bool_iff in E. lra.
  - assert (T : (v - d0) / (d1 - d0) == v / d1).
    { rewrite H0. field. lra. }
    rewrite T. reflexivity.
Qed.

Lemma linear_apply_descending :
  forall d0 d1 r0 r1 v, d0 == 0 -> d1 < 0 ->
    D3.linear_apply (D3.mkLinear (d0, d1) (r0, r1)) v
    == r1 * (v / d1) + r0 * (1 - v / d1).
Proof.
  intros d0 d1 r0 r1 v H0 H1. unfold D3.linear_apply; simpl.
  destruct (Qlt_le_dec d1 d0) as [_ | H]; [| lra].
  unfold D3.normalize, D3.interpolateNumber.
  destruct (Qeq_bool (d0 - d1) 0) eqn:E.
  - apply Qeq_bool_iff in E. lra.
  - assert (T : (v - d1) / (d0 - d1) == 1 - v / d1).
    { rewrite H0. field. lra. }
    rewrite T. ring.
Qed.

Lemma linear_apply_zero_span :
  forall d0 d1 r0 r1 v, d0 == d1 ->
    D3.linear_apply (D3.mkLinear (d0, d1) (r0, r1)) v
    == r0 * (1 # 2) + r1 * (1 # 2).
Proof.
  intros d0 d1 r0 r1 v H. unfold D3.linear_apply; simpl.
  destruct (Qlt_le_dec d1 d0) as [Hlt | _]; [lra |].
  unfold D3.normalize, D3.interpolateNumber.
  destruct (Qeq_bool (d1 - d0) 0) eqn:E.
  - ring.
  - apply Qeq_bool_neq in E. exfalso. apply E. lra.
Qed.

(** *** Chart dimensions *)

Lemma innerHeight_ge : forall graphRef, (250 <= Chart.innerHeight graphRef)%Z.
Proof.
  intro r. unfold Chart.innerHeight, Chart.height, Chart.margin_top,
             Chart.margin_bottom. lia.
Qed.

Lemma innerWidth_ge : forall graphRef, (440 <= Chart.innerWidth graphRef)%Z.
Proof.
  intro r. unfold Chart.innerWidth, Chart.width, Chart.margin_left,
             Chart.margin_right. lia.
Qed.

Lemma innerHeight_pos : forall graphRef, 0 < inject_Z (Chart.innerHeight graphRef).
Proof.
  intro r. assert (H := innerHeight_ge r).
  change 0 with (inject_Z 0). rewrite <- Zlt_Qlt. lia.
Qed.

Lemma innerWidth_pos : forall graphRef, 0 < inject_Z (Chart.innerWidth graphRef).
Proof.
  intro r. assert (H := innerWidth_ge r).
  change 0 with (inject_Z 0). rewrite <- Zlt_Qlt. lia.
Qed.

(** Behind the guard the maximum is defined. *)
Lemma max_bang_defined :
  forall animalData : Dataset, animalData <> [] ->
    D3.max (map speed animalData)
    = Some (Chart.max_bang (D3.max (map speed animalData))).
Proof.
  intros [| d rest] H; [contradiction H; reflexivity | reflexivity].
Qed.

(** The numeric scale of the chart, by the sign of the greatest
    measurement [m]. *)
Lemma y_domain_eq :
  forall animalData graphRef m,
    D3.max (map speed animalData) = Some m ->
    Chart.y animalData graphRef
    = D3.mkLinear (D3.nice (0, m)) (inject_Z (Chart.innerHeight graphRef), 0).
Proof.
  intros ds r m H. unfold Chart.y. rewrite H. reflexivity.
Qed.

Lemma y_apply_pos :
  forall animalData graphRef m v,
    D3.max (map speed animalData) = Some m -> 0 < m ->
    D3.linear_apply (Chart.y animalData graphRef) v
    == inject_Z (Chart.innerHeight graphRef)
       * (1 - v / snd (D3.l_domain (Chart.y animalData graphRef))).
Proof.
  intros ds r m v H Hm. rewrite (y_domain_eq _ _ _ H).
  destruct (nice_from_zero m Hm) as [A B].
  destruct (D3.nice (0, m)) as [d0 d1]. cbn [fst snd D3.l_domain] in *.
  rewrite linear_apply_ascending; [ring | exact A | lra].
Qed.

Lemma y_apply_neg :
  forall animalData graphRef m v,
    D3.max (map speed animalData) = Some m -> m < 0 ->
    D3.linear_apply (Chart.y animalData graphRef) v
    == inject_Z (Chart.innerHeight graphRef)
       * (1 - v / snd (D3.l_domain (Chart.y animalData graphRef))).
Proof.
  intros ds r m v H Hm. rewrite (y_domain_eq _ _ _ H).
  destruct (nice_from_zero_desc m Hm) as [A B].
  destruct (D3.nice (0, m)) as [d0 d1]. cbn [fst snd D3.l_domain] in *.
  rewrite linear_apply_descending; [ring | exact A | lra].
Qed.

Lemma y_apply_zero :
  forall animalData graphRef m v,
    D3.max (map speed animalData) = Some m -> m == 0 ->
    D3.linear_apply (Chart.y animalData graphRef) v
    == inject_Z (Chart.innerHeight graphRef) / 2.
Proof.
  intros ds r m v H Hm. rewrite (y_domain_eq _ _ _ H).
  rewrite (nice_zero_span m Hm).
  rewrite linear_apply_zero_span; [field | symmetry; exact Hm].
Qed.

(** *** Bars *)

Lemma ordinal_map_length :
  forall (A : Type) (keys : list string) (s : D3.Ordinal A),
    length (fst (D3.ordinal_map s keys)) = length keys.
Proof.
  induction keys as [| k rest IH]; intro s; simpl; [reflexivity |].
  destruct (D3.ordinal_apply s k) as [v s1].
  specialize (IH s1). destruct (D3.ordinal_map s1 rest) as [vs s2].
  simpl in *. f_equal. exact IH.
Qed.

Lemma bars_with_nth :
  forall animalData graphRef l fills i d,
    length fills = length l ->
    nth_error l i = Some d ->
    exists fill,
      nth_error fills i = Some fill /\
      nth_error (Chart.bars_with animalData graphRef l fills) i
      = Some (Chart.bar animalData graphRef d fill).
Proof.
  intros ds r l. induction l as [| e rest IH]; intros fills i d Hlen Hnth.
  - destruct i; discriminate.
  - destruct fills as [| f fills']; [discriminate |].
    destruct i as [| i']; simpl in *.
    + inversion Hnth; subst. exists f. split; reflexivity.
    + apply IH; [lia | exact Hnth].
Qed.

Lemma bars_nth :
  forall animalData graphRef i d,
    nth_error animalData i = Some d ->
    exists fill,
      nth_error (fst (Chart.bars animalData graphRef)) i
      = Some (Chart.bar animalData graphRef d fill).
Proof.
  intros ds r i d H. unfold Chart.bars.
  assert (L := ordinal_map_length _ (map diet ds) Chart.color).
  destruct (D3.ordinal_map Chart.color (map diet ds)) as [fills c1].
  simpl in *. rewrite length_map in L.
  destruct (bars_with_nth ds r ds fills i d L H) as (f & _ & Hb).
  exists f. exact Hb.
Qed.

Lemma bar_height_attr :
  forall animalData graphRef d fill,
    node_attr "height" (Chart.bar animalData graphRef d fill)
    = Some (VNum (inject_Z (Chart.innerHeight graphRef)
                  - D3.linear_apply (Chart.y animalData graphRef) (speed d))).
Proof.
  intros ds r d f. unfold Chart.bar, node_attr.
  destruct (D3.band_apply (Chart.x ds r) (name d)); reflexivity.
Qed.

Lemma bar_y_attr :
  forall animalData graphRef d fill,
    node_attr "y" (Chart.bar animalData graphRef d fill)
    = Some (VNum (D3.linear_apply (Chart.y animalData graphRef) (speed d))).
Proof.
  intros ds r d f. unfold Chart.bar, node_attr.
  destruct (D3.band_apply (Chart.x ds r) (name d)); reflexivity.
Qed.

(** The greatest measurement of a dataset bounds every record's. *)
Lemma speed_le_max :
  forall (animalData : Dataset) d m,
    In d animalData -> D3.max (map speed animalData) = Some m -> speed d <= m.
Proof.
  intros ds d m Hin Hm. apply (max_upper_bound _ _ _ Hm).
  apply in_map. exact Hin.
Qed.

Lemma dataset_max :
  forall (animalData : Dataset) d,
    In d animalData -> exists m, D3.max (map speed animalData) = Some m.
Proof.
  intros ds d Hin. apply max_defined. destruct ds; [contradiction | discriminate].
Qed.

(** The height of a bar for a non-negative measurement. *)
Lemma bar_height_nonneg :
  forall animalData graphRef d,
    In d animalData -> 0 <= speed d ->
    0 <= inject_Z (Chart.innerHeight graphRef)
         - D3.linear_apply (Chart.y animalData graphRef) (speed d).
Proof.
  intros ds r d Hin Hd.
  destruct (dataset_max ds d Hin) as [m Hm].
  assert (Hle := speed_le_max ds d m Hin Hm).
  assert (HH := innerHeight_pos r).
  destruct (Qlt_le_dec 0 m) as [Hpos | Hnp].
  - rewrite (y_apply_pos ds r m _ Hm Hpos).
    rewrite (y_domain_eq _ _ _ Hm). cbn [D3.l_domain].
    destruct (nice_from_zero m Hpos) as [_ B].
    set (D := snd (D3.nice (0, m))) in *.
    assert (HD : 0 < D) by lra.
    assert (T : 0 <= speed d / D).
    { apply Qle_shift_div_l; [exact HD | lra]. }
    assert (P := Qmult_le_0_compat _ _ (Qlt_le_weak _ _ HH) T).
    lra.
  - assert (Hz : m == 0) by lra.
    rewrite (y_apply_zero ds r m _ Hm Hz).
    assert (E : inject_Z (Chart.innerHeight r) / 2
                == inject_Z (Chart.innerHeight r) * (1 # 2)) by field.
    lra.
Qed.

(** A zero measurement in a dataset that has a positive one. *)
Lemma bar_height_zero :
  forall animalData graphRef d,
    speed d == 0 ->
    (exists d', In d' animalData /\ 0 < speed d') ->
    D3.linear_apply (Chart.y animalData graphRef) (speed d)
    == inject_Z (Chart.innerHeight graphRef).
Proof.
  intros ds r d Hz (d' & Hin & Hpos).
  destruct (dataset_max ds d' Hin) as [m Hm].
  assert (Hle := speed_le_max ds d' m Hin Hm).
  assert (Hmpos : 0 < m) by lra.
  rewrite (y_apply_pos ds r m _ Hm Hmpos).
  rewrite Hz. unfold Qdiv. ring.
Qed.

(** ** The numeric scale (C4) *)

(** C4, as amended: for every dataset whose greatest measurement [m] is
    not zero, the numeric scale has the domain [nice [0, m]], which keeps
    the zero end and moves the other end outward, and the range
    [[innerHeight, 0]]; the domain's far end maps to the top edge [0] and
    the measurement [0] maps to the bottom edge [innerHeight]. *)
Theorem y_scale_inverted :
  forall (animalData : Dataset) graphRef m,
    D3.max (map speed animalData) = Some m ->
    ~ m == 0 ->
    let ys := Chart.y animalData graphRef in
    D3.l_domain ys = D3.nice (0, m) /\
    D3.l_range ys = (inject_Z (Chart.innerHeight graphRef), 0) /\
    fst (D3.l_domain ys) == 0 /\
    (0 < m -> m <= snd (D3.l_domain ys)) /\
    (m < 0 -> snd (D3.l_domain ys) <= m) /\
    D3.linear_apply ys (snd (D3.l_domain ys)) == 0 /\
    D3.linear_apply ys 0 == inject_Z (Chart.innerHeight graphRef).
Proof.
  intros ds r m Hm Hnz ys.
  assert (Hdom : D3.l_domain ys = D3.nice (0, m)).
  { unfold ys. rewrite (y_domain_eq _ _ _ Hm). reflexivity. }
  assert (Hran : D3.l_range ys = (inject_Z (Chart.innerHeight r), 0)).
  { unfold ys. rewrite (y_domain_eq _ _ _ Hm). reflexivity. }
  split; [exact Hdom |]. split; [exact Hran |].
  destruct (Qlt_le_dec 0 m) as [Hpos | Hnp].
  - destruct (nice_from_zero m Hpos) as [A B].
    assert (Y := fun v => y_apply_pos ds r m v Hm Hpos). fold ys in Y.
    rewrite Hdom in *. set (D := snd (D3.nice (0, m))) in *.
    split; [exact A |]. split; [intros _; exact B |]. split; [intro; lra |].
    split.
    + rewrite Y. field. lra.
    + rewrite Y. unfold Qdiv. ring.
  - assert (Hneg : m < 0).
    { destruct (Qlt_le_dec m 0) as [H | H]; [exact H |].
      exfalso. apply Hnz. lra. }
    destruct (nice_from_zero_desc m Hneg) as [A B].
    assert (Y := fun v => y_apply_neg ds r m v Hm Hneg). fold ys in Y.
    rewrite Hdom in *. set (D := snd (D3.nice (0, m))) in *.
    split; [exact A |]. split; [intro; lra |]. split; [intros _; exact B |].
    split.
    + rewrite Y. field. lra.
    + rewrite Y. unfold Qdiv. ring.
Qed.

(** The scale of the spec's example dataset on the sample page. *)
Lemma y_scale_inverted_witness :
  D3.l_domain (Chart.y two_animals (Some page)) = D3.nice (0, 120) /\
  D3.linear_apply (Chart.y two_animals (Some page)) 0
  == inject_Z (Chart.innerHeight (Some page)).
Proof.
  assert (Hm : D3.max (map speed two_animals) = Some 120) by reflexivity.
  assert (Hnz : ~ 120 == 0) by (intro H; discriminate H).
  destruct (y_scale_inverted two_animals (Some page) 120 Hm Hnz)
    as (H1 & _ & _ & _ & _ & _ & H7).
  split; [exact H1 | exact H7].
Defined.

(** C4 as stated fails on a non-empty dataset whose measurements are all
    zero: the domain is the zero-span [[0, 0]], which [nice] leaves
    alone, and the scale maps the measurement [0] to the middle of the
    range, [175] of [350], not to the bottom edge. *)
Lemma y_scale_zero_span_counterexample :
  all_at_rest <> [] /\
  D3.l_domain (Chart.y all_at_rest (Some page)) = (0, 0) /\
  D3.linear_apply (Chart.y all_at_rest (Some page)) 0 == 175 /\
  ~ (D3.linear_apply (Chart.y all_at_rest (Some page)) 0
     == inject_Z (Chart.innerHeight (Some page))).
Proof.
  split; [discriminate |]. split; [reflexivity |].
  split; [reflexivity |]. intro H. discriminate H.
Qed.

(** ** Bar heights (C5) *)

(** C5, as amended: the bar drawn for the [i]-th record has the height
    [innerHeight - y(speed)]; that height is not negative for a
    non-negative measurement; and a zero measurement gives a bar of
    height zero on the baseline whenever the dataset has a positive
    measurement. *)
Theorem bar_height_spec :
  forall (animalData : Dataset) graphRef i d,
    nth_error animalData i = Some d ->
    let h := inject_Z (Chart.innerHeight graphRef)
             - D3.linear_apply (Chart.y animalData graphRef) (speed d) in
    exists b,
      nth_error (fst (Chart.bars animalData graphRef)) i = Some b /\
      node_attr "height" b = Some (VNum h) /\
      node_attr "y" b
      = Some (VNum (D3.linear_apply (Chart.y animalData graphRef) (speed d))) /\
      (0 <= speed d -> 0 <= h) /\
      (speed d == 0 ->
       (exists d', In d' animalData /\ 0 < speed d') ->
       h == 0 /\
       D3.linear_apply (Chart.y animalData graphRef) (speed d)
       == inject_Z (Chart.innerHeight graphRef)).
Proof.
  intros ds r i d Hnth h.
  destruct (bars_nth ds r i d Hnth) as [fill Hb].
  exists (Chart.bar ds r d fill).
  split; [exact Hb |].
  split; [apply bar_height_attr |].
  split; [apply bar_y_attr |].
  split.
  - intro Hd. apply bar_height_nonneg; [| exact Hd].
    apply (nth_error_In _ _ Hnth).
  - intros Hz Hex. assert (E := bar_height_zero ds r d Hz Hex).
    split; [unfold h; lra | exact E].
Qed.

(** The bar of the cheetah in the spec's example dataset. *)
Lemma bar_height_spec_witness :
  exists b,
    nth_error (fst (Chart.bars two_animals (Some page))) 0 = Some b /\
    node_attr "height" b
    = Some (VNum (inject_Z (Chart.innerHeight (Some page))
                  - D3.linear_apply (Chart.y two_animals (Some page)) 120)).
Proof.
  destruct (bar_height_spec two_animals (Some page) 0%nat cheetah eq_refl)
    as (b & H1 & H2 & _).
  exists b. split; [exact H1 | exact H2].
Defined.

(** C5 as stated fails for the zero measurement of a dataset whose
    measurements are all zero: the bar gets the height [175], half the
    plotting area, and is drawn from the middle, not a bar of height zero
    on the baseline. *)
Lemma bar_height_zero_span_counterexample :
  exists b h,
    In sloth_at_rest all_at_rest /\ speed sloth_at_rest == 0 /\
    nth_error (fst (Chart.bars all_at_rest (Some page))) 0 = Some b /\
    node_attr "height" b = Some (VNum h) /\
    h == 175 /\ ~ h == 0.
Proof.
  eexists. eexists.
  split; [left; reflexivity |]. split; [reflexivity |].
  split; [reflexivity |]. split; [reflexivity |].
  split; [reflexivity | intro H; discriminate H].
Qed.

(** ** The ordinal scale's domain *)

Lemma index_of_Some :
  forall k l i, D3.index_of k l = Some i -> nth_error l i = Some k.
Proof.
  intros k l. induction l as [| e rest IH]; intros i H; simpl in H.
  - discriminate.
  - destruct (String.eqb_spec k e) as [-> | Hne].
    + inversion H; subst. reflexivity.
    + destruct (D3.index_of k rest) as [i' |]; [| discriminate].
      inversion H; subst. simpl. apply IH. reflexivity.
Qed.

Lemma index_of_In :
  forall k l, In k l -> exists i, D3.index_of k l = Some i.
Proof.
  intros k l. induction l as [| e rest IH]; intro Hin; simpl in *.
  - contradiction.
  - destruct (String.eqb_spec k e) as [-> | Hne]; [exists O; reflexivity |].
    destruct Hin as [He | Hin]; [exfalso; apply Hne; symmetry; exact He |].
    destruct (IH Hin) as [i Hi]. rewrite Hi. exists (S i). reflexivity.
Qed.

Lemma index_of_lt :
  forall k l i, D3.index_of k l = Some i -> (i < length l)%nat.
Proof.
  intros k l i H. apply index_of_Some in H.
  apply nth_error_Some. rewrite H. discriminate.
Qed.

Lemma index_of_None : forall k l, ~ In k l -> D3.index_of k l = None.
Proof.
  intros k l Hn. destruct (D3.index_of k l) as [i |] eqn:E; [| reflexivity].
  exfalso. apply Hn. apply index_of_Some in E.
  apply (nth_error_In _ _ E).
Qed.

(** A key found at a position is the first occurrence there. *)
Lemma index_of_nth_NoDup :
  forall l i k, NoDup l -> nth_error l i = Some k -> D3.index_of k l = Some i.
Proof.
  induction l as [| e rest IH]; intros i k Hnd Hnth.
  - destruct i; discriminate.
  - inversion Hnd as [| ? ? Hnotin Hnd']; subst. simpl.
    destruct i as [| i']; simpl in Hnth.
    + inversion Hnth; subst. rewrite String.eqb_refl. reflexivity.
    + destruct (String.eqb_spec k e) as [-> | Hne].
      * exfalso. apply Hnotin. apply (nth_error_In _ _ Hnth).
      * rewrite (IH i' k Hnd' Hnth). reflexivity.
Qed.

Lemma index_of_app_l :
  forall k l1 l2 i, D3.index_of k l1 = Some i -> D3.index_of k (l1 ++ l2) = Some i.
Proof.
  intros k l1 l2. induction l1 as [| e rest IH]; intros i H; simpl in *.
  - discriminate.
  - destruct (String.eqb k e); [exact H |].
    destruct (D3.index_of k rest) as [i' |]; [| discriminate].
    rewrite (IH i' eq_refl). exact H.
Qed.

Lemma index_of_app_r :
  forall k l1 l2, D3.index_of k l1 = None ->
    D3.index_of k (l1 ++ l2)
    = option_map (fun i => (length l1 + i)%nat) (D3.index_of k l2).
Proof.
  intros k l1 l2. induction l1 as [| e rest IH]; intro H; simpl in *.
  - destruct (D3.index_of k l2); reflexivity.
  - destruct (String.eqb k e); [discriminate |].
    destruct (D3.index_of k rest) as [i' |]; [discriminate |].
    rewrite (IH eq_refl). destruct (D3.index_of k l2); reflexivity.
Qed.

(** Entering values in a domain: what was there stays in front, and
    every value ends up in the domain. *)
Lemma intern_fold_prefix :
  forall values dom,
    exists extra,
      fold_left (fun dom v => match D3.index_of v dom with
                              | Some _ => dom
                              | None => dom ++ [v]
                              end) values dom = dom ++ extra.
Proof.
  induction values as [| v rest IH]; intro dom; simpl.
  - exists []. rewrite app_nil_r. reflexivity.
  - destruct (D3.index_of v dom).
    + apply IH.
    + destruct (IH (dom ++ [v])) as [extra E]. rewrite E.
      exists (v :: extra). rewrite <- app_assoc. reflexivity.
Qed.

Lemma intern_fold_In :
  forall values dom k,
    In k dom \/ In k values ->
    In k (fold_left (fun dom v => match D3.index_of v dom with
                                  | Some _ => dom
                                  | None => dom ++ [v]
                                  end) values dom).
Proof.
  induction values as [| v rest IH]; intros dom k H; simpl.
  - destruct H as [H | []]. exact H.
  - apply IH. destruct H as [H | [-> | H]].
    + left. destruct (D3.index_of v dom); [exact H |].
      apply in_or_app. left. exact H.
    + left. destruct (D3.index_of k dom) as [i |] eqn:E.
      * apply index_of_Some in E. apply (nth_error_In _ _ E).
      * apply in_or_app. right. left. reflexivity.
    + right. exact H.
Qed.

Lemma intern_In : forall values k, In k values -> In k (D3.intern values).
Proof.
  intros values k H. unfold D3.intern. apply intern_fold_In. right. exact H.
Qed.

Lemma intern_fold_NoDup :
  forall values dom,
    NoDup (dom ++ values) ->
    fold_left (fun dom v => match D3.index_of v dom with
                            | Some _ => dom
                            | None => dom ++ [v]
                            end) values dom = dom ++ values.
Proof.
  induction values as [| v rest IH]; intros dom Hnd; simpl.
  - rewrite app_nil_r. reflexivity.
  - assert (Hnotin : ~ In v dom).
    { intro Hin. apply NoDup_remove_2 in Hnd. apply Hnd.
      apply in_or_app. left. exact Hin. }
    rewrite (index_of_None _ _ Hnotin).
    rewrite IH; rewrite <- app_assoc; simpl; [reflexivity | exact Hnd].
Qed.

Lemma intern_fold_NoDup_out :
  forall values dom,
    NoDup dom ->
    NoDup (fold_left (fun dom v => match D3.index_of v dom with
                                   | Some _ => dom
                                   | None => dom ++ [v]
                                   end) values dom).
Proof.
  induction values as [| v rest IH]; intros dom Hnd; simpl; [exact Hnd |].
  destruct (D3.index_of v dom) as [i |] eqn:E; apply IH; [exact Hnd |].
  apply NoDup_app; [exact Hnd | repeat constructor; intros [] |].
  intros k Hin [<- | []].
  destruct (index_of_In _ _ Hin) as [i Hi]. congruence.
Qed.

(** A domain holds every key once. *)
Lemma intern_NoDup_out : forall values, NoDup (D3.intern values).
Proof.
  intro values. apply intern_fold_NoDup_out. constructor.
Qed.

(** A sequence without repetitions is its own domain. *)
Lemma intern_NoDup : forall values, NoDup values -> D3.intern values = values.
Proof.
  intros values H. unfold D3.intern.
  rewrite intern_fold_NoDup; [reflexivity | exact H].
Qed.

(** ** The band scale (C6) *)

Lemma nth_error_map_seq :
  forall (A : Type) (f : nat -> A) n s i,
    (i < n)%nat -> nth_error (map f (seq s n)) i = Some (f (s + i)%nat).
Proof.
  intros A f. induction n as [| n IH]; intros s i H; [lia |].
  destruct i as [| i']; simpl.
  - rewrite Nat.add_0_r. reflexivity.
  - rewrite IH; [| lia]. f_equal. f_equal. lia.
Qed.

Section BandLayout.

Variables (animalData : Dataset) (graphRef : option Container).
Hypothesis nonempty : animalData <> [].

Local Abbreviation xs := (Chart.x animalData graphRef).
Local Abbreviation W := (inject_Z (Chart.innerWidth graphRef)).

Lemma x_domain_nonempty : (1 <= length (D3.b_domain xs))%nat.
Proof.
  unfold Chart.x, D3.scaleBand; simpl.
  destruct animalData as [| d rest]; [contradiction nonempty; reflexivity |].
  assert (H : In (name d) (D3.intern (map name (d :: rest)))).
  { apply intern_In. left. reflexivity. }
  destruct (D3.intern (map name (d :: rest))); [contradiction | simpl; lia].
Qed.

Lemma x_band_n : 1 <= D3.band_n xs.
Proof.
  unfold D3.band_n. assert (H := x_domain_nonempty).
  change 1 with (inject_Z 1). rewrite <- Zle_Qle. lia.
Qed.

Lemma x_not_reversed : D3.band_reverse xs = false.
Proof.
  unfold D3.band_reverse, Chart.x, D3.scaleBand; simpl.
  assert (H := innerWidth_pos graphRef).
  destruct (Qlt_le_dec (inject_Z (Chart.innerWidth graphRef)) 0); [lra | reflexivity].
Qed.

Lemma x_paddingInner : D3.b_paddingInner xs == 2 # 10.
Proof.
  unfold Chart.x, D3.scaleBand, D3.Qmin2; simpl.
  destruct (Qlt_le_dec (2 # 10) 1) as [_ | H]; [reflexivity | lra].
Qed.

Lemma x_paddingOuter : D3.b_paddingOuter xs = 2 # 10.
Proof. reflexivity. Qed.

(** The step, the offset of the first band and the band width of the
    chart's position scale. *)
Lemma x_layout :
  0 < D3.band_step xs /\
  D3.band_step xs * (D3.band_n xs + (2 # 10)) == W /\
  D3.band_start xs == (2 # 10) * D3.band_step xs /\
  D3.bandwidth xs == (8 # 10) * D3.band_step xs.
Proof.
  assert (Hn := x_band_n). assert (HW := innerWidth_pos graphRef).
  assert (HpI := x_paddingInner).
  assert (Hlo : D3.band_lo xs = 0).
  { unfold D3.band_lo. rewrite x_not_reversed. reflexivity. }
  assert (Hhi : D3.band_hi xs = inject_Z (Chart.innerWidth graphRef)).
  { unfold D3.band_hi. rewrite x_not_reversed. reflexivity. }
  assert (Hstep : D3.band_step xs
                  == inject_Z (Chart.innerWidth graphRef) / (D3.band_n xs + (2 # 10))).
  { unfold D3.band_step. rewrite Hlo, Hhi, x_paddingOuter.
    unfold D3.Qmax2.
    destruct (Qlt_le_dec 1 (D3.band_n xs - D3.b_paddingInner xs + (2 # 10) * 2))
      as [_ | H]; [| lra].
    rewrite HpI. field. lra. }
  assert (Hprod : D3.band_step xs * (D3.band_n xs + (2 # 10))
                  == inject_Z (Chart.innerWidth graphRef)).
  { rewrite Hstep. field. lra. }
  assert (Hpos : 0 < D3.band_step xs).
  { rewrite Hstep. apply Qlt_shift_div_l; lra. }
  split; [exact Hpos |]. split; [exact Hprod |]. split.
  - unfold D3.band_start. rewrite Hlo, Hhi, HpI.
    change (D3.b_align xs) with (1 # 2). lra.
  - unfold D3.bandwidth. rewrite HpI. ring.
Qed.

(** The position of the key entered at index [i] of the domain. *)
Lemma x_apply_index :
  forall k i,
    D3.index_of k (D3.b_domain xs) = Some i ->
    D3.band_apply xs k
    = Some (D3.band_start xs + D3.band_step xs * inject_Z (Z.of_nat i)).
Proof.
  intros k i H. unfold D3.band_apply, D3.ordinal_apply.
  cbn [D3.o_domain D3.o_range D3.o_unknown]. rewrite H. cbn [fst].
  assert (Hlt := index_of_lt _ _ _ H).
  assert (Hlen : length (D3.band_values xs) = length (D3.b_domain xs)).
  { unfold D3.band_values. rewrite x_not_reversed.
    rewrite length_map, length_seq. reflexivity. }
  rewrite Hlen, Nat.mod_small by exact Hlt.
  unfold D3.band_values. rewrite x_not_reversed.
  rewrite nth_error_map_seq by exact Hlt. reflexivity.
Qed.

(** Every band lies within [[0, innerWidth]]. *)
Lemma x_band_within :
  forall k i,
    D3.index_of k (D3.b_domain xs) = Some i ->
    let p := D3.band_start xs + D3.band_step xs * inject_Z (Z.of_nat i) in
    0 <= p /\ p + D3.bandwidth xs <= W.
Proof.
  intros k i H p. destruct x_layout as (Hpos & Hprod & Hstart & Hbw).
  assert (Hlt := index_of_lt _ _ _ H).
  assert (Hi0 : 0 <= inject_Z (Z.of_nat i)).
  { change 0 with (inject_Z 0). rewrite <- Zle_Qle. lia. }
  assert (Hi1 : inject_Z (Z.of_nat i) + 1 <= D3.band_n xs).
  { unfold D3.band_n. change 1 with (inject_Z 1).
    rewrite <- inject_Z_plus, <- Zle_Qle. lia. }
  assert (M0 := Qmult_le_0_compat _ _ (Qlt_le_weak _ _ Hpos) Hi0).
  assert (M1 : D3.band_step xs * (inject_Z (Z.of_nat i) + 1)
               <= D3.band_step xs * D3.band_n xs).
  { apply Qmult_le_l; assumption. }
  unfold p. split; [lra |].
  rewrite Hstart, Hbw. lra.
Qed.

End BandLayout.

Lemma x_domain_NoDup :
  forall (animalData : Dataset) graphRef,
    NoDup (map name animalData) ->
    D3.b_domain (Chart.x animalData graphRef) = map name animalData.
Proof.
  intros ds r H. unfold Chart.x, D3.scaleBand; simpl.
  apply intern_NoDup. exact H.
Qed.

(** Every record has a band, and the band lies within the plot. *)
Lemma x_position_within :
  forall (animalData : Dataset) graphRef d,
    In d animalData ->
    exists p,
      D3.band_apply (Chart.x animalData graphRef) (name d) = Some p /\
      0 <= p /\
      p + D3.bandwidth (Chart.x animalData graphRef)
      <= inject_Z (Chart.innerWidth graphRef).
Proof.
  intros ds r d Hin.
  assert (Hne : ds <> []) by (destruct ds; [contradiction | discriminate]).
  assert (Hdom : In (name d) (D3.b_domain (Chart.x ds r))).
  { unfold Chart.x, D3.scaleBand; simpl. apply intern_In.
    apply in_map. exact Hin. }
  destruct (index_of_In _ _ Hdom) as [i Hi].
  eexists. split; [apply (x_apply_index ds r _ _ Hi) |].
  apply (x_band_within ds r Hne _ _ Hi).
Qed.

(** The bands follow the order of the domain, that is, the order in
    which the names first occur in the dataset. *)
Lemma x_band_order :
  forall (animalData : Dataset) graphRef a b ka kb,
    nth_error (D3.b_domain (Chart.x animalData graphRef)) a = Some ka ->
    nth_error (D3.b_domain (Chart.x animalData graphRef)) b = Some kb ->
    (a < b)%nat ->
    exists pa pb,
      D3.band_apply (Chart.x animalData graphRef) ka = Some pa /\
      D3.band_apply (Chart.x animalData graphRef) kb = Some pb /\
      pa < pb /\
      0 <= pa /\
      pb + D3.bandwidth (Chart.x animalData graphRef)
      <= inject_Z (Chart.innerWidth graphRef).
Proof.
  intros ds r a b ka kb Ha Hb Hab.
  assert (Hne : ds <> []).
  { intro E. subst ds. destruct a; discriminate Ha. }
  assert (Hnd : NoDup (D3.b_domain (Chart.x ds r))).
  { unfold Chart.x, D3.scaleBand; simpl. apply intern_NoDup_out. }
  assert (Ia := index_of_nth_NoDup _ _ _ Hnd Ha).
  assert (Ib := index_of_nth_NoDup _ _ _ Hnd Hb).
  destruct (x_layout ds r Hne) as (Hpos & _).
  destruct (x_band_within ds r Hne _ _ Ia) as [Ha0 _].
  destruct (x_band_within ds r Hne _ _ Ib) as [_ Hb1].
  eexists. eexists.
  split; [apply (x_apply_index ds r _ _ Ia) |].
  split; [apply (x_apply_index ds r _ _ Ib) |].
  split; [| split; [exact Ha0 | exact Hb1]].
  assert (Hlt : inject_Z (Z.of_nat a) < inject_Z (Z.of_nat b)).
  { rewrite <- Zlt_Qlt. lia. }
  assert (M : D3.band_step (Chart.x ds r) * inject_Z (Z.of_nat a)
              < D3.band_step (Chart.x ds r) * inject_Z (Z.of_nat b)).
  { apply Qmult_lt_l; assumption. }
  lra.
Qed.

(** Records with distinct names are placed left to right in the order
    of the dataset. *)
Lemma x_position_order :
  forall (animalData : Dataset) graphRef i j di dj,
    NoDup (map name animalData) ->
    (i < j)%nat ->
    nth_error animalData i = Some di ->
    nth_error animalData j = Some dj ->
    exists pi pj,
      D3.band_apply (Chart.x animalData graphRef) (name di) = Some pi /\
      D3.band_apply (Chart.x animalData graphRef) (name dj) = Some pj /\
      pi < pj /\
      0 <= pi /\
      pj + D3.bandwidth (Chart.x animalData graphRef)
      <= inject_Z (Chart.innerWidth graphRef).
Proof.
  intros ds r i j di dj Hnd Hij Hi Hj.
  apply (x_band_order ds r i j); [| | exact Hij];
    rewrite (x_domain_NoDup _ _ Hnd); apply map_nth_error; assumption.
Qed.

(** C6: the position scale of the chart has the ordered record names as
    its domain (here: Cheetah, Elephant), the range [[0, innerWidth]] and
    a padding of 0.2; on the spec's two-record dataset it places Cheetah
    left of Elephant, both bands within [[0, innerWidth]], whatever the
    container's size; in every dataset each record's band lies within
    the plot, the bands run left to right in the order in which the names
    first occur, and so records with distinct names are placed left to
    right in dataset order. *)
Theorem position_scale_order :
  (forall graphRef,
     let xs := Chart.x two_animals graphRef in
     D3.b_domain xs = ["Cheetah"; "Elephant"]%string /\
     D3.b_range xs = (0, inject_Z (Chart.innerWidth graphRef)) /\
     D3.b_paddingInner xs == 2 # 10 /\
     D3.b_paddingOuter xs == 2 # 10 /\
     exists pc pe,
       D3.band_apply xs "Cheetah" = Some pc /\
       D3.band_apply xs "Elephant" = Some pe /\
       pc < pe /\ 0 <= pc /\
       pe + D3.bandwidth xs <= inject_Z (Chart.innerWidth graphRef)) /\
  (forall (animalData : Dataset) graphRef d,
     In d animalData ->
     exists p,
       D3.band_apply (Chart.x animalData graphRef) (name d) = Some p /\
       0 <= p /\
       p + D3.bandwidth (Chart.x animalData graphRef)
       <= inject_Z (Chart.innerWidth graphRef)) /\
  (forall (animalData : Dataset) graphRef a b ka kb,
     nth_error (D3.intern (map name animalData)) a = Some ka ->
     nth_error (D3.intern (map name animalData)) b = Some kb ->
     (a < b)%nat ->
     exists pa pb,
       D3.band_apply (Chart.x animalData graphRef) ka = Some pa /\
       D3.band_apply (Chart.x animalData graphRef) kb = Some pb /\
       pa < pb) /\
  (forall (animalData : Dataset) graphRef i j di dj,
     NoDup (map name animalData) ->
     (i < j)%nat ->
     nth_error animalData i = Some di ->
     nth_error animalData j = Some dj ->
     exists pi pj,
       D3.band_apply (Chart.x animalData graphRef) (name di) = Some pi /\
       D3.band_apply (Chart.x animalData graphRef) (name dj) = Some pj /\
       pi < pj).
Proof.
  split; [| split; [| split]].
  - intros r xs.
    assert (Hnd : NoDup (map name two_animals)).
    { simpl. repeat constructor; simpl; intuition discriminate. }
    split; [reflexivity |]. split; [reflexivity |].
    split; [reflexivity |]. split; [reflexivity |].
    destruct (x_position_order two_animals r 0%nat 1%nat cheetah elephant
                Hnd (Nat.lt_0_succ 0) eq_refl eq_refl)
      as (pc & pe & H1 & H2 & H3 & H4 & H5).
    exists pc, pe. repeat split; assumption.
  - apply x_position_within.
  - intros ds r a b ka kb Ha Hb Hab.
    destruct (x_band_order ds r a b ka kb Ha Hb Hab)
      as (pa & pb & H1 & H2 & H3 & _).
    exists pa, pb. repeat split; assumption.
  - intros ds r i j di dj Hnd Hij Hi Hj.
    destruct (x_position_order ds r i j di dj Hnd Hij Hi Hj)
      as (pi & pj & H1 & H2 & H3 & _).
    exists pi, pj. repeat split; assumption.
Qed.

(** Three records on the sample page: the first is left of the third. *)
Lemma position_scale_order_witness :
  exists pi pj,
    D3.band_apply (Chart.x [cheetah; elephant; sloth_at_rest] (Some page))
                  "Cheetah" = Some pi /\
    D3.band_apply (Chart.x [cheetah; elephant; sloth_at_rest] (Some page))
                  "Sloth" = Some pj /\
    pi < pj.
Proof.
  assert (Hnd : NoDup (map name [cheetah; elephant; sloth_at_rest])).
  { simpl. repeat constructor; simpl; intuition discriminate. }
  assert (Hij : (0 < 2)%nat) by lia.
  exact (proj2 (proj2 (proj2 position_scale_order))
               [cheetah; elephant; sloth_at_rest] (Some page)
               0%nat 2%nat cheetah sloth_at_rest Hnd Hij eq_refl eq_refl).
Defined.

(** ** The colour scale (C7) *)

Lemma color_state_initial : color_state Chart.color.
Proof.
  split; [reflexivity |]. split; [reflexivity |]. exists []. reflexivity.
Qed.

Lemma color_state_apply :
  forall s d, color_state s -> color_state (snd (D3.ordinal_apply s d)).
Proof.
  intros s d (Hr & Hu & extra & Hd). unfold D3.ordinal_apply.
  destruct (D3.index_of d (D3.o_domain s)).
  - simpl. split; [exact Hr |]. split; [exact Hu |]. exists extra. exact Hd.
  - rewrite Hu. simpl. split; [exact Hr |]. split; [reflexivity |].
    exists (extra ++ [d]). rewrite Hd, app_assoc. reflexivity.
Qed.

Lemma color_state_map :
  forall keys s, color_state s -> color_state (snd (D3.ordinal_map s keys)).
Proof.
  induction keys as [| k rest IH]; intros s H; simpl; [exact H |].
  assert (H1 := color_state_apply s k H).
  destruct (D3.ordinal_apply s k) as [v s1]. simpl in H1.
  specialize (IH s1 H1). destruct (D3.ordinal_map s1 rest) as [vs s2].
  exact IH.
Qed.

Lemma range_slot :
  forall k, exists c,
    nth_error (D3.o_range Chart.color) (k mod 3) = Some c /\
    In c (D3.o_range Chart.color).
Proof.
  intro k. assert (H : (k mod 3 < 3)%nat) by (apply Nat.mod_upper_bound; lia).
  destruct (k mod 3)%nat as [| [| [| n]]]; simpl; [| | | lia];
    eexists; (split; [reflexivity |]); simpl; tauto.
Qed.

(** In every such state the scale answers with one of its colours. *)
Lemma color_apply_defined :
  forall s d, color_state s ->
    exists c, fst (D3.ordinal_apply s d) = Some c /\ In c (D3.o_range Chart.color).
Proof.
  intros s d (Hr & Hu & extra & Hd). unfold D3.ordinal_apply.
  destruct (D3.index_of d (D3.o_domain s)) as [i |].
  - cbn [fst]. rewrite Hr. apply range_slot.
  - rewrite Hu. cbn [fst]. rewrite Hr. apply range_slot.
Qed.

(** The three diets keep their colours in every such state. *)
Lemma color_apply_diet :
  forall s d i, color_state s ->
    D3.index_of d Chart.diets = Some i ->
    D3.ordinal_apply s d = (nth_error (D3.o_range Chart.color) i, s).
Proof.
  intros s d i (Hr & Hu & extra & Hd) Hi. unfold D3.ordinal_apply.
  rewrite Hd, (index_of_app_l _ _ extra _ Hi), Hr.
  assert (Hlt := index_of_lt _ _ _ Hi).
  change (length (D3.o_range Chart.color)) with 3%nat.
  change (length Chart.diets) with 3%nat in Hlt.
  rewrite Nat.mod_small by exact Hlt. reflexivity.
Qed.

(** C7: the colour scale has the three diets as its domain and the three
    colours as its range, in the same order; whatever keys it was asked
    before, it maps each diet to its colour, and it answers any key at
    all, also one outside the domain, with one of the three colours,
    never with [undefined].  The key ["Unknown"], asked first, gets the
    first colour. *)
Theorem color_scale_total :
  D3.o_domain Chart.color = [Herbivore; Carnivore; Omnivore] /\
  D3.o_range Chart.color = ["#5AA469"; "#C75C5C"; "#4D96FF"]%string /\
  (forall keys,
     let s := snd (D3.ordinal_map Chart.color keys) in
     fst (D3.ordinal_apply s Herbivore) = Some "#5AA469"%string /\
     fst (D3.ordinal_apply s Carnivore) = Some "#C75C5C"%string /\
     fst (D3.ordinal_apply s Omnivore) = Some "#4D96FF"%string /\
     forall d, exists c,
       fst (D3.ordinal_apply s d) = Some c /\
       In c ["#5AA469"; "#C75C5C"; "#4D96FF"]%string) /\
  fst (D3.ordinal_apply Chart.color "Unknown") = Some "#5AA469"%string.
Proof.
  split; [reflexivity |]. split; [reflexivity |]. split; [| reflexivity].
  intros keys s.
  assert (Hs : color_state s) by (apply color_state_map, color_state_initial).
  split; [rewrite (color_apply_diet s Herbivore 0 Hs eq_refl); reflexivity |].
  split; [rewrite (color_apply_diet s Carnivore 1 Hs eq_refl); reflexivity |].
  split; [rewrite (color_apply_diet s Omnivore 2 Hs eq_refl); reflexivity |].
  intro d. apply (color_apply_defined s d Hs).
Qed.

(** ** The legend (C10) *)

Lemma legend_fixed :
  forall graphRef s, color_state s ->
    Chart.legend graphRef s
    = Elem "g"
           [("transform"%string,
             VTranslate (inject_Z (Chart.innerWidth graphRef - 150)) (-10))]
           None
           [Chart.legend_item 0 Herbivore (Some "#5AA469"%string);
            Chart.legend_item 1 Carnivore (Some "#C75C5C"%string);
            Chart.legend_item 2 Omnivore (Some "#4D96FF"%string)].
Proof.
  intros r s Hs. unfold Chart.legend, Chart.diets.
  cbn [D3.ordinal_map].
  rewrite (color_apply_diet s Herbivore 0 Hs eq_refl).
  rewrite (color_apply_diet s Carnivore 1 Hs eq_refl).
  rewrite (color_apply_diet s Omnivore 2 Hs eq_refl).
  reflexivity.
Qed.

Lemma bars_color_state :
  forall animalData graphRef, color_state (snd (Chart.bars animalData graphRef)).
Proof.
  intros ds r. unfold Chart.bars.
  assert (H := color_state_map (map diet ds) Chart.color color_state_initial).
  destruct (D3.ordinal_map Chart.color (map diet ds)) as [fills c1].
  exact H.
Qed.

(** C10: for every non-empty dataset and every container, what the render
    pass leaves in the container is one [svg] whose plotting group ends
    with the legend group, and the legend group holds exactly three
    entries, whatever diets the records carry: Herbivore, Carnivore,
    Omnivore, in this order, 20 units apart.  Each entry is a group of
    class [legend-item] holding a 14 by 14 swatch with rounded corners,
    filled with the diet's fixed colour (#5AA469, #C75C5C, #4D96FF), and
    beside it the diet's name as text. *)
Theorem legend_three_entries :
  forall (animalData : Dataset) (c : Container),
    animalData <> [] ->
    let entry := fun (dy : Q) (label colour : string) =>
      Elem "g"
           [("class", VStr "legend-item");
            ("transform", VTranslate 0 dy)]%string
           None
           [Elem "rect"
                 [("width", VNum 14); ("height", VNum 14);
                  ("rx", VNum 2); ("ry", VNum 2);
                  ("fill", VStr colour)]%string
                 None [];
            Elem "text"
                 [("x", VNum 20); ("y", VNum 11); ("font-size", VNum 12)]%string
                 (Some (TStr label)) []] in
    exists svg_attrs g_attrs front chart_title,
      Chart.surface (Chart.render animalData (Some c))
      = Some (mkContainer (clientWidth c) (clientHeight c)
                [Elem "svg" svg_attrs None
                   [Elem "g" g_attrs None
                      (front ++
                       [Elem "g"
                          [("transform"%string,
                            VTranslate
                              (inject_Z (Z.max (clientWidth c) 600 - 100 - 60 - 150))
                              (-10))]
                          None
                          [entry 0 "Herbivore" "#5AA469";
                           entry 20 "Carnivore" "#C75C5C";
                           entry 40 "Omnivore" "#4D96FF"]%string]);
                    chart_title]]).
Proof.
  intros ds c Hne entry. unfold Chart.render.
  destruct ds as [| d rest]; [contradiction Hne; reflexivity |].
  cbn [length Nat.eqb option_map Chart.surface Chart.append_svg Chart.clear
       children clientWidth clientHeight app].
  unfold Chart.svg, Chart.plot_group.
  assert (Hs := bars_color_state (d :: rest) (Some (Chart.clear c))).
  destruct (Chart.bars (d :: rest) (Some (Chart.clear c))) as [rects c1].
  cbn [snd] in Hs. rewrite (legend_fixed _ c1 Hs).
  unfold Chart.append_svg.
  change (children (Chart.clear c)) with (@nil Node).
  rewrite app_nil_l, !app_assoc.
  eexists. eexists. eexists. eexists. reflexivity.
Qed.

(** The legend of the spec's example dataset on the sample page. *)
Lemma legend_three_entries_witness :
  exists svg_attrs g_attrs front chart_title,
    Chart.surface (Chart.render two_animals (Some page))
    = Some (mkContainer 1000 500
              [Elem "svg" svg_attrs None
                 [Elem "g" g_attrs None
                    (front ++
                     [Elem "g" [("transform"%string, VTranslate 690 (-10))]
                        None
                        [Elem "g"
                           [("class", VStr "legend-item");
                            ("transform", VTranslate 0 0)]%string
                           None
                           [Elem "rect"
                              [("width", VNum 14); ("height", VNum 14);
                               ("rx", VNum 2); ("ry", VNum 2);
                               ("fill", VStr "#5AA469")]%string
                              None [];
                            Elem "text"
                              [("x", VNum 20); ("y", VNum 11);
                               ("font-size", VNum 12)]%string
                              (Some (TStr "Herbivore")) []];
                         Elem "g"
                           [("class", VStr "legend-item");
                            ("transform", VTranslate 0 20)]%string
                           None
                           [Elem "rect"
                              [("width", VNum 14); ("height", VNum 14);
                               ("rx", VNum 2); ("ry", VNum 2);
                               ("fill", VStr "#C75C5C")]%string
                              None [];
                            Elem "text"
                              [("x", VNum 20); ("y", VNum 11);
                               ("font-size", VNum 12)]%string
                              (Some (TStr "Carnivore")) []];
                         Elem "g"
                           [("class", VStr "legend-item");
                            ("transform", VTranslate 0 40)]%string
                           None
                           [Elem "rect"
                              [("width", VNum 14); ("height", VNum 14);
                               ("rx", VNum 2); ("ry", VNum 2);
                               ("fill", VStr "#4D96FF")]%string
                              None [];
                            Elem "text"
                              [("x", VNum 20); ("y", VNum 11);
                               ("font-size", VNum 12)]%string
                              (Some (TStr "Omnivore")) []]]]);
                  chart_title]]).
Proof.
  assert (Hne : two_animals <> []) by discriminate.
  exact (legend_three_entries two_animals page Hne).
Defined.

(** ** The render pass (C3, C8) *)

(** C3: on the empty dataset the render pass does nothing but clear the
    container: no [svg] is appended, no scale is built, nothing is drawn,
    and the container is left without content.  The maximum of the empty
    measurement sequence, which the numeric scale would need, is
    undefined, and is never asked for. *)
Theorem render_empty_short_circuits :
  forall graphRef,
    Chart.render [] graphRef
    = Chart.mkRendered (option_map Chart.clear graphRef)
                       (match graphRef with
                        | Some _ => [Chart.StClear]
                        | None => []
                        end) /\
    ~ In Chart.StAppendSvg (Chart.stages (Chart.render [] graphRef)) /\
    ~ In Chart.StScales (Chart.stages (Chart.render [] graphRef)) /\
    ~ In Chart.StDraw (Chart.stages (Chart.render [] graphRef)) /\
    (forall c, Chart.surface (Chart.render [] graphRef) = Some c ->
               children c = []) /\
    D3.max (map speed []) = None.
Proof.
  intro r. split; [reflexivity |].
  destruct r as [c |]; simpl;
    (split; [intuition discriminate |]);
    (split; [intuition discriminate |]);
    (split; [intuition discriminate |]);
    (split; [| reflexivity]); intros c' H; inversion H; reflexivity.
Qed.

(** A container with old content comes out of the pass empty. *)
Lemma render_empty_short_circuits_witness :
  children (Chart.clear used_page) = [].
Proof.
  exact (proj1 (proj2 (proj2 (proj2 (proj2
           (render_empty_short_circuits (Some used_page))))))
           (Chart.clear used_page) eq_refl).
Defined.

(** The render pass looks at the container's size only: what the
    container held before does not matter. *)
Lemma render_after_clear :
  forall animalData graphRef,
    Chart.render animalData (option_map Chart.clear graphRef)
    = Chart.render animalData graphRef.
Proof.
  intros ds [c |]; reflexivity.
Qed.

Lemma render_surface_cleared :
  forall animalData graphRef,
    option_map Chart.clear (Chart.surface (Chart.render animalData graphRef))
    = option_map Chart.clear graphRef.
Proof.
  intros ds [c |]; unfold Chart.render;
    destruct (length ds =? 0)%nat; reflexivity.
Qed.

(** Every fill the colour scale hands out is one of its colours. *)
Lemma color_map_defined :
  forall keys s i fill,
    color_state s ->
    nth_error (fst (D3.ordinal_map s keys)) i = Some fill ->
    exists colour,
      fill = Some colour /\ In colour (D3.o_range Chart.color).
Proof.
  induction keys as [| k rest IH]; intros s i fill Hs Hnth; simpl in Hnth.
  - destruct i; discriminate.
  - assert (Hd := color_apply_defined s k Hs).
    assert (Hs1 := color_state_apply s k Hs).
    destruct (D3.ordinal_apply s k) as [v s1]. simpl in Hd, Hs1.
    specialize (IH s1).
    destruct (D3.ordinal_map s1 rest) as [vs s2]. simpl in *.
    destruct i as [| i']; simpl in Hnth.
    + inversion Hnth; subst fill. destruct Hd as (c & Hc & Hin).
      exists c. split; assumption.
    + apply (IH i' fill Hs1 Hnth).
Qed.

(** The bar of the [i]-th record, attribute by attribute. *)
Lemma bars_nth_drawn :
  forall (animalData : Dataset) graphRef i d,
    nth_error animalData i = Some d ->
    exists p colour,
      D3.band_apply (Chart.x animalData graphRef) (name d) = Some p /\
      In colour (D3.o_range Chart.color) /\
      nth_error (fst (Chart.bars animalData graphRef)) i
      = Some (Elem "rect"
                [("class", VStr "bar");
                 ("x", VNum p);
                 ("y", VNum (D3.linear_apply (Chart.y animalData graphRef)
                                             (speed d)));
                 ("width", VNum (D3.bandwidth (Chart.x animalData graphRef)));
                 ("height",
                  VNum (inject_Z (Chart.innerHeight graphRef)
                        - D3.linear_apply (Chart.y animalData graphRef)
                                          (speed d)));
                 ("fill", VStr colour)]%string
                None []).
Proof.
  intros ds r i d Hnth.
  destruct (x_position_within ds r d (nth_error_In _ _ Hnth)) as (p & Hp & _).
  unfold Chart.bars.
  assert (L := ordinal_map_length _ (map diet ds) Chart.color).
  assert (Hc := fun k f => color_map_defined (map diet ds) Chart.color k f
                             color_state_initial).
  destruct (D3.ordinal_map Chart.color (map diet ds)) as [fills c1].
  cbn [fst] in *. rewrite length_map in L.
  destruct (bars_with_nth ds r ds fills i d L Hnth) as (fill & Hf & Hb).
  destruct (Hc i fill Hf) as (colour & -> & Hin).
  exists p, colour. split; [exact Hp |]. split; [exact Hin |].
  rewrite Hb. unfold Chart.bar. rewrite Hp. reflexivity.
Qed.

Lemma bars_with_count :
  forall animalData graphRef l fills,
    length fills = length l ->
    length (Chart.bars_with animalData graphRef l fills) = length l.
Proof.
  intros ds r l. induction l as [| e rest IH]; intros fills L.
  - destruct fills; reflexivity.
  - destruct fills as [| f fills']; [discriminate |].
    simpl in *. f_equal. apply IH. lia.
Qed.

Lemma bars_count :
  forall (animalData : Dataset) graphRef,
    length (fst (Chart.bars animalData graphRef)) = length animalData.
Proof.
  intros ds r. unfold Chart.bars.
  assert (L := ordinal_map_length _ (map diet ds) Chart.color).
  destruct (D3.ordinal_map Chart.color (map diet ds)) as [fills c1].
  cbn [fst] in *. rewrite length_map in L.
  apply bars_with_count. exact L.
Qed.

(** C8: every render pass first discards what the container held and
    then draws the whole composition anew, so rendering the same dataset
    again leaves the container exactly as the first pass left it, with
    nothing accumulated, and both passes go through the same stages.
    What a pass draws for a non-empty dataset is one [svg] of the
    surface's size that holds the plotting group, moved by the left and
    top margins, and the title; the plotting group holds, in this order,
    the horizontal axis at the baseline with its labels turned, the
    vertical axis with 6 ticks, the two axis titles, one bar and one
    label for each record, and the legend with its three entries.  For
    the empty dataset, and without a container, a pass draws nothing. *)
Theorem render_idempotent :
  forall (animalData : Dataset) graphRef,
    let once := Chart.render animalData graphRef in
    let twice := Chart.render animalData (Chart.surface once) in
    Chart.surface twice = Chart.surface once /\
    Chart.stages twice = Chart.stages once /\
    (forall w h before,
       Chart.surface (Chart.render animalData (Some (mkContainer w h before)))
       = Chart.surface (Chart.render animalData (Some (mkContainer w h [])))) /\
    (forall c, Chart.surface once = Some c -> (length (children c) <= 1)%nat) /\
    (graphRef = None -> Chart.surface once = None) /\
    (forall c,
       graphRef = Some c -> animalData = [] ->
       Chart.surface once
       = Some (mkContainer (clientWidth c) (clientHeight c) [])) /\
    (forall c,
       graphRef = Some c -> animalData <> [] ->
       let width := Z.max (clientWidth c) 600 in
       let height := Z.max (clientHeight c) 400 in
       let W := inject_Z (width - 100 - 60) in
       let H := inject_Z (height - 70 - 80) in
       let xs := D3.scaleBand (map name animalData) (0, W) (2 # 10) in
       let ys :=
         D3.mkLinear
           (D3.nice (0, match D3.max (map speed animalData) with
                        | Some m => m
                        | None => 0
                        end))
           (H, 0) in
       let entry := fun (dy : Q) (label colour : string) =>
         Elem "g"
              [("class", VStr "legend-item");
               ("transform", VTranslate 0 dy)]%string
              None
              [Elem "rect"
                    [("width", VNum 14); ("height", VNum 14);
                     ("rx", VNum 2); ("ry", VNum 2);
                     ("fill", VStr colour)]%string
                    None [];
               Elem "text"
                    [("x", VNum 20); ("y", VNum 11);
                     ("font-size", VNum 12)]%string
                    (Some (TStr label)) []] in
       exists rects,
         Chart.surface once
         = Some
             (mkContainer (clientWidth c) (clientHeight c)
                [Elem "svg"
                   [("width", VNum (inject_Z width));
                    ("height", VNum (inject_Z height))]%string
                   None
                   [Elem "g" [("transform"%string, VTranslate 100 70)] None
                      ([Elem "g" [("transform"%string, VTranslate 0 H)] None
                          [Axis (AxisBottom xs)
                                [("text-anchor", "end")]%string
                                [("dx", VStr "-0.4em"); ("dy", VStr "0.2em");
                                 ("transform", VRotate (-90))]%string];
                        Elem "g" [] None [Axis (AxisLeft ys 6) [] []];
                        Elem "text"
                             [("x", VNum (W / 2));
                              ("y", VNum (inject_Z (height - 70 - 80 + 50)));
                              ("text-anchor", VStr "middle");
                              ("font-weight", VNum 600)]%string
                             (Some (TStr "Animal")) [];
                        Elem "text"
                             [("transform", VRotate (-90));
                              ("x", VNum (- H / 2));
                              ("y", VNum (-60));
                              ("text-anchor", VStr "middle");
                              ("font-weight", VNum 600)]%string
                             (Some (TStr "Speed (km/h)")) []]
                       ++ rects
                       ++ map (fun d =>
                                 Elem "text"
                                      [("class", VStr "bar-label");
                                       ("x", match D3.band_apply xs (name d) with
                                             | Some p =>
                                                 VNum (p + D3.bandwidth xs / 2)
                                             | None => VNaN
                                             end);
                                       ("y", VNum (D3.linear_apply ys (speed d) - 6));
                                       ("text-anchor", VStr "middle");
                                       ("font-size", VNum 12)]%string
                                      (Some (TNum (speed d))) [])
                              animalData
                       ++ [Elem "g"
                             [("transform"%string,
                               VTranslate (inject_Z (width - 100 - 60 - 150)) (-10))]
                             None
                             [entry 0 "Herbivore" "#5AA469";
                              entry 20 "Carnivore" "#C75C5C";
                              entry 40 "Omnivore" "#4D96FF"]%string]);
                    Elem "text"
                         [("x", VNum (inject_Z width / 2));
                          ("y", VNum (70 / 2));
                          ("text-anchor", VStr "middle");
                          ("font-size", VNum 18);
                          ("font-weight", VNum 700)]%string
                         (Some (TStr "Animal Speeds by Diet")) []]]) /\
         length rects = length animalData /\
         (forall i d,
            nth_error animalData i = Some d ->
            exists p colour,
              D3.band_apply xs (name d) = Some p /\
              In colour ["#5AA469"; "#C75C5C"; "#4D96FF"]%string /\
              nth_error rects i
              = Some (Elem "rect"
                        [("class", VStr "bar");
                         ("x", VNum p);
                         ("y", VNum (D3.linear_apply ys (speed d)));
                         ("width", VNum (D3.bandwidth xs));
                         ("height", VNum (H - D3.linear_apply ys (speed d)));
                         ("fill", VStr colour)]%string
                        None []))).
Proof.
  intros ds r once twice.
  assert (E : twice = once).
  { unfold twice. rewrite <- render_after_clear.
    unfold once at 1. rewrite render_surface_cleared.
    apply render_after_clear. }
  split; [rewrite E; reflexivity |]. split; [rewrite E; reflexivity |].
  split; [| split; [| split; [| split]]].
  - intros w h before.
    rewrite <- (render_after_clear ds (Some (mkContainer w h before))).
    reflexivity.
  - intros c H. unfold once, Chart.render in H.
    destruct r as [c0 |]; destruct (length ds =? 0)%nat; simpl in H;
      inversion H; subst; simpl; lia.
  - intros ->. unfold once, Chart.render.
    destruct (length ds =? 0)%nat; reflexivity.
  - intros c -> ->. reflexivity.
  - intros c -> Hne width height W H xs ys entry. unfold once. clear E once twice.
    destruct ds as [| d0 rest]; [contradiction Hne; reflexivity |].
    set (ds := d0 :: rest) in *.
    assert (Hs := bars_color_state ds (Some (Chart.clear c))).
    assert (Hn := bars_count ds (Some (Chart.clear c))).
    assert (Hb := bars_nth_drawn ds (Some (Chart.clear c))).
    unfold Chart.render.
    change (length ds =? 0)%nat with false.
    cbn [option_map Chart.surface]. unfold Chart.append_svg.
    change (children (Chart.clear c)) with (@nil Node). rewrite app_nil_l.
    unfold Chart.svg, Chart.plot_group.
    destruct (Chart.bars ds (Some (Chart.clear c))) as [rects c1].
    cbn [fst snd] in Hs, Hn, Hb. rewrite (legend_fixed _ c1 Hs).
    exists rects. split; [reflexivity |]. split; [exact Hn |].
    exact Hb.
Qed.

(** The spec's example dataset drawn on the sample page: one [svg] with
    two bars, the first of them the cheetah's. *)
Lemma render_idempotent_witness :
  exists c rects p colour,
    Chart.surface (Chart.render two_animals (Some page)) = Some c /\
    (length (children c) <= 1)%nat /\
    length rects = 2%nat /\
    nth_error rects 0
    = Some (Elem "rect"
              [("class", VStr "bar");
               ("x", VNum p);
               ("y", VNum (D3.linear_apply
                             (D3.mkLinear (D3.nice (0, 120)) (350, 0)) 120));
               ("width",
                VNum (D3.bandwidth
                        (D3.scaleBand ["Cheetah"; "Elephant"] (0, 840) (2 # 10))));
               ("height",
                VNum (350 - D3.linear_apply
                              (D3.mkLinear (D3.nice (0, 120)) (350, 0)) 120));
               ("fill", VStr colour)]%string
              None []).
Proof.
  assert (Hne : two_animals <> []) by discriminate.
  destruct (proj2 (proj2 (proj2 (proj2 (proj2 (proj2
              (render_idempotent two_animals (Some page)))))))
              page eq_refl Hne)
    as (rects & Hsurf & Hlen & Hbars).
  destruct (Hbars 0%nat cheetah eq_refl) as (p & colour & _ & _ & Hbar).
  eexists. exists rects, p, colour.
  split; [reflexivity |]. split.
  - exact (proj1 (proj2 (proj2 (proj2
             (render_idempotent two_animals (Some page))))) _ eq_refl).
  - split; [exact Hlen | exact Hbar].
Defined.

(** ** The load effect (C1, C2) *)

Import Component.

Lemma after_cleanup_app :
  forall l l',
    after_cleanup (l ++ l')
    = if has_cleanup l then after_cleanup l ++ l' else after_cleanup l'.
Proof.
  induction l as [| a rest IH]; intro l'; [reflexivity |].
  destruct a; simpl; try apply IH. reflexivity.
Qed.

Lemma has_cleanup_app :
  forall l l', has_cleanup (l ++ l') = has_cleanup l || has_cleanup l'.
Proof.
  induction l as [| a rest IH]; intro l'; [reflexivity |].
  destruct a; simpl; try apply IH. reflexivity.
Qed.

Lemma setter_calls_app :
  forall l l', setter_calls (l ++ l') = (setter_calls l + setter_calls l')%nat.
Proof.
  induction l as [| a rest IH]; intro l'; [reflexivity |].
  destruct a; simpl; rewrite IH; reflexivity.
Qed.

Lemma load_invariant_initial : load_invariant initial.
Proof.
  split; [discriminate |]. split; [discriminate | reflexivity].
Qed.

(** Every step keeps the invariant. *)
Lemma load_invariant_step :
  forall st e, load_invariant st -> load_invariant (step st e).
Proof.
  intros st e H. destruct e as [c | o |]; unfold step.
  - (* Mount *)
    destruct (phase st) eqn:Hp; try exact H.
    destruct H as (Hc & Hu & Hs). rewrite Hp in Hc, Hu.
    assert (Hno : has_cleanup (log st) = false).
    { destruct (has_cleanup (log st)); [| reflexivity].
      specialize (Hc eq_refl). discriminate. }
    split; [| split]; cbn [log phase cancelled].
    + rewrite has_cleanup_app, Hno. discriminate.
    + discriminate.
    + rewrite after_cleanup_app, Hno. reflexivity.
  - (* Settle *)
    destruct (fetch st); try exact H.
    destruct H as (Hc & Hu & Hs).
    destruct o as [rows | reason]; unfold settle, then_, on_rows, record;
      cbn [cancelled log phase animalData graphRef fetch].
    + destruct (cancelled st) eqn:Hcan; cbn [negb];
        unfold setAnimalData; cbn [cancelled log phase animalData graphRef fetch].
      * split; [| split]; cbn [log phase cancelled].
        -- rewrite has_cleanup_app, orb_false_r. exact Hc.
        -- intros _. reflexivity.
        -- rewrite after_cleanup_app.
           destruct (has_cleanup (log st));
             [rewrite setter_calls_app, Hs |]; reflexivity.
      * assert (Hno : has_cleanup (log st) = false).
        { destruct (has_cleanup (log st)); [| reflexivity].
          specialize (Hu (Hc eq_refl)). discriminate. }
        split; [| split]; cbn [log phase cancelled].
        -- rewrite !has_cleanup_app, Hno. discriminate.
        -- intro Hp. specialize (Hu Hp). discriminate.
        -- rewrite <- app_assoc, after_cleanup_app, Hno. reflexivity.
    + split; [| split]; cbn [log phase cancelled].
      * rewrite has_cleanup_app, orb_false_r. exact Hc.
      * exact Hu.
      * rewrite after_cleanup_app.
        destruct (has_cleanup (log st));
          [rewrite setter_calls_app, Hs |]; reflexivity.
  - (* Unmount *)
    destruct (phase st) eqn:Hp; try exact H.
    destruct H as (Hc & Hu & Hs). rewrite Hp in Hc, Hu.
    assert (Hno : has_cleanup (log st) = false).
    { destruct (has_cleanup (log st)); [| reflexivity].
      specialize (Hc eq_refl). discriminate. }
    split; [| split]; cbn [log phase cancelled].
    + intros _. reflexivity.
    + intros _. reflexivity.
    + rewrite after_cleanup_app, Hno. reflexivity.
Qed.

Lemma load_invariant_run :
  forall events st, load_invariant st -> load_invariant (run events st).
Proof.
  induction events as [| e rest IH]; intros st H; [exact H |].
  simpl. apply IH. apply load_invariant_step. exact H.
Qed.

(** C1: in every run of the component, whatever the order of mount,
    unmount and the settling of the fetch, no call of the state setter
    is recorded after the clean-up; and once the component is unmounted,
    a fetch that settles then changes neither the dataset nor the
    container and calls no setter. *)
Theorem no_setter_call_after_unmount :
  forall events,
    let st := run events initial in
    setter_calls (after_cleanup (log st)) = 0%nat /\
    (phase st = Unmounted ->
     forall o,
       animalData (step st (Settle o)) = animalData st /\
       graphRef (step st (Settle o)) = graphRef st /\
       setter_calls (log (step st (Settle o))) = setter_calls (log st)).
Proof.
  intros events st.
  destruct (load_invariant_run events initial load_invariant_initial)
    as (Hc & Hu & Hs). fold st in Hc, Hu, Hs.
  split; [exact Hs |].
  intros Hp o. specialize (Hu Hp). unfold step.
  destruct (fetch st); try (repeat split; reflexivity).
  destruct o as [rows | reason]; unfold settle, then_, on_rows, record;
    cbn [cancelled log phase animalData graphRef fetch].
  - rewrite Hu. cbn [negb log animalData graphRef].
    rewrite setter_calls_app. simpl. repeat split; lia.
  - cbn [log animalData graphRef].
    rewrite setter_calls_app. simpl. repeat split; lia.
Qed.

(** Unmount before the fetch resolves: the rows are dropped. *)
Lemma no_setter_call_after_unmount_witness :
  animalData (step (run [Mount page; Unmount] initial)
                   (Settle (Fulfilled two_animals))) = [] /\
  setter_calls (log (step (run [Mount page; Unmount] initial)
                          (Settle (Fulfilled two_animals)))) = 0%nat.
Proof.
  destruct (no_setter_call_after_unmount [Mount page; Unmount]) as [_ H].
  destruct (H eq_refl (Fulfilled two_animals)) as (H1 & _ & H3).
  split; [exact H1 | exact H3].
Defined.

(** A fetch that resolves while the component is mounted does store its
    rows: the flag, not the model, is what stops the setter. *)
Example setter_called_while_mounted :
  log (run [Mount page; Settle (Fulfilled two_animals); Unmount] initial)
  = [ActFetch "/sample_animals.csv"; ActSetAnimalData two_animals;
     ActConsoleLog 2; ActCleanup].
Proof. reflexivity. Qed.

Lemma pending_invariant_initial : pending_invariant initial.
Proof.
  split; [reflexivity |]. intros _. repeat split; reflexivity.
Qed.

Lemma pending_invariant_step :
  forall st e, pending_invariant st -> pending_invariant (step st e).
Proof.
  intros st e H. destruct e as [c | o |]; unfold step.
  - destruct (phase st) eqn:Hp; try exact H.
    destruct H as (Hf & Hun). rewrite Hp in Hf. specialize (Hf eq_refl).
    assert (Hu : unloaded st) by (apply Hun; rewrite Hf; discriminate).
    destruct Hu as (Hd & Hdr & Hsc).
    split; [discriminate |]. intros _. rewrite Hd.
    unfold unloaded, drawn; cbn [animalData graphRef log].
    rewrite setter_calls_app, Hsc. repeat split; reflexivity.
  - destruct (fetch st) eqn:Hf; try exact H.
    destruct H as (Hnm & Hun).
    assert (Hph : phase st <> NotMounted).
    { intro Hp. specialize (Hnm Hp). congruence. }
    destruct o as [rows | reason]; unfold settle, then_, on_rows, record;
      cbn [cancelled log phase animalData graphRef fetch].
    + split.
      * destruct (negb (cancelled st)); cbn [phase setAnimalData fetch];
          intro Hp; exfalso; exact (Hph Hp).
      * destruct (negb (cancelled st)); cbn [phase setAnimalData fetch];
          intro Hne; exfalso; apply Hne; reflexivity.
    + split; cbn [phase fetch].
      * intro Hp. exfalso. exact (Hph Hp).
      * intro Hne. exfalso. apply Hne. reflexivity.
  - destruct (phase st) eqn:Hp; try exact H.
    destruct H as (Hnm & Hun). split; [discriminate |].
    cbn [fetch]. intro Hne. destruct (Hun Hne) as (Hd & Hdr & Hsc).
    unfold unloaded, drawn; cbn [animalData graphRef log].
    rewrite setter_calls_app, Hsc. repeat split; try reflexivity; exact Hd.
Qed.

Lemma pending_invariant_run :
  forall events st, pending_invariant st -> pending_invariant (run events st).
Proof.
  induction events as [| e rest IH]; intros st H; [exact H |].
  simpl. apply IH. apply pending_invariant_step. exact H.
Qed.

Lemma failed_invariant_step :
  forall st e, failed_invariant st -> failed_invariant (step st e).
Proof.
  intros st e H. assert (H' := H). destruct H' as (Hf & Hp & Hd & Hdr & Hsc).
  destruct e as [c | o |]; unfold step.
  - destruct (phase st); [exfalso; apply Hp; reflexivity | exact H | exact H].
  - rewrite Hf. exact H.
  - destruct (phase st); try exact H.
    split; [exact Hf |]. split; [discriminate |].
    unfold unloaded, drawn; cbn [animalData graphRef log].
    rewrite setter_calls_app, Hsc. repeat split; try reflexivity; exact Hd.
Qed.

Lemma failed_invariant_run :
  forall events st, failed_invariant st -> failed_invariant (run events st).
Proof.
  induction events as [| e rest IH]; intros st H; [exact H |].
  simpl. apply IH. apply failed_invariant_step. exact H.
Qed.

(** C2, as amended: a failure of the load rejects the promise, and the
    component has no rejection handler: the rejection is left unhandled,
    not caught.  The callback that stores the rows does not run, so from
    then on, whatever happens next, the dataset stays empty, the setter
    is never called and nothing is drawn in the container. *)
Theorem load_failure_leaves_dataset_empty :
  forall events reason later,
    fetch (run events initial) = InFlight ->
    let st := run events initial in
    let failed := step st (Settle (Rejected reason)) in
    log failed = log st ++ [ActUnhandledRejection reason] /\
    animalData (run later failed) = [] /\
    drawn (run later failed) = [] /\
    setter_calls (log (run later failed)) = 0%nat.
Proof.
  intros events reason later Hf st failed.
  destruct (pending_invariant_run events initial pending_invariant_initial)
    as (Hnm & Hun). fold st in Hnm, Hun.
  assert (Hu : unloaded st) by (apply Hun; unfold st; rewrite Hf; discriminate).
  assert (Hfailed : failed
                    = mkState (phase st) (animalData st) (graphRef st)
                              (cancelled st) Settled
                              (log st ++ [ActUnhandledRejection reason])).
  { unfold failed, step. fold st in Hf. rewrite Hf. reflexivity. }
  split; [rewrite Hfailed; reflexivity |].
  assert (Hinv : failed_invariant failed).
  { rewrite Hfailed. destruct Hu as (Hd & Hdr & Hsc).
    split; [reflexivity |]. split.
    - cbn [phase]. intro Hp. specialize (Hnm Hp). fold st in Hf.
      rewrite Hf in Hnm. discriminate.
    - unfold unloaded, drawn in *; cbn [animalData graphRef log].
      rewrite setter_calls_app, Hsc. repeat split; assumption. }
  destruct (failed_invariant_run later failed Hinv) as (_ & _ & Hd & Hdr & Hsc).
  repeat split; assumption.
Qed.

(** The load fails on the sample page and the component is unmounted
    afterwards. *)
Lemma load_failure_leaves_dataset_empty_witness :
  log (step (run [Mount page] initial) (Settle (Rejected "Failed to fetch")))
  = log (run [Mount page] initial) ++ [ActUnhandledRejection "Failed to fetch"] /\
  animalData (run [Unmount]
                  (step (run [Mount page] initial)
                        (Settle (Rejected "Failed to fetch")))) = [].
Proof.
  destruct (load_failure_leaves_dataset_empty
              [Mount page] "Failed to fetch" [Unmount] eq_refl)
    as (H1 & H2 & _).
  split; [exact H1 | exact H2].
Defined.

(** C2 as stated fails in its first part: the rejection of a failed load
    is not caught.  On the sample page the failure ends up as an
    unhandled rejection. *)
Lemma load_failure_uncaught_counterexample :
  unhandled_rejections
    (log (run [Mount page; Settle (Rejected "Failed to fetch")] initial))
  = ["Failed to fetch"%string] /\
  unhandled_rejections
    (log (run [Mount page; Settle (Rejected "Failed to fetch")] initial))
  <> [].
Proof.
  split; [reflexivity | discriminate].
Qed.

(** ** Edit permission in the species dialog (C9) *)

Lemma isAuthor_spec :
  forall species userId,
    SpeciesDialog.isAuthor species userId = true
    <-> userId = SpeciesDialog.author species.
Proof.
  intros sp u. unfold SpeciesDialog.isAuthor. apply String.eqb_eq.
Qed.

Lemma view_mode_edit_iff :
  forall species userId,
    In SpeciesDialog.EditSpecies (SpeciesDialog.view_mode_buttons species userId)
    <-> userId = SpeciesDialog.author species.
Proof.
  intros sp u. rewrite <- isAuthor_spec. unfold SpeciesDialog.view_mode_buttons.
  destruct (SpeciesDialog.isAuthor sp u); simpl.
  - split; [reflexivity | intros _; left; reflexivity].
  - split; [intros [H | []]; discriminate H | discriminate].
Qed.

Lemma buttons_edit_author :
  forall species userId st,
    In SpeciesDialog.EditSpecies (SpeciesDialog.buttons species userId st) ->
    userId = SpeciesDialog.author species.
Proof.
  intros sp u st. unfold SpeciesDialog.buttons.
  intros [H | H]; [discriminate H |].
  destruct (SpeciesDialog.open st); [| contradiction].
  destruct (SpeciesDialog.isEditing st).
  - simpl in H. intuition discriminate.
  - apply view_mode_edit_iff. exact H.
Qed.

Lemma offered_In :
  forall species userId st b,
    SpeciesDialog.offered species userId st b = true ->
    In b (SpeciesDialog.buttons species userId st).
Proof.
  intros sp u st b H. unfold SpeciesDialog.offered in H.
  apply existsb_exists in H. destruct H as (b' & Hin & Heq).
  assert (b = b') by (destruct b, b'; simpl in Heq; congruence).
  subst. exact Hin.
Qed.

(** Only the author ever gets into editing mode. *)
Lemma editing_only_author :
  forall species userId events st,
    (SpeciesDialog.isEditing st = true -> userId = SpeciesDialog.author species) ->
    SpeciesDialog.isEditing (SpeciesDialog.run species userId events st) = true ->
    userId = SpeciesDialog.author species.
Proof.
  intros sp u events. induction events as [| e rest IH]; intros st Hst H.
  - apply Hst. exact H.
  - simpl in H. apply (IH _) in H; [exact H |]. clear IH H.
    destruct e as [o | b | |]; simpl; try exact Hst; try discriminate.
    destruct (SpeciesDialog.offered sp u st b) eqn:Hoff; [| exact Hst].
    destruct b; simpl; try exact Hst; try discriminate.
    intros _. apply (buttons_edit_author sp u st).
    apply offered_In. exact Hoff.
Qed.

(** C9: the view mode of the dialog shows the Edit Species button if and
    only if the viewing user's id equals the record's author; so does the
    open dialog whenever it is in view mode; no state of the dialog
    shows the button to anyone else, and only the author ever reaches
    the editing mode. *)
Theorem edit_offered_iff_author :
  forall species userId,
    (In SpeciesDialog.EditSpecies
        (SpeciesDialog.view_mode_buttons species userId)
     <-> userId = SpeciesDialog.author species) /\
    (forall st,
       SpeciesDialog.open st = true ->
       SpeciesDialog.isEditing st = false ->
       (In SpeciesDialog.EditSpecies (SpeciesDialog.buttons species userId st)
        <-> userId = SpeciesDialog.author species)) /\
    (forall events,
       let st := SpeciesDialog.run species userId events SpeciesDialog.initial in
       (In SpeciesDialog.EditSpecies (SpeciesDialog.buttons species userId st) ->
        userId = SpeciesDialog.author species) /\
       (SpeciesDialog.isEditing st = true ->
        userId = SpeciesDialog.author species)).
Proof.
  intros sp u. split; [apply view_mode_edit_iff |]. split.
  - intros st Ho He. unfold SpeciesDialog.buttons. rewrite Ho, He.
    rewrite <- view_mode_edit_iff. simpl. split.
    + intros [H | H]; [discriminate H | exact H].
    + intro H. right. exact H.
  - intros events st. split.
    + apply buttons_edit_author.
    + apply editing_only_author. discriminate.
Qed.

(** The author of the lion's record sees the button in the open dialog;
    another user does not. *)
Lemma edit_offered_iff_author_witness :
  In SpeciesDialog.EditSpecies
     (SpeciesDialog.buttons lion "user-1" (SpeciesDialog.mkState true false)) /\
  ~ In SpeciesDialog.EditSpecies
       (SpeciesDialog.buttons lion "user-2" (SpeciesDialog.mkState true false)).
Proof.
  split.
  - exact (proj2 (proj1 (proj2 (edit_offered_iff_author lion "user-1"))
                        (SpeciesDialog.mkState true false) eq_refl eq_refl)
                 eq_refl).
  - intro H.
    assert (E := proj1 (proj1 (proj2 (edit_offered_iff_author lion "user-2"))
                              (SpeciesDialog.mkState true false) eq_refl eq_refl)
                       H).
    discriminate E.
Defined.

(** * Further properties of the chart *)

(** ** Size of the drawing surface *)

(** X1: the [svg] is as wide and as high as the container, but never
    narrower than 600 nor lower than 400; without a container it is
    800 by 500.  The plotting area is what the margins leave: 160 less
    in width, 150 less in height, so at least 440 by 250. *)
Theorem surface_minimum_size :
  forall (animalData : Dataset) graphRef,
    let w := Chart.width graphRef in
    let h := Chart.height graphRef in
    node_attr "width" (Chart.svg animalData graphRef) = Some (VNum (inject_Z w)) /\
    node_attr "height" (Chart.svg animalData graphRef) = Some (VNum (inject_Z h)) /\
    (600 <= w)%Z /\ (400 <= h)%Z /\
    (forall c, graphRef = Some c ->
               (clientWidth c <= w)%Z /\ (clientHeight c <= h)%Z /\
               (600 <= clientWidth c -> w = clientWidth c)%Z /\
               (400 <= clientHeight c -> h = clientHeight c)%Z) /\
    (graphRef = None -> w = 800%Z /\ h = 500%Z) /\
    Chart.innerWidth graphRef = (w - 160)%Z /\
    Chart.innerHeight graphRef = (h - 150)%Z /\
    (440 <= Chart.innerWidth graphRef)%Z /\
    (250 <= Chart.innerHeight graphRef)%Z.
Proof.
  intros ds r w h. unfold w, h, Chart.innerWidth, Chart.innerHeight,
    Chart.width, Chart.height, Chart.margin_left, Chart.margin_right,
    Chart.margin_top, Chart.margin_bottom.
  split; [reflexivity |]. split; [reflexivity |].
  split; [lia |]. split; [lia |]. split.
  - intros c ->. simpl. lia.
  - split; [intros ->; simpl; lia |]. lia.
Qed.

(** A narrow and low container gets the minimum size. *)
Lemma surface_minimum_size_witness :
  (clientWidth (mkContainer 320 200 []) <= Chart.width (Some (mkContainer 320 200 [])))%Z /\
  Chart.width (Some (mkContainer 320 200 [])) = 600%Z.
Proof.
  destruct (surface_minimum_size two_animals (Some (mkContainer 320 200 [])))
    as (_ & _ & _ & _ & H & _).
  destruct (H _ eq_refl) as (H1 & _).
  split; [exact H1 | reflexivity].
Defined.

(** ** The numeric scale and the bars *)

Lemma y_top_end_pos :
  forall (animalData : Dataset) graphRef m,
    D3.max (map speed animalData) = Some m -> 0 < m ->
    m <= snd (D3.l_domain (Chart.y animalData graphRef)).
Proof.
  intros ds r m Hm Hpos. rewrite (y_domain_eq _ _ _ Hm). cbn [D3.l_domain].
  apply nice_from_zero. exact Hpos.
Qed.



(** The position of a non-negative measurement lies within the plot. *)
Lemma y_within_plot :
  forall (animalData : Dataset) graphRef d,
    In d animalData -> 0 <= speed d ->
    0 <= D3.linear_apply (Chart.y animalData graphRef) (speed d) /\
    D3.linear_apply (Chart.y animalData graphRef) (speed d)
    <= inject_Z (Chart.innerHeight graphRef).
Proof.
  intros ds r d Hin Hd.
  split; [| assert (B := bar_height_nonneg ds r d Hin Hd); lra].
  destruct (dataset_max ds d Hin) as [m Hm].
  assert (Hle := speed_le_max ds d m Hin Hm).
  assert (HH := innerHeight_pos r).
  destruct (Qlt_le_dec 0 m) as [Hpos | Hnp].
  - rewrite (y_apply_pos ds r m _ Hm Hpos).
    assert (HD := y_top_end_pos ds r m Hm Hpos).
    set (D := snd (D3.l_domain (Chart.y ds r))) in *.
    assert (HDpos : 0 < D) by lra.
    assert (T : speed d / D <= 1).
    { apply Qle_shift_div_r; [exact HDpos | lra]. }
    assert (P : 0 <= inject_Z (Chart.innerHeight r) * (1 - speed d / D)).
    { apply Qmult_le_0_compat; lra. }
    exact P.
  - assert (Hz : m == 0) by lra.
    rewrite (y_apply_zero ds r m _ Hm Hz).
    apply Qle_shift_div_l; lra.
Qed.

(** X3: the bar of a record with a non-negative measurement stays inside
    the plotting area: its top edge is between the top and the bottom of
    the plot, and top edge plus height is the baseline [innerHeight],
    however large the measurement is. *)
Theorem bar_inside_plot :
  forall (animalData : Dataset) graphRef i d,
    nth_error animalData i = Some d ->
    0 <= speed d ->
    exists b top h,
      nth_error (fst (Chart.bars animalData graphRef)) i = Some b /\
      node_attr "y" b = Some (VNum top) /\
      node_attr "height" b = Some (VNum h) /\
      0 <= top /\ top <= inject_Z (Chart.innerHeight graphRef) /\
      0 <= h /\ h <= inject_Z (Chart.innerHeight graphRef) /\
      top + h == inject_Z (Chart.innerHeight graphRef).
Proof.
  intros ds r i d Hnth Hd.
  destruct (bars_nth ds r i d Hnth) as [fill Hb].
  assert (Hin := nth_error_In _ _ Hnth).
  destruct (y_within_plot ds r d Hin Hd) as [H0 H1].
  exists (Chart.bar ds r d fill). eexists. eexists.
  split; [exact Hb |].
  split; [apply bar_y_attr |].
  split; [apply bar_height_attr |].
  repeat split; lra.
Qed.

(** The cheetah's bar reaches the top of the plot and no further. *)
Lemma bar_inside_plot_witness :
  exists b top h,
    nth_error (fst (Chart.bars two_animals (Some page))) 0 = Some b /\
    node_attr "y" b = Some (VNum top) /\
    node_attr "height" b = Some (VNum h) /\
    0 <= top /\ top + h == inject_Z (Chart.innerHeight (Some page)).
Proof.
  assert (Hd : 0 <= speed cheetah) by (intro H; discriminate H).
  destruct (bar_inside_plot two_animals (Some page) 0%nat cheetah eq_refl Hd)
    as (b & top & h & H1 & H2 & H3 & H4 & _ & _ & _ & H8).
  exists b, top, h. repeat split; assumption.
Defined.

(** ** Bars and labels along the horizontal axis *)

Lemma bar_x_attr :
  forall animalData graphRef d fill,
    node_attr "x" (Chart.bar animalData graphRef d fill)
    = option_map VNum (D3.band_apply (Chart.x animalData graphRef) (name d)).
Proof.
  intros ds r d f. unfold Chart.bar, node_attr.
  destruct (D3.band_apply (Chart.x ds r) (name d)); destruct f; reflexivity.
Qed.

Lemma bar_width_attr :
  forall animalData graphRef d fill,
    node_attr "width" (Chart.bar animalData graphRef d fill)
    = Some (VNum (D3.bandwidth (Chart.x animalData graphRef))).
Proof.
  intros ds r d f. unfold Chart.bar, node_attr.
  destruct (D3.band_apply (Chart.x ds r) (name d)); reflexivity.
Qed.

(** X4: bars have a positive width, and the bars of records with
    distinct names do not overlap: a later record's bar starts to the
    right of where an earlier record's bar ends. *)
Theorem bars_do_not_overlap :
  forall (animalData : Dataset) graphRef i j di dj,
    NoDup (map name animalData) ->
    (i < j)%nat ->
    nth_error animalData i = Some di ->
    nth_error animalData j = Some dj ->
    exists bi bj xi xj w,
      nth_error (fst (Chart.bars animalData graphRef)) i = Some bi /\
      nth_error (fst (Chart.bars animalData graphRef)) j = Some bj /\
      node_attr "x" bi = Some (VNum xi) /\
      node_attr "x" bj = Some (VNum xj) /\
      node_attr "width" bi = Some (VNum w) /\
      node_attr "width" bj = Some (VNum w) /\
      0 < w /\ xi + w < xj.
Proof.
  intros ds r i j di dj Hnd Hij Hi Hj.
  assert (Hne : ds <> []) by (destruct ds; [destruct i |]; discriminate).
  destruct (bars_nth ds r i di Hi) as [fi Hbi].
  destruct (bars_nth ds r j dj Hj) as [fj Hbj].
  assert (Ii : D3.index_of (name di) (D3.b_domain (Chart.x ds r)) = Some i).
  { rewrite (x_domain_NoDup _ _ Hnd). apply index_of_nth_NoDup; [exact Hnd |].
    apply map_nth_error. exact Hi. }
  assert (Ij : D3.index_of (name dj) (D3.b_domain (Chart.x ds r)) = Some j).
  { rewrite (x_domain_NoDup _ _ Hnd). apply index_of_nth_NoDup; [exact Hnd |].
    apply map_nth_error. exact Hj. }
  destruct (x_layout ds r Hne) as (Hpos & _ & _ & Hbw).
  exists (Chart.bar ds r di fi), (Chart.bar ds r dj fj).
  eexists. eexists. eexists.
  split; [exact Hbi |]. split; [exact Hbj |].
  split; [rewrite bar_x_attr, (x_apply_index ds r _ _ Ii); reflexivity |].
  split; [rewrite bar_x_attr, (x_apply_index ds r _ _ Ij); reflexivity |].
  split; [apply bar_width_attr |]. split; [apply bar_width_attr |].
  split; [lra |].
  assert (Hle : inject_Z (Z.of_nat i) + 1 <= inject_Z (Z.of_nat j)).
  { change 1 with (inject_Z 1). rewrite <- inject_Z_plus, <- Zle_Qle. lia. }
  assert (M : D3.band_step (Chart.x ds r) * (inject_Z (Z.of_nat i) + 1)
              <= D3.band_step (Chart.x ds r) * inject_Z (Z.of_nat j)).
  { apply Qmult_le_l; assumption. }
  lra.
Qed.

(** The two bars of the spec's example. *)
Lemma bars_do_not_overlap_witness :
  exists bi bj xi xj w,
    nth_error (fst (Chart.bars two_animals (Some page))) 0 = Some bi /\
    nth_error (fst (Chart.bars two_animals (Some page))) 1 = Some bj /\
    node_attr "x" bi = Some (VNum xi) /\
    node_attr "x" bj = Some (VNum xj) /\
    node_attr "width" bi = Some (VNum w) /\
    xi + w < xj.
Proof.
  assert (Hnd : NoDup (map name two_animals)).
  { simpl. repeat constructor; simpl; intuition discriminate. }
  destruct (bars_do_not_overlap two_animals (Some page) 0%nat 1%nat
              cheetah elephant Hnd (Nat.lt_0_succ 0) eq_refl eq_refl)
    as (bi & bj & xi & xj & w & H1 & H2 & H3 & H4 & H5 & _ & _ & H8).
  exists bi, bj, xi, xj, w. repeat split; assumption.
Defined.

(** X5: the layout of the bands for [n] distinct names in a plot of
    width [W]: the step from one band to the next is [W / (n + 0.2)],
    a band takes 0.8 of the step and the gap 0.2, and the margin left of
    the first band equals the margin right of the last one, 0.2 of the
    step each. *)
Theorem band_layout_closed_form :
  forall (animalData : Dataset) graphRef,
    animalData <> [] ->
    let xs := Chart.x animalData graphRef in
    let W := inject_Z (Chart.innerWidth graphRef) in
    let n := inject_Z (Z.of_nat (length (D3.intern (map name animalData)))) in
    1 <= n /\
    D3.band_step xs == W / (n + (2 # 10)) /\
    D3.bandwidth xs == (8 # 10) * D3.band_step xs /\
    0 < D3.bandwidth xs /\
    D3.band_start xs == (2 # 10) * D3.band_step xs /\
    W - (D3.band_start xs + D3.band_step xs * (n - 1) + D3.bandwidth xs)
    == (2 # 10) * D3.band_step xs.
Proof.
  intros ds r Hne xs W n.
  destruct (x_layout ds r Hne) as (Hpos & Hprod & Hstart & Hbw).
  assert (Hn := x_band_n ds r Hne).
  change (D3.band_n (Chart.x ds r)) with n in Hprod, Hn.
  fold xs in Hpos, Hprod, Hstart, Hbw. fold W in Hprod.
  split; [exact Hn |]. split.
  - rewrite <- Hprod. field. lra.
  - split; [exact Hbw |]. split; [lra |]. split; [exact Hstart |].
    rewrite Hstart, Hbw. lra.
Qed.

(** Two names on the sample page: the step is 840 / 2.2. *)
Lemma band_layout_closed_form_witness :
  D3.band_step (Chart.x two_animals (Some page)) == 840 / (2 + (2 # 10)).
Proof.
  assert (Hne : two_animals <> []) by discriminate.
  exact (proj1 (proj2 (band_layout_closed_form two_animals (Some page) Hne))).
Defined.

Lemma bars_with_length :
  forall animalData graphRef l fills,
    length fills = length l ->
    length (Chart.bars_with animalData graphRef l fills) = length l.
Proof.
  intros ds r l. induction l as [| e rest IH]; intros fills L;
    destruct fills as [| f fills']; simpl in *; try discriminate;
    [reflexivity |].
  f_equal. apply IH. lia.
Qed.

Lemma bar_labels_nth :
  forall (animalData : Dataset) graphRef i d,
    nth_error animalData i = Some d ->
    nth_error (bar_labels animalData graphRef) i
    = Some (Chart.bar_label animalData graphRef d).
Proof.
  intros ds r i d H. unfold bar_labels. apply map_nth_error. exact H.
Qed.

(** X6: every record has one label, written over the middle of its
    bar: the label's horizontal position is the bar's left edge plus half
    the bar's width, its vertical position is 6 above the bar's top edge,
    and its text is the record's measurement. *)
Theorem label_centred_over_bar :
  forall (animalData : Dataset) graphRef i d,
    nth_error animalData i = Some d ->
    exists b l bx w top,
      nth_error (fst (Chart.bars animalData graphRef)) i = Some b /\
      nth_error (bar_labels animalData graphRef) i = Some l /\
      node_attr "x" b = Some (VNum bx) /\
      node_attr "width" b = Some (VNum w) /\
      node_attr "y" b = Some (VNum top) /\
      node_attr "x" l = Some (VNum (bx + w / 2)) /\
      node_attr "y" l = Some (VNum (top - 6)) /\
      node_text l = Some (TNum (speed d)) /\
      length (bar_labels animalData graphRef) = length animalData /\
      length (fst (Chart.bars animalData graphRef)) = length animalData.
Proof.
  intros ds r i d Hnth.
  destruct (bars_nth ds r i d Hnth) as [fill Hb].
  assert (Hin := nth_error_In _ _ Hnth).
  destruct (x_position_within ds r d Hin) as (p & Hp & _).
  exists (Chart.bar ds r d fill), (Chart.bar_label ds r d).
  eexists. eexists. eexists.
  split; [exact Hb |]. split; [apply bar_labels_nth; exact Hnth |].
  split; [rewrite bar_x_attr, Hp; reflexivity |].
  split; [apply bar_width_attr |]. split; [apply bar_y_attr |].
  split; [unfold Chart.bar_label, node_attr; simpl; rewrite Hp; reflexivity |].
  split; [reflexivity |]. split; [reflexivity |].
  split; [unfold bar_labels; apply length_map |].
  unfold Chart.bars.
  assert (L := ordinal_map_length _ (map diet ds) Chart.color).
  destruct (D3.ordinal_map Chart.color (map diet ds)) as [fills c1].
  cbn [fst] in *. rewrite length_map in L.
  apply bars_with_length. exact L.
Qed.

(** The elephant's label in the spec's example. *)
Lemma label_centred_over_bar_witness :
  exists l, nth_error (bar_labels two_animals (Some page)) 1 = Some l /\
            node_text l = Some (TNum 40).
Proof.
  destruct (label_centred_over_bar two_animals (Some page) 1%nat elephant eq_refl)
    as (b & l & bx & w & top & _ & H2 & _ & _ & _ & _ & _ & H8 & _).
  exists l. split; [exact H2 | exact H8].
Defined.

(** ** The colours of the bars *)

Section OrdinalFacts.

Context {A : Type}.

Lemma ordinal_apply_known :
  forall (s : D3.Ordinal A) d i,
    D3.index_of d (D3.o_domain s) = Some i ->
    D3.ordinal_apply s d
    = (nth_error (D3.o_range s) (i mod length (D3.o_range s)), s).
Proof.
  intros s d i H. unfold D3.ordinal_apply. rewrite H. reflexivity.
Qed.

(** A call keeps the range and the unknown value, and extends the domain
    at its end, if at all. *)
Lemma ordinal_apply_keeps :
  forall (s : D3.Ordinal A) d,
    D3.o_range (snd (D3.ordinal_apply s d)) = D3.o_range s /\
    D3.o_unknown (snd (D3.ordinal_apply s d)) = D3.o_unknown s /\
    exists extra,
      D3.o_domain (snd (D3.ordinal_apply s d)) = D3.o_domain s ++ extra.
Proof.
  intros s d. unfold D3.ordinal_apply.
  destruct (D3.index_of d (D3.o_domain s)).
  - split; [reflexivity |]. split; [reflexivity |].
    exists []. symmetry. apply app_nil_r.
  - destruct (D3.o_unknown s) eqn:U; simpl.
    + split; [reflexivity |]. split; [exact U |].
      exists []. symmetry. apply app_nil_r.
    + split; [reflexivity |]. split; [reflexivity |].
      exists [d]. reflexivity.
Qed.

Lemma ordinal_map_keeps :
  forall keys (s : D3.Ordinal A),
    D3.o_range (snd (D3.ordinal_map s keys)) = D3.o_range s /\
    D3.o_unknown (snd (D3.ordinal_map s keys)) = D3.o_unknown s /\
    exists extra,
      D3.o_domain (snd (D3.ordinal_map s keys)) = D3.o_domain s ++ extra.
Proof.
  induction keys as [| k rest IH]; intro s; simpl.
  - split; [reflexivity |]. split; [reflexivity |].
    exists []. symmetry. apply app_nil_r.
  - destruct (ordinal_apply_keeps s k) as (R1 & U1 & e1 & D1).
    destruct (D3.ordinal_apply s k) as [v s1]. simpl in R1, U1, D1.
    destruct (IH s1) as (R2 & U2 & e2 & D2).
    destruct (D3.ordinal_map s1 rest) as [vs s2]. simpl in *.
    split; [congruence |]. split; [congruence |].
    exists (e1 ++ e2). rewrite D2, D1, app_assoc. reflexivity.
Qed.

(** Under the implicit unknown a key is in the domain after it was asked
    for, at the index its answer was taken from. *)
Lemma ordinal_apply_indexed :
  forall (s : D3.Ordinal A) d,
    D3.o_unknown s = None ->
    exists i,
      D3.index_of d (D3.o_domain (snd (D3.ordinal_apply s d))) = Some i /\
      fst (D3.ordinal_apply s d)
      = nth_error (D3.o_range s) (i mod length (D3.o_range s)).
Proof.
  intros s d U. unfold D3.ordinal_apply.
  destruct (D3.index_of d (D3.o_domain s)) as [i |] eqn:E.
  - exists i. split; [exact E | reflexivity].
  - rewrite U. simpl. exists (length (D3.o_domain s)). split; [| reflexivity].
    rewrite (index_of_app_r _ _ _ E). simpl. rewrite String.eqb_refl.
    simpl. rewrite Nat.add_0_r. reflexivity.
Qed.

(** The answers a sequence of calls gives are the answers of the scale
    as the calls leave it. *)
Lemma ordinal_map_final :
  forall keys (s : D3.Ordinal A) i k,
    D3.o_unknown s = None ->
    nth_error keys i = Some k ->
    nth_error (fst (D3.ordinal_map s keys)) i
    = Some (fst (D3.ordinal_apply (snd (D3.ordinal_map s keys)) k)).
Proof.
  induction keys as [| k0 rest IH]; intros s i k U Hnth.
  - destruct i; discriminate.
  - simpl.
    destruct (ordinal_apply_indexed s k0 U) as (idx & Hidx & Hv).
    destruct (ordinal_apply_keeps s k0) as (R1 & U1 & _).
    destruct (D3.ordinal_apply s k0) as [v s1]. simpl in Hidx, Hv, R1, U1.
    assert (U1' : D3.o_unknown s1 = None) by congruence.
    specialize (IH s1).
    destruct (ordinal_map_keeps rest s1) as (R2 & _ & e2 & D2).
    destruct (D3.ordinal_map s1 rest) as [vs s2]. simpl in *.
    destruct i as [| i']; simpl in *.
    + inversion Hnth; subst k0. f_equal.
      rewrite (ordinal_apply_known s2 k idx).
      * simpl. rewrite Hv. congruence.
      * rewrite D2. apply index_of_app_l. exact Hidx.
    + apply IH; assumption.
Qed.

(** The answer at position [i] is the answer of the scale as the calls
    before position [i] leave it. *)
Lemma ordinal_map_nth :
  forall keys (s : D3.Ordinal A) i k,
    nth_error keys i = Some k ->
    nth_error (fst (D3.ordinal_map s keys)) i
    = Some (fst (D3.ordinal_apply (snd (D3.ordinal_map s (firstn i keys))) k)).
Proof.
  induction keys as [| k0 rest IH]; intros s i k Hnth.
  - destruct i; discriminate.
  - destruct i as [| i']; simpl in *.
    + inversion Hnth; subst. destruct (D3.ordinal_apply s k) as [v s1].
      destruct (D3.ordinal_map s1 rest). reflexivity.
    + destruct (D3.ordinal_apply s k0) as [v s1].
      specialize (IH s1 i' k Hnth).
      destruct (D3.ordinal_map s1 rest) as [vs s2].
      destruct (D3.ordinal_map s1 (firstn i' rest)) as [vs' s2'].
      simpl in *. exact IH.
Qed.

(** Calls for keys of the domain leave the scale as it is. *)
Lemma ordinal_map_known :
  forall keys (s : D3.Ordinal A),
    (forall k, In k keys -> In k (D3.o_domain s)) ->
    snd (D3.ordinal_map s keys) = s.
Proof.
  induction keys as [| k0 rest IH]; intros s H; simpl; [reflexivity |].
  destruct (index_of_In k0 (D3.o_domain s) (H k0 (or_introl eq_refl))) as [i Hi].
  rewrite (ordinal_apply_known s k0 i Hi).
  specialize (IH s (fun k Hk => H k (or_intror Hk))).
  destruct (D3.ordinal_map s rest) as [vs s2]. exact IH.
Qed.

End OrdinalFacts.

Lemma bar_fill_attr :
  forall animalData graphRef d fill,
    node_attr "fill" (Chart.bar animalData graphRef d fill)
    = option_map VStr fill.
Proof.
  intros ds r d f. unfold Chart.bar, node_attr.
  destruct (D3.band_apply (Chart.x ds r) (name d)); destruct f; reflexivity.
Qed.

(** The bar of the [i]-th record, with the fill it gets. *)
Lemma bars_nth_fill :
  forall (animalData : Dataset) graphRef i d,
    nth_error animalData i = Some d ->
    exists fill,
      nth_error (fst (D3.ordinal_map Chart.color (map diet animalData))) i
      = Some fill /\
      nth_error (fst (Chart.bars animalData graphRef)) i
      = Some (Chart.bar animalData graphRef d fill).
Proof.
  intros ds r i d H. unfold Chart.bars.
  assert (L := ordinal_map_length _ (map diet ds) Chart.color).
  destruct (D3.ordinal_map Chart.color (map diet ds)) as [fills c1].
  simpl in *. rewrite length_map in L.
  apply (bars_with_nth ds r ds fills i d L H).
Qed.

(** X7: a record whose diet is one of the three of the enumeration gets
    a bar in that diet's fixed colour, the colour of its legend entry,
    wherever the record stands in the dataset and whatever diets, known
    or not, the records before it carry. *)
Theorem bar_colour_of_known_diet :
  forall (animalData : Dataset) graphRef i d,
    nth_error animalData i = Some d ->
    exists b,
      nth_error (fst (Chart.bars animalData graphRef)) i = Some b /\
      (diet d = Herbivore -> node_attr "fill" b = Some (VStr "#5AA469")) /\
      (diet d = Carnivore -> node_attr "fill" b = Some (VStr "#C75C5C")) /\
      (diet d = Omnivore -> node_attr "fill" b = Some (VStr "#4D96FF")).
Proof.
  intros ds r i d Hnth.
  destruct (bars_nth_fill ds r i d Hnth) as (fill & Hf & Hb).
  exists (Chart.bar ds r d fill). split; [exact Hb |].
  rewrite bar_fill_attr.
  rewrite (ordinal_map_nth (map diet ds) Chart.color i (diet d)) in Hf
    by (apply map_nth_error; exact Hnth).
  inversion Hf as [Hfill]. clear Hf.
  assert (Hs : color_state
                 (snd (D3.ordinal_map Chart.color (firstn i (map diet ds)))))
    by (apply color_state_map, color_state_initial).
  split; [| split]; intro Hd; rewrite Hd.
  - rewrite (color_apply_diet _ Herbivore 0 Hs eq_refl). reflexivity.
  - rewrite (color_apply_diet _ Carnivore 1 Hs eq_refl). reflexivity.
  - rewrite (color_apply_diet _ Omnivore 2 Hs eq_refl). reflexivity.
Qed.

(** The bear, an omnivore standing after two records of unknown diet. *)
Lemma bar_colour_of_known_diet_witness :
  exists b,
    nth_error (fst (Chart.bars mixed_diets (Some page))) 4 = Some b /\
    node_attr "fill" b = Some (VStr "#4D96FF").
Proof.
  destruct (bar_colour_of_known_diet mixed_diets (Some page) 4%nat
              (mkDatum "Bear" 56 Omnivore) eq_refl)
    as (b & H1 & _ & _ & H4).
  exists b. split; [exact H1 | exact (H4 eq_refl)].
Defined.

(** X8: every bar gets a fill, one of the three colours, also for a diet
    outside the enumeration; and two records with the same diet get the
    same colour. *)
Theorem bar_colour_consistent :
  forall (animalData : Dataset) graphRef i j di dj,
    nth_error animalData i = Some di ->
    nth_error animalData j = Some dj ->
    exists bi bj ci cj,
      nth_error (fst (Chart.bars animalData graphRef)) i = Some bi /\
      nth_error (fst (Chart.bars animalData graphRef)) j = Some bj /\
      node_attr "fill" bi = Some (VStr ci) /\
      node_attr "fill" bj = Some (VStr cj) /\
      In ci ["#5AA469"; "#C75C5C"; "#4D96FF"]%string /\
      In cj ["#5AA469"; "#C75C5C"; "#4D96FF"]%string /\
      (diet di = diet dj -> ci = cj).
Proof.
  intros ds r i j di dj Hi Hj.
  destruct (bars_nth_fill ds r i di Hi) as (fi & Hfi & Hbi).
  destruct (bars_nth_fill ds r j dj Hj) as (fj & Hfj & Hbj).
  rewrite (ordinal_map_final (map diet ds) Chart.color i (diet di) eq_refl)
    in Hfi by (apply map_nth_error; exact Hi).
  rewrite (ordinal_map_final (map diet ds) Chart.color j (diet dj) eq_refl)
    in Hfj by (apply map_nth_error; exact Hj).
  inversion Hfi as [Ei]. inversion Hfj as [Ej]. clear Hfi Hfj.
  assert (Hs : color_state (snd (D3.ordinal_map Chart.color (map diet ds))))
    by (apply color_state_map, color_state_initial).
  destruct (color_apply_defined _ (diet di) Hs) as (ci & Hci & Hini).
  destruct (color_apply_defined _ (diet dj) Hs) as (cj & Hcj & Hinj).
  exists (Chart.bar ds r di fi), (Chart.bar ds r dj fj), ci, cj.
  split; [exact Hbi |]. split; [exact Hbj |].
  split; [rewrite bar_fill_attr, <- Ei, Hci; reflexivity |].
  split; [rewrite bar_fill_attr, <- Ej, Hcj; reflexivity |].
  split; [exact Hini |]. split; [exact Hinj |].
  intro Hd. rewrite Hd in Hci. congruence.
Qed.

(** The two records of unknown diet in the sample share a colour. *)
Lemma bar_colour_consistent_witness :
  exists bi bj c,
    nth_error (fst (Chart.bars mixed_diets (Some page))) 1 = Some bi /\
    nth_error (fst (Chart.bars mixed_diets (Some page))) 3 = Some bj /\
    node_attr "fill" bi = Some (VStr c) /\
    node_attr "fill" bj = Some (VStr c).
Proof.
  destruct (bar_colour_consistent mixed_diets (Some page) 1%nat 3%nat
              (mkDatum "Axolotl" 15 "Unknown") (mkDatum "Olm" 1 "Unknown")
              eq_refl eq_refl)
    as (bi & bj & ci & cj & H1 & H2 & H3 & H4 & _ & _ & H7).
  exists bi, bj, ci. rewrite (H7 eq_refl) in *.
  repeat split; assumption.
Defined.

(** X9: the first diet outside the enumeration that occurs in a dataset
    is drawn in the first colour of the range, the colour of the
    herbivores: such a record cannot be told from a herbivore by its
    bar. *)
Theorem first_unknown_diet_looks_herbivore :
  forall (animalData : Dataset) graphRef i d,
    nth_error animalData i = Some d ->
    ~ In (diet d) [Herbivore; Carnivore; Omnivore] ->
    (forall j dj, (j < i)%nat -> nth_error animalData j = Some dj ->
                  In (diet dj) [Herbivore; Carnivore; Omnivore]) ->
    exists b,
      nth_error (fst (Chart.bars animalData graphRef)) i = Some b /\
      node_attr "fill" b = Some (VStr "#5AA469").
Proof.
  intros ds r i d Hnth Hunk Hbefore.
  destruct (bars_nth_fill ds r i d Hnth) as (fill & Hf & Hb).
  exists (Chart.bar ds r d fill). split; [exact Hb |].
  rewrite bar_fill_attr.
  rewrite (ordinal_map_nth (map diet ds) Chart.color i (diet d)) in Hf
    by (apply map_nth_error; exact Hnth).
  inversion Hf as [Hfill]. clear Hf.
  rewrite (ordinal_map_known (firstn i (map diet ds)) Chart.color).
  - unfold D3.ordinal_apply.
    change (D3.o_domain Chart.color) with [Herbivore; Carnivore; Omnivore].
    rewrite (index_of_None _ _ Hunk). reflexivity.
  - intros k Hk. apply In_nth_error in Hk. destruct Hk as [j Hj].
    assert (Hlt : (j < i)%nat).
    { assert (L : (j < length (firstn i (map diet ds)))%nat)
        by (apply nth_error_Some; rewrite Hj; discriminate).
      rewrite length_firstn in L. lia. }
    rewrite nth_error_firstn in Hj.
    destruct (Nat.ltb_spec j i) as [_ | Hge]; [| lia].
    rewrite nth_error_map in Hj.
    destruct (nth_error ds j) as [dj |] eqn:Edj; [| discriminate].
    inversion Hj; subst k. exact (Hbefore j dj Hlt Edj).
Qed.

(** The axolotl, the first record of unknown diet in the sample. *)
Lemma first_unknown_diet_looks_herbivore_witness :
  exists b,
    nth_error (fst (Chart.bars mixed_diets (Some page))) 1 = Some b /\
    node_attr "fill" b = Some (VStr "#5AA469").
Proof.
  apply (first_unknown_diet_looks_herbivore mixed_diets (Some page) 1%nat
           (mkDatum "Axolotl" 15 "Unknown") eq_refl).
  - simpl. intuition discriminate.
  - intros j dj Hj Hnth. destruct j as [| j']; [| lia].
    inversion Hnth; subst. simpl. tauto.
Defined.

(** ** What a render pass draws *)

Lemma bars_length :
  forall (animalData : Dataset) graphRef,
    length (fst (Chart.bars animalData graphRef)) = length animalData.
Proof.
  intros ds r. unfold Chart.bars.
  assert (L := ordinal_map_length _ (map diet ds) Chart.color).
  destruct (D3.ordinal_map Chart.color (map diet ds)) as [fills c1].
  cbn [fst] in *. rewrite length_map in L.
  apply bars_with_length. exact L.
Qed.

(** X10: for a dataset of [n >= 1] records a render pass leaves exactly
    one [svg] in the container, holding the plotting group and the
    title; the plotting group holds the two axes, the two axis titles,
    [n] bars, [n] labels and the legend, [2 n + 5] elements in all.
    Without a container ([graphRef.current] is [null]) nothing is drawn
    and nothing fails. *)
Theorem render_composition :
  forall (animalData : Dataset) (c : Container),
    animalData <> [] ->
    (exists svg_attrs g chart_title,
       Chart.surface (Chart.render animalData (Some c))
       = Some (mkContainer (clientWidth c) (clientHeight c)
                 [Elem "svg" svg_attrs None [g; chart_title]]) /\
       node_children g
       = [Chart.x_axis_group animalData (Some (Chart.clear c));
          Chart.y_axis_group animalData (Some (Chart.clear c));
          Chart.x_title (Some (Chart.clear c));
          Chart.y_title (Some (Chart.clear c))]
         ++ fst (Chart.bars animalData (Some (Chart.clear c)))
         ++ bar_labels animalData (Some (Chart.clear c))
         ++ [Chart.legend (Some (Chart.clear c))
               (snd (Chart.bars animalData (Some (Chart.clear c))))] /\
       length (node_children g) = (2 * length animalData + 5)%nat /\
       node_text chart_title = Some (TStr "Animal Speeds by Diet")) /\
    Chart.surface (Chart.render animalData None) = None.
Proof.
  intros ds c Hne. split; [| unfold Chart.render;
                             destruct (length ds =? 0)%nat; reflexivity].
  unfold Chart.render.
  destruct ds as [| d rest]; [contradiction Hne; reflexivity |].
  cbn [length Nat.eqb option_map Chart.surface].
  unfold Chart.append_svg.
  change (children (Chart.clear c)) with (@nil Node). rewrite app_nil_l.
  unfold Chart.svg, Chart.plot_group.
  assert (L := bars_length (d :: rest) (Some (Chart.clear c))).
  destruct (Chart.bars (d :: rest) (Some (Chart.clear c))) as [rects c1].
  cbn [fst snd] in *.
  eexists. eexists. eexists.
  split; [reflexivity |]. split; [reflexivity |]. split; [| reflexivity].
  cbn [node_children]. rewrite !length_app, L.
  fold (bar_labels (d :: rest) (Some (Chart.clear c))).
  unfold bar_labels. rewrite length_map. simpl. lia.
Qed.

(** The spec's example: two records, nine elements in the plot. *)
Lemma render_composition_witness :
  exists svg_attrs g chart_title,
    Chart.surface (Chart.render two_animals (Some page))
    = Some (mkContainer 1000 500 [Elem "svg" svg_attrs None [g; chart_title]]) /\
    length (node_children g) = 9%nat.
Proof.
  assert (Hne : two_animals <> []) by discriminate.
  destruct (proj1 (render_composition two_animals page Hne))
    as (a & g & t & H1 & _ & H3 & _).
  exists a, g, t. split; [exact H1 | exact H3].
Defined.

(** * Further properties of the component *)

Lemma fetch_calls_app :
  forall l l', fetch_calls (l ++ l') = (fetch_calls l + fetch_calls l')%nat.
Proof.
  induction l as [| a rest IH]; intro l'; [reflexivity |].
  destruct a; simpl; rewrite IH; reflexivity.
Qed.

Lemma console_logs_app :
  forall l l', console_logs (l ++ l') = (console_logs l + console_logs l')%nat.
Proof.
  induction l as [| a rest IH]; intro l'; [reflexivity |].
  destruct a; simpl; rewrite IH; reflexivity.
Qed.

Lemma last_set_app :
  forall l l',
    last_set (l ++ l')
    = match last_set l' with
      | Some rows => Some rows
      | None => last_set l
      end.
Proof.
  induction l as [| a rest IH]; intro l'; simpl.
  - destruct (last_set l'); reflexivity.
  - rewrite IH. destruct (last_set l'); [reflexivity |].
    destruct (last_set rest); reflexivity.
Qed.

Lemma last_set_none :
  forall l, setter_calls l = 0%nat -> last_set l = None.
Proof.
  induction l as [| a rest IH]; intro H; [reflexivity |].
  destruct a; simpl in *; try discriminate; rewrite (IH H); reflexivity.
Qed.

Lemma component_invariant_initial : component_invariant initial.
Proof.
  constructor; simpl; try discriminate; try (intros; split; reflexivity);
    try (split; lia); try reflexivity.
  intro H. exfalso. apply H. reflexivity.
Qed.

Lemma render_surface_some :
  forall animalData graphRef,
    graphRef <> None ->
    Chart.surface (Chart.render animalData graphRef) <> None.
Proof.
  intros ds [c |] H; [| contradiction H; reflexivity].
  unfold Chart.render. destruct (length ds =? 0)%nat; discriminate.
Qed.

Ltac log_counts :=
  rewrite ?fetch_calls_app, ?setter_calls_app, ?console_logs_app,
          ?last_set_app; simpl.

Lemma component_invariant_step :
  forall st e, component_invariant st -> component_invariant (step st e).
Proof.
  intros st e H. destruct e as [c | o |]; unfold step.
  - (* Mount *)
    destruct (phase st) eqn:Hp; try exact H.
    destruct H as [Hnm _ _ _ _ _ Hdata].
    destruct (Hnm Hp) as [Hf Hl]. rewrite Hl in *.
    constructor; cbn [phase fetch log cancelled graphRef animalData];
      try discriminate.
    + intros _. split; [reflexivity |].
      apply render_surface_some. discriminate.
    + intros _. split; [reflexivity | discriminate].
    + intros _. split; reflexivity.
    + split; simpl; lia.
    + exact Hdata.
  - (* Settle *)
    destruct (fetch st) eqn:Hf; try exact H.
    destruct H as [Hnm Hm Hu Hfe Hpe Hon Hdata].
    assert (Hph : phase st <> NotMounted).
    { intro Hp. destruct (Hnm Hp) as [E _]. congruence. }
    destruct (Hfe Hph) as [Hfc _].
    destruct Hpe as [Hsc Hcl]; [rewrite Hf; discriminate |].
    assert (Hls := last_set_none _ Hsc).
    destruct o as [rows | reason]; unfold settle, then_, on_rows, record;
      cbn [cancelled log phase animalData graphRef fetch].
    + destruct (cancelled st) eqn:Hcan; cbn [negb];
        unfold setAnimalData;
        cbn [cancelled log phase animalData graphRef fetch].
      * constructor; cbn [phase fetch log cancelled graphRef animalData].
        -- intro Hp. exfalso. exact (Hph Hp).
        -- intro Hp. destruct (Hm Hp) as [E _]. congruence.
        -- exact Hu.
        -- intros _. log_counts. split; [lia | discriminate].
        -- intro Hne. exfalso. apply Hne. reflexivity.
        -- log_counts. split; lia.
        -- log_counts. rewrite <- Hdata. reflexivity.
      * constructor; cbn [phase fetch log cancelled graphRef animalData].
        -- intro Hp. exfalso. exact (Hph Hp).
        -- intro Hp. destruct (Hm Hp) as [_ Hg].
           split; [reflexivity | apply render_surface_some; exact Hg].
        -- intro Hp. destruct (Hu Hp) as [E _]. congruence.
        -- intros _. log_counts. split; [lia | discriminate].
        -- intro Hne. exfalso. apply Hne. reflexivity.
        -- log_counts. split; lia.
        -- log_counts. reflexivity.
    + constructor; cbn [phase fetch log cancelled graphRef animalData].
      * intro Hp. exfalso. exact (Hph Hp).
      * exact Hm.
      * exact Hu.
      * intros _. log_counts. split; [lia | discriminate].
      * intro Hne. exfalso. apply Hne. reflexivity.
      * log_counts. split; lia.
      * log_counts. rewrite <- Hdata. reflexivity.
  - (* Unmount *)
    destruct (phase st) eqn:Hp; try exact H.
    destruct H as [Hnm Hm Hu Hfe Hpe Hon Hdata].
    assert (Hph : phase st <> NotMounted) by (rewrite Hp; discriminate).
    destruct (Hfe Hph) as [Hfc Hns].
    constructor; cbn [phase fetch log cancelled graphRef animalData];
      try discriminate.
    + intros _. split; reflexivity.
    + intros _. log_counts. split; [lia | exact Hns].
    + intro Hne. destruct (Hpe Hne) as [Hsc Hcl]. log_counts. split; lia.
    + log_counts. split; lia.
    + log_counts. rewrite <- Hdata. reflexivity.
Qed.

Lemma component_invariant_run :
  forall events st, component_invariant st -> component_invariant (run events st).
Proof.
  induction events as [| e rest IH]; intros st H; [exact H |].
  simpl. apply IH. apply component_invariant_step. exact H.
Qed.

Lemma component_invariant_reachable :
  forall events, component_invariant (run events initial).
Proof.
  intro events. apply component_invariant_run, component_invariant_initial.
Qed.

(** X11: the component fetches the CSV exactly once per mount: no run
    records more than one fetch, a component that was mounted has fetched
    once (also after it is unmounted, and after its fetch has settled),
    and one that was never mounted has not fetched. *)
Theorem one_fetch_per_mount :
  forall events,
    let st := run events initial in
    (fetch_calls (log st) <= 1)%nat /\
    (phase st <> NotMounted -> fetch_calls (log st) = 1%nat) /\
    (phase st = NotMounted -> fetch_calls (log st) = 0%nat).
Proof.
  intros events st.
  destruct (component_invariant_reachable events) as [Hnm _ _ Hfe _ _ _].
  fold st in Hnm, Hfe.
  assert (Hcases : phase st = NotMounted \/ phase st <> NotMounted).
  { destruct (phase st); [left; reflexivity | right; discriminate
                          | right; discriminate]. }
  split; [| split].
  - destruct Hcases as [Hp | Hp].
    + destruct (Hnm Hp) as [_ Hl]. rewrite Hl. simpl. lia.
    + destruct (Hfe Hp) as [E _]. lia.
  - intro Hp. apply (Hfe Hp).
  - intro Hp. destruct (Hnm Hp) as [_ Hl]. rewrite Hl. reflexivity.
Qed.

(** Mounted, loaded, unmounted, and events that cannot happen in between:
    one fetch. *)
Lemma one_fetch_per_mount_witness :
  fetch_calls
    (log (run [Mount page; Mount page; Settle (Fulfilled two_animals);
               Unmount; Mount page] initial)) = 1%nat.
Proof.
  apply (proj1 (proj2 (one_fetch_per_mount
                         [Mount page; Mount page; Settle (Fulfilled two_animals);
                          Unmount; Mount page]))).
  discriminate.
Defined.

Lemma last_set_absent :
  forall l rows, last_set l = None -> ~ In (ActSetAnimalData rows) l.
Proof.
  induction l as [| a rest IH]; intros rows E Hin; [contradiction |].
  simpl in E. destruct (last_set rest) eqn:E'; [discriminate |].
  destruct Hin as [-> | Hin]; [discriminate | exact (IH rows eq_refl Hin)].
Qed.

(** With at most one setter call in a log, the rows of any setter call
    in it are the rows of the latest one. *)
Lemma last_set_unique :
  forall l rows,
    (setter_calls l <= 1)%nat ->
    In (ActSetAnimalData rows) l ->
    last_set l = Some rows.
Proof.
  induction l as [| a rest IH]; intros rows Hon Hin; [contradiction |].
  destruct Hin as [-> | Hin].
  - simpl in *. assert (Hr : setter_calls rest = 0%nat) by lia.
    rewrite (last_set_none _ Hr). reflexivity.
  - assert (Hr : (setter_calls rest <= 1)%nat).
    { destruct a; simpl in Hon; lia. }
    simpl. rewrite (IH rows Hr Hin). reflexivity.
Qed.

(** X12: the state setter is called at most once in a run, and never
    before the fetch has settled; the dataset the component holds is the
    rows of that call, and the empty dataset as long as there was none. *)
Theorem dataset_written_at_most_once :
  forall events,
    let st := run events initial in
    (setter_calls (log st) <= 1)%nat /\
    (fetch st <> Settled -> setter_calls (log st) = 0%nat) /\
    (setter_calls (log st) = 0%nat -> animalData st = []) /\
    (forall rows, In (ActSetAnimalData rows) (log st) -> animalData st = rows).
Proof.
  intros events st.
  destruct (component_invariant_reachable events) as [_ _ _ _ Hpe Hon Hdata].
  fold st in Hpe, Hon, Hdata.
  split; [apply Hon |]. split; [intro H; apply (Hpe H) |]. split.
  - intro H. rewrite Hdata, (last_set_none _ H). reflexivity.
  - intros rows Hin. rewrite Hdata.
    rewrite (last_set_unique _ rows (proj1 Hon) Hin). reflexivity.
Qed.

(** A load on the sample page. *)
Lemma dataset_written_at_most_once_witness :
  animalData (run [Mount page; Settle (Fulfilled two_animals)] initial)
  = two_animals.
Proof.
  apply (proj2 (proj2 (proj2 (dataset_written_at_most_once
                                [Mount page; Settle (Fulfilled two_animals)])))).
  simpl. tauto.
Defined.

(** X13: when the fetch is fulfilled while the component is mounted, the
    rows become the dataset, the setter and the console log are the two
    actions recorded, and the container is drawn afresh from the rows:
    one [svg] for non-empty rows, nothing for an empty CSV. *)
Theorem load_success_draws_chart :
  forall events rows,
    phase (run events initial) = Mounted ->
    fetch (run events initial) = InFlight ->
    let st := run events initial in
    let loaded := step st (Settle (Fulfilled rows)) in
    animalData loaded = rows /\
    log loaded = log st ++ [ActSetAnimalData rows; ActConsoleLog (length rows)] /\
    graphRef loaded = Chart.surface (Chart.render rows (graphRef st)) /\
    exists c,
      graphRef st = Some c /\
      drawn loaded
      = match rows with
        | [] => []
        | _ :: _ => [Chart.svg rows (Some (Chart.clear c))]
        end.
Proof.
  intros events rows Hp Hf st loaded.
  destruct (component_invariant_reachable events) as [_ Hm _ _ _ _ _].
  fold st in Hp, Hf, Hm. destruct (Hm Hp) as [Hcan Hg].
  assert (E : loaded
              = mkState (phase st) rows
                        (Chart.surface (Chart.render rows (graphRef st)))
                        (cancelled st) Settled
                        ((log st ++ [ActSetAnimalData rows])
                           ++ [ActConsoleLog (length rows)])).
  { unfold loaded, step. rewrite Hf.
    unfold settle, then_, on_rows, record, setAnimalData.
    cbn [cancelled log phase animalData graphRef fetch].
    rewrite Hcan. reflexivity. }
  rewrite E. cbn [animalData log graphRef].
  split; [reflexivity |]. split; [rewrite <- app_assoc; reflexivity |].
  split; [reflexivity |].
  destruct (graphRef st) as [c |] eqn:Eg; [| contradiction Hg; reflexivity].
  exists c. split; [reflexivity |].
  unfold drawn. cbn [graphRef]. destruct rows; reflexivity.
Qed.

(** The spec's example dataset arrives on the sample page. *)
Lemma load_success_draws_chart_witness :
  animalData (step (run [Mount page] initial) (Settle (Fulfilled two_animals)))
  = two_animals /\
  log (step (run [Mount page] initial) (Settle (Fulfilled two_animals)))
  = log (run [Mount page] initial)
    ++ [ActSetAnimalData two_animals; ActConsoleLog 2].
Proof.
  destruct (load_success_draws_chart [Mount page] two_animals eq_refl eq_refl)
    as (H1 & H2 & _).
  split; [exact H1 | exact H2].
Defined.

(** X14: the console log is not behind the flag: a fetch that is
    fulfilled after the component was unmounted still logs the keys of
    its rows, and that log entry is all it leaves. *)
Theorem late_fulfilment_still_logs :
  forall events rows,
    phase (run events initial) = Unmounted ->
    fetch (run events initial) = InFlight ->
    let st := run events initial in
    let late := step st (Settle (Fulfilled rows)) in
    log late = log st ++ [ActConsoleLog (length rows)] /\
    animalData late = animalData st /\
    graphRef late = None /\
    phase late = Unmounted.
Proof.
  intros events rows Hp Hf st late.
  destruct (component_invariant_reachable events) as [_ _ Hu _ _ _ _].
  fold st in Hp, Hf, Hu. destruct (Hu Hp) as [Hcan Hg].
  unfold late, step. rewrite Hf.
  unfold settle, then_, on_rows, record.
  cbn [cancelled log phase animalData graphRef fetch].
  rewrite Hcan. cbn [negb log animalData graphRef phase].
  repeat split; assumption.
Qed.

(** Unmount first, then the rows arrive. *)
Lemma late_fulfilment_still_logs_witness :
  log (step (run [Mount page; Unmount] initial) (Settle (Fulfilled two_animals)))
  = log (run [Mount page; Unmount] initial) ++ [ActConsoleLog 2].
Proof.
  exact (proj1 (late_fulfilment_still_logs [Mount page; Unmount] two_animals
                  eq_refl eq_refl)).
Defined.

Lemma unmounted_step :
  forall st e,
    phase st = Unmounted -> cancelled st = true -> graphRef st = None ->
    phase (step st e) = Unmounted /\ cancelled (step st e) = true /\
    graphRef (step st e) = None /\ animalData (step st e) = animalData st /\
    fetch_calls (log (step st e)) = fetch_calls (log st).
Proof.
  intros st e Hp Hc Hg. destruct e as [c | o |]; unfold step.
  - rewrite Hp. repeat split; assumption.
  - destruct (fetch st); try (repeat split; assumption).
    destruct o as [rows | reason]; unfold settle, then_, on_rows, record;
      cbn [cancelled log phase animalData graphRef fetch].
    + rewrite Hc. cbn [negb log animalData graphRef phase cancelled].
      rewrite fetch_calls_app. simpl. repeat split; try assumption. lia.
    + rewrite fetch_calls_app. simpl. repeat split; try assumption. lia.
  - rewrite Hp. repeat split; assumption.
Qed.

(** X15: unmounting is final: whatever events follow, the component
    stays unmounted with its flag set and its container detached, keeps
    the dataset it had, draws nothing and starts no new fetch. *)
Theorem unmounted_is_terminal :
  forall events later,
    phase (run events initial) = Unmounted ->
    let st := run events initial in
    phase (run later st) = Unmounted /\
    cancelled (run later st) = true /\
    graphRef (run later st) = None /\
    drawn (run later st) = [] /\
    animalData (run later st) = animalData st /\
    fetch_calls (log (run later st)) = fetch_calls (log st).
Proof.
  intros events later Hp st.
  destruct (component_invariant_reachable events) as [_ _ Hu _ _ _ _].
  fold st in Hp, Hu. destruct (Hu Hp) as [Hc Hg].
  assert (G : phase (run later st) = Unmounted /\
              cancelled (run later st) = true /\
              graphRef (run later st) = None /\
              animalData (run later st) = animalData st /\
              fetch_calls (log (run later st)) = fetch_calls (log st)).
  { clearbody st. clear Hu. revert st Hp Hc Hg.
    induction later as [| e rest IH]; intros st Hp Hc Hg;
      [repeat split; assumption |].
    destruct (unmounted_step st e Hp Hc Hg) as (P1 & P2 & P3 & P4 & P5).
    simpl. destruct (IH (step st e) P1 P2 P3) as (Q1 & Q2 & Q3 & Q4 & Q5).
    repeat split; congruence. }
  destruct G as (G1 & G2 & G3 & G4 & G5).
  repeat split; try assumption. unfold drawn. rewrite G3. reflexivity.
Qed.

(** After the unmount a mount and the rows change nothing. *)
Lemma unmounted_is_terminal_witness :
  phase (run [Mount used_page; Settle (Fulfilled two_animals)]
             (run [Mount page; Unmount] initial)) = Unmounted /\
  animalData (run [Mount used_page; Settle (Fulfilled two_animals)]
                  (run [Mount page; Unmount] initial)) = [].
Proof.
  destruct (unmounted_is_terminal [Mount page; Unmount]
              [Mount used_page; Settle (Fulfilled two_animals)] eq_refl)
    as (H1 & _ & _ & _ & H5 & _).
  split; [exact H1 | exact H5].
Defined.

(** * Properties of the species form *)

(** ** Trimming *)

Lemma trimStart_clean_head :
  forall s, SpeciesForm.clean_head (SpeciesForm.trimStart s).
Proof.
  induction s as [| c rest IH]; simpl; [exact I |].
  destruct (SpeciesForm.is_white_space c) eqn:E; [exact IH | exact E].
Qed.

Lemma trimStart_fixed :
  forall s, SpeciesForm.clean_head s -> SpeciesForm.trimStart s = s.
Proof.
  intros [| c rest] H; simpl in *; [reflexivity |]. rewrite H. reflexivity.
Qed.

Lemma trimEnd_clean_head :
  forall s, SpeciesForm.clean_head s ->
            SpeciesForm.clean_head (SpeciesForm.trimEnd s).
Proof.
  intros [| c rest] H; simpl in *; [exact I |].
  destruct (SpeciesForm.trimEnd rest); [rewrite H |]; exact H.
Qed.

Lemma trimEnd_idempotent :
  forall s, SpeciesForm.trimEnd (SpeciesForm.trimEnd s) = SpeciesForm.trimEnd s.
Proof.
  induction s as [| c rest IH]; simpl; [reflexivity |].
  destruct (SpeciesForm.trimEnd rest) as [| c' rest'] eqn:E.
  - destruct (SpeciesForm.is_white_space c) eqn:W; simpl; [reflexivity |].
    rewrite W. reflexivity.
  - simpl in *. rewrite IH. reflexivity.
Qed.

Lemma trim_trimmed : forall s, SpeciesForm.trimmed (SpeciesForm.trim s).
Proof.
  intro s. unfold SpeciesForm.trimmed, SpeciesForm.trim. split.
  - apply trimStart_fixed, trimEnd_clean_head, trimStart_clean_head.
  - apply trimEnd_idempotent.
Qed.

Lemma trim_fixed :
  forall s, SpeciesForm.trimmed s -> SpeciesForm.trim s = s.
Proof.
  intros s [H1 H2]. unfold SpeciesForm.trim. rewrite H1. exact H2.
Qed.

Lemma trim_idempotent :
  forall s, SpeciesForm.trim (SpeciesForm.trim s) = SpeciesForm.trim s.
Proof.
  intro s. apply trim_fixed, trim_trimmed.
Qed.

Lemma eqb_empty_false : forall s, s <> ""%string -> String.eqb s "" = false.
Proof.
  intros s H. destruct (String.eqb_spec s ""); [contradiction | reflexivity].
Qed.

(** A string is trimmed to nothing exactly when it is white space
    throughout. *)
Lemma trimEnd_empty_all_white :
  forall s, SpeciesForm.trimEnd s = ""%string ->
            forall c, In c (list_ascii_of_string s) ->
                      SpeciesForm.is_white_space c = true.
Proof.
  induction s as [| c rest IH]; simpl; intros H c0 Hin; [contradiction |].
  destruct (SpeciesForm.trimEnd rest) eqn:E; [| discriminate].
  destruct (SpeciesForm.is_white_space c) eqn:W; [| discriminate].
  destruct Hin as [<- | Hin]; [exact W | apply IH; [reflexivity | exact Hin]].
Qed.

Lemma trimStart_suffix :
  forall s c, In c (list_ascii_of_string (SpeciesForm.trimStart s)) ->
              In c (list_ascii_of_string s).
Proof.
  induction s as [| c0 rest IH]; simpl; intros c H; [exact H |].
  destruct (SpeciesForm.is_white_space c0); [right; apply IH; exact H |].
  exact H.
Qed.

Lemma trimStart_all_white :
  forall s, (forall c, In c (list_ascii_of_string s) ->
                       SpeciesForm.is_white_space c = true) ->
            SpeciesForm.trimStart s = ""%string.
Proof.
  induction s as [| c0 rest IH]; simpl; intro H; [reflexivity |].
  rewrite (H c0 (or_introl eq_refl)). apply IH.
  intros c Hc. apply H. right. exact Hc.
Qed.

Lemma trimStart_empty_all_white :
  forall s, SpeciesForm.trimStart s = ""%string ->
            forall c, In c (list_ascii_of_string s) ->
                      SpeciesForm.is_white_space c = true.
Proof.
  induction s as [| c0 rest IH]; simpl; intros H c Hin; [contradiction |].
  destruct (SpeciesForm.is_white_space c0) eqn:W; [| discriminate].
  destruct Hin as [<- | Hin]; [exact W | exact (IH H c Hin)].
Qed.

(** [trim] yields the empty string exactly on strings of white space
    only. *)
Lemma trim_empty_iff :
  forall s, SpeciesForm.trim s = ""%string <->
            (forall c, In c (list_ascii_of_string s) ->
                       SpeciesForm.is_white_space c = true).
Proof.
  intro s. unfold SpeciesForm.trim. split.
  - intros H.
    assert (A := trimEnd_empty_all_white _ H).
    assert (C := trimStart_clean_head s).
    destruct (SpeciesForm.trimStart s) as [| c0 rest] eqn:E.
    + apply trimStart_empty_all_white. exact E.
    + simpl in C. rewrite (A c0 (or_introl eq_refl)) in C. discriminate.
  - intro H. rewrite (trimStart_all_white s H). reflexivity.
Qed.

(** ** The schema *)

Lemma nullable_text_some :
  forall val s,
    SpeciesForm.nullable_text val = Some s ->
    s <> ""%string /\ SpeciesForm.trimmed s /\
    exists v, val = Some v /\ s = SpeciesForm.trim v.
Proof.
  intros [v |] s; unfold SpeciesForm.nullable_text; [| discriminate].
  destruct (String.eqb v ""); cbn [orb]; [discriminate |].
  destruct (String.eqb_spec (SpeciesForm.trim v) "") as [Ht | Ht];
    [discriminate |].
  intro H. inversion H; subst s.
  split; [exact Ht |]. split; [apply trim_trimmed |].
  exists v. split; reflexivity.
Qed.

Lemma length_pos_iff :
  forall s, (1 <=? String.length s)%nat = true <-> s <> ""%string.
Proof.
  intros [| c rest]; simpl; split; intro H;
    try discriminate; try reflexivity.
  contradiction H. reflexivity.
Qed.

Lemma parse_scientific_name_some :
  forall v s,
    SpeciesForm.parse_scientific_name v = Some s ->
    s = SpeciesForm.trim v /\ s <> ""%string /\ SpeciesForm.trimmed s.
Proof.
  intros v s. unfold SpeciesForm.parse_scientific_name.
  destruct (1 <=? String.length (SpeciesForm.trim v))%nat eqn:E;
    [| discriminate].
  apply length_pos_iff in E. rewrite trim_idempotent.
  intro H. inversion H; subst s.
  split; [reflexivity |]. split; [exact E | apply trim_trimmed].
Qed.

Lemma valid_total_population_some :
  forall q,
    SpeciesForm.valid_total_population (Some q) = true ->
    exists n : Z, (1 <= n)%Z /\ q == inject_Z n.
Proof.
  intros q H. unfold SpeciesForm.valid_total_population,
                SpeciesForm.is_integer in H.
  apply andb_prop in H. destruct H as [H H3].
  apply andb_prop in H. destruct H as [H1 _].
  apply Qeq_bool_iff in H1. apply Qle_bool_iff in H3.
  exists (Qfloor q). split; [| exact H1].
  rewrite H1 in H3. change 1 with (inject_Z 1) in H3.
  rewrite <- Zle_Qle in H3. exact H3.
Qed.


(** X16: the transform of the nullable text fields (common name, image,
    description) yields [null] exactly for [null] and for strings of
    white space only (the empty string among them); any other value is
    trimmed, so the result is never empty and has no white space at
    either end; applied to its own result it changes nothing. *)
Theorem nullable_text_normal_form :
  forall val,
    (forall s, SpeciesForm.nullable_text val = Some s ->
               s <> ""%string /\ SpeciesForm.trimmed s /\
               exists v, val = Some v /\ s = SpeciesForm.trim v) /\
    (SpeciesForm.nullable_text val = None <->
     val = None \/
     exists v, val = Some v /\
               forall c, In c (list_ascii_of_string v) ->
                         SpeciesForm.is_white_space c = true) /\
    SpeciesForm.nullable_text (SpeciesForm.nullable_text val)
    = SpeciesForm.nullable_text val.
Proof.
  intros [v |]; unfold SpeciesForm.nullable_text.
  2: { split; [discriminate |]. split; [| reflexivity].
       split; [left; reflexivity | reflexivity]. }
  destruct (String.eqb_spec v "") as [-> | Hv]; cbn [orb].
  - split; [discriminate |]. split; [| reflexivity].
    split; [| reflexivity]. intros _. right. exists ""%string.
    split; [reflexivity | intros c []].
  - destruct (String.eqb_spec (SpeciesForm.trim v) "") as [Ht | Ht].
    + split; [discriminate |]. split; [| reflexivity].
      split; [| reflexivity]. intros _. right. exists v.
      split; [reflexivity | apply trim_empty_iff; exact Ht].
    + split; [| split].
      * intros s H. apply (nullable_text_some (Some v)).
        unfold SpeciesForm.nullable_text.
        rewrite (eqb_empty_false _ Hv), (eqb_empty_false _ Ht). exact H.
      * split; [discriminate |].
        intros [H | (v' & H & Hall)]; [discriminate |].
        inversion H; subst v'. exfalso. apply Ht.
        apply trim_empty_iff. exact Hall.
      * rewrite trim_idempotent, (eqb_empty_false _ Ht). reflexivity.
Qed.

(** A padded common name, and one of blanks only. *)
Lemma nullable_text_normal_form_witness :
  SpeciesForm.nullable_text (Some "  Guinea pig "%string)
  = Some "Guinea pig"%string /\
  "Guinea pig"%string <> ""%string /\
  SpeciesForm.nullable_text (Some "   "%string) = None.
Proof.
  split; [reflexivity |]. split; [| reflexivity].
  exact (proj1 (proj1 (nullable_text_normal_form (Some "  Guinea pig "%string))
                      "Guinea pig"%string eq_refl)).
Defined.

(** X17: the scientific name is accepted unless it consists of white
    space only (the empty string included); an accepted name is stored
    trimmed: not empty and without white space at either end. *)
Theorem scientific_name_rule :
  forall v,
    (forall s, SpeciesForm.parse_scientific_name v = Some s ->
               s = SpeciesForm.trim v /\ s <> ""%string /\
               SpeciesForm.trimmed s) /\
    (SpeciesForm.parse_scientific_name v = None <->
     forall c, In c (list_ascii_of_string v) ->
               SpeciesForm.is_white_space c = true).
Proof.
  intro v. unfold SpeciesForm.parse_scientific_name.
  destruct (1 <=? String.length (SpeciesForm.trim v))%nat eqn:E.
  - split.
    + intros s H. apply parse_scientific_name_some.
      unfold SpeciesForm.parse_scientific_name. rewrite E. exact H.
    + apply length_pos_iff in E.
      split; [discriminate |]. intro Hall. exfalso. apply E.
      apply trim_empty_iff. exact Hall.
  - split; [discriminate |]. split; [| reflexivity]. intros _.
    apply trim_empty_iff.
    destruct (SpeciesForm.trim v); [reflexivity | discriminate E].
Qed.

(** A padded name is stored trimmed. *)
Lemma scientific_name_rule_witness :
  " Cavia porcellus  "%string <> ""%string /\
  SpeciesForm.parse_scientific_name " Cavia porcellus  "
  = Some "Cavia porcellus"%string /\
  SpeciesForm.trimmed "Cavia porcellus".
Proof.
  split; [discriminate |]. split; [reflexivity |].
  exact (proj2 (proj2 (proj1 (scientific_name_rule " Cavia porcellus  ")
                             "Cavia porcellus"%string eq_refl))).
Defined.

(** X18: the total population is accepted exactly when it is [null] or a
    whole number that is at least 1; zero, negative numbers and
    fractions are rejected. *)
Theorem total_population_rule :
  forall p,
    SpeciesForm.valid_total_population p = true <->
    p = None \/ exists q (n : Z), p = Some q /\ (1 <= n)%Z /\ q == inject_Z n.
Proof.
  intros [q |].
  2: { split; [left; reflexivity | reflexivity]. }
  split.
  - intro H. destruct (valid_total_population_some q H) as (n & Hn & Hq).
    right. exists q, n. split; [reflexivity |]. split; assumption.
  - intros [H | (q' & n & H & Hn & Hq)]; [discriminate |].
    inversion H; subst q'. clear H.
    assert (Hq1 : 1 <= q).
    { rewrite Hq. change 1 with (inject_Z 1). rewrite <- Zle_Qle. exact Hn. }
    assert (Hfl : Qfloor q = n) by (rewrite Hq; apply Qfloor_Z).
    unfold SpeciesForm.valid_total_population, SpeciesForm.is_integer.
    rewrite Hfl. apply andb_true_intro. split; [apply andb_true_intro; split |].
    + apply Qeq_bool_iff. exact Hq.
    + destruct (Qlt_le_dec 0 q); [reflexivity | lra].
    + apply Qle_bool_iff. exact Hq1.
Qed.

(** 300000 is accepted. *)
Lemma total_population_rule_witness :
  SpeciesForm.valid_total_population (Some 300000) = true.
Proof.
  apply (proj2 (total_population_rule (Some 300000))).
  right. exists 300000, 300000%Z.
  split; [reflexivity |]. split; [lia | reflexivity].
Defined.

(** ** The dialog and its form *)

Local Abbreviation editing st :=
  (SpeciesDialog.isEditing (SpeciesForm.dialog st)).
Local Abbreviation opened st :=
  (SpeciesDialog.open (SpeciesForm.dialog st)).

(** The dialog part of the state moves as the dialog model says. *)
Lemma dialog_simulation :
  forall url_ok userId st e,
    SpeciesForm.dialog (SpeciesForm.step url_ok userId st e)
    = SpeciesDialog.step (SpeciesForm.summary (SpeciesForm.species st)) userId
                         (SpeciesForm.dialog st)
                         (SpeciesForm.dialog_event st e).
Proof.
  intros url_ok userId st e. destruct e as [o | b | ed | n err | sp'];
    unfold SpeciesForm.step, SpeciesForm.dialog_event.
  - reflexivity.
  - cbn [SpeciesDialog.step].
    destruct (SpeciesDialog.offered _ userId (SpeciesForm.dialog st) b) eqn:Hoff;
      [| reflexivity].
    destruct b; try reflexivity.
    unfold SpeciesForm.submit.
    destruct (SpeciesForm.parse url_ok (SpeciesForm.values st)); reflexivity.
  - simpl. destruct (opened st && editing st); reflexivity.
  - destruct (nth_error (SpeciesForm.pending st) n) as [input |];
      destruct err as [msg |]; reflexivity.
  - reflexivity.
Qed.

Lemma offered_update :
  forall sp userId d,
    SpeciesDialog.offered sp userId d SpeciesDialog.UpdateSpecies
    = SpeciesDialog.open d && SpeciesDialog.isEditing d.
Proof.
  intros sp u [o ed]. unfold SpeciesDialog.offered, SpeciesDialog.buttons,
    SpeciesDialog.view_mode_buttons. simpl.
  destruct o, ed; simpl; try reflexivity;
    destruct (SpeciesDialog.isAuthor sp u); reflexivity.
Qed.

Lemma offered_cancel :
  forall sp userId d,
    SpeciesDialog.offered sp userId d SpeciesDialog.Cancel
    = SpeciesDialog.open d && SpeciesDialog.isEditing d.
Proof.
  intros sp u [o ed]. unfold SpeciesDialog.offered, SpeciesDialog.buttons,
    SpeciesDialog.view_mode_buttons. simpl.
  destruct o, ed; simpl; try reflexivity;
    destruct (SpeciesDialog.isAuthor sp u); reflexivity.
Qed.

Lemma offered_edit :
  forall sp userId d,
    SpeciesDialog.offered sp userId d SpeciesDialog.EditSpecies
    = SpeciesDialog.open d && negb (SpeciesDialog.isEditing d)
      && SpeciesDialog.isAuthor sp userId.
Proof.
  intros sp u [o ed]. unfold SpeciesDialog.offered, SpeciesDialog.buttons,
    SpeciesDialog.view_mode_buttons. simpl.
  destruct o, ed; simpl; try reflexivity;
    destruct (SpeciesDialog.isAuthor sp u); reflexivity.
Qed.

(** What the schema lets through is processed. *)
Lemma parse_processed :
  forall url_ok v input,
    SpeciesForm.parse url_ok v = Some input -> SpeciesForm.processed input.
Proof.
  intros url_ok v input H. unfold SpeciesForm.parse in H.
  destruct (SpeciesForm.parse_scientific_name (SpeciesForm.f_scientific_name v))
    as [sci |] eqn:Es; [| discriminate].
  destruct (SpeciesForm.parse_image url_ok (SpeciesForm.f_image v))
    as [img |] eqn:Ei; [| discriminate].
  destruct (SpeciesForm.valid_total_population (SpeciesForm.f_total_population v))
    eqn:Ep; [| discriminate].
  inversion H; subst input. clear H. unfold SpeciesForm.processed. simpl.
  destruct (parse_scientific_name_some _ sci Es) as (_ & S1 & S2).
  split; [exact S1 |]. split; [exact S2 |].
  split; [| split; [| split]].
  - intros s Hs.
    destruct (nullable_text_some _ s Hs) as (A & B & _).
    split; assumption.
  - intros s Hs.
    destruct (nullable_text_some _ s Hs) as (A & B & _).
    split; assumption.
  - intros s Hs. subst img. unfold SpeciesForm.parse_image in Ei.
    destruct (SpeciesForm.f_image v) as [raw |]; [| discriminate].
    destruct (url_ok raw); [| discriminate].
    assert (Hn : SpeciesForm.nullable_text (Some raw) = Some s) by congruence.
    destruct (nullable_text_some _ s Hn) as (A & B & _).
    split; assumption.
  - intros q Hq. rewrite Hq in Ep.
    apply valid_total_population_some. exact Ep.
Qed.

(** X19: clearing the population box does not give [null] but the
    number 0, which the schema rejects: through the box the field can
    never become [null] again, and with the box cleared a click on
    Update Species sends nothing and changes nothing. *)
Theorem cleared_population_blocks_submit :
  forall url_ok userId st,
    opened st = true -> editing st = true ->
    (forall box,
       SpeciesForm.f_total_population
         (SpeciesForm.values
            (SpeciesForm.step url_ok userId st
               (SpeciesForm.Input (SpeciesForm.SetTotalPopulation box))))
       <> None) /\
    let cleared :=
      SpeciesForm.step url_ok userId st
        (SpeciesForm.Input (SpeciesForm.SetTotalPopulation None)) in
    SpeciesForm.f_total_population (SpeciesForm.values cleared) = Some 0 /\
    SpeciesForm.parse url_ok (SpeciesForm.values cleared) = None /\
    SpeciesForm.step url_ok userId cleared
      (SpeciesForm.Click SpeciesDialog.UpdateSpecies) = cleared.
Proof.
  intros url_ok userId st Ho He.
  assert (Hstep : forall box,
             SpeciesForm.step url_ok userId st
               (SpeciesForm.Input (SpeciesForm.SetTotalPopulation box))
             = SpeciesForm.mkState (SpeciesForm.dialog st) (SpeciesForm.species st)
                 (SpeciesForm.apply_edit (SpeciesForm.SetTotalPopulation box)
                                         (SpeciesForm.values st))
                 (SpeciesForm.pending st) (SpeciesForm.effects st)).
  { intro box. unfold SpeciesForm.step. rewrite Ho, He. reflexivity. }
  split; [intro box; rewrite Hstep; discriminate |].
  intro cleared. unfold cleared. rewrite Hstep.
  assert (Hparse : SpeciesForm.parse url_ok
                     (SpeciesForm.apply_edit (SpeciesForm.SetTotalPopulation None)
                                             (SpeciesForm.values st)) = None).
  { unfold SpeciesForm.parse. cbn [SpeciesForm.apply_edit
      SpeciesForm.f_scientific_name SpeciesForm.f_image
      SpeciesForm.f_total_population].
    destruct (SpeciesForm.parse_scientific_name _); [| reflexivity].
    destruct (SpeciesForm.parse_image url_ok _); reflexivity. }
  split; [reflexivity |]. split; [exact Hparse |].
  unfold SpeciesForm.step. cbn [SpeciesForm.dialog SpeciesForm.species].
  rewrite offered_update, Ho, He. cbn [andb].
  unfold SpeciesForm.submit. cbn [SpeciesForm.values].
  rewrite Hparse. reflexivity.
Qed.

(** The guinea pig's form, open for editing, with the box cleared. *)
Lemma cleared_population_blocks_submit_witness :
  SpeciesForm.parse starts_with_http
    (SpeciesForm.values
       (SpeciesForm.step starts_with_http "user-1"
          (SpeciesForm.mkState (SpeciesDialog.mkState true true) guinea_pig
             (SpeciesForm.defaultValues guinea_pig) [] [])
          (SpeciesForm.Input (SpeciesForm.SetTotalPopulation None)))) = None.
Proof.
  exact (proj1 (proj2 (proj2 (cleared_population_blocks_submit
           starts_with_http "user-1"
           (SpeciesForm.mkState (SpeciesDialog.mkState true true) guinea_pig
              (SpeciesForm.defaultValues guinea_pig) [] [])
           eq_refl eq_refl)))).
Defined.

(** X20: a click on Update Species in the open form sends nothing when
    a field is invalid, and leaves the state as it is; on valid values it
    sends one update request, for the id of the row shown and with the
    processed values, and changes neither the form nor the mode. *)
Theorem submit_sends_one_request :
  forall url_ok userId st,
    opened st = true -> editing st = true ->
    let st' := SpeciesForm.step url_ok userId st
                 (SpeciesForm.Click SpeciesDialog.UpdateSpecies) in
    (SpeciesForm.parse url_ok (SpeciesForm.values st) = None -> st' = st) /\
    (forall input,
       SpeciesForm.parse url_ok (SpeciesForm.values st) = Some input ->
       SpeciesForm.effects st'
       = SpeciesForm.effects st
         ++ [SpeciesForm.EffUpdate (SpeciesForm.id (SpeciesForm.species st)) input] /\
       SpeciesForm.pending st' = SpeciesForm.pending st ++ [input] /\
       SpeciesForm.values st' = SpeciesForm.values st /\
       SpeciesForm.dialog st' = SpeciesForm.dialog st /\
       SpeciesForm.processed input).
Proof.
  intros url_ok userId st Ho He st'.
  assert (E : st' = SpeciesForm.submit url_ok st).
  { unfold st', SpeciesForm.step. rewrite offered_update, Ho, He. reflexivity. }
  rewrite E. unfold SpeciesForm.submit. split.
  - intro H. rewrite H. reflexivity.
  - intros input H. rewrite H.
    cbn [SpeciesForm.effects SpeciesForm.pending SpeciesForm.values
         SpeciesForm.dialog].
    split; [reflexivity |]. split; [reflexivity |]. split; [reflexivity |].
    split; [reflexivity |]. apply (parse_processed url_ok _ _ H).
Qed.

(** The guinea pig's form with a padded new name. *)
Lemma submit_sends_one_request_witness :
  SpeciesForm.effects
    (SpeciesForm.step starts_with_http "user-1"
       (SpeciesForm.mkState (SpeciesDialog.mkState true true) guinea_pig
          (SpeciesForm.apply_edit (SpeciesForm.SetCommonName " Cavy ")
             (SpeciesForm.defaultValues guinea_pig)) [] [])
       (SpeciesForm.Click SpeciesDialog.UpdateSpecies))
  = [SpeciesForm.EffUpdate 7
       (SpeciesForm.mkForm "Cavia porcellus" (Some "Cavy"%string)
          SpeciesForm.Animalia (Some 300000) None None)].
Proof.
  exact (proj1 (proj2 (submit_sends_one_request starts_with_http "user-1"
           (SpeciesForm.mkState (SpeciesDialog.mkState true true) guinea_pig
              (SpeciesForm.apply_edit (SpeciesForm.SetCommonName " Cavy ")
                 (SpeciesForm.defaultValues guinea_pig)) [] [])
           eq_refl eq_refl) _ eq_refl)).
Defined.

(** X21: the reply to an update request.  An error leaves mode and form
    values alone and shows one destructive toast with the error's
    message, without a refresh.  A success ends the editing mode, puts
    the processed input in the form, refreshes the route and shows the
    success toast naming the scientific name; it does so also when the
    form was edited or cancelled after the request went out. *)
Theorem reply_outcomes :
  forall url_ok userId st n input,
    nth_error (SpeciesForm.pending st) n = Some input ->
    (forall message,
       let st' := SpeciesForm.step url_ok userId st
                    (SpeciesForm.Reply n (Some message)) in
       SpeciesForm.dialog st' = SpeciesForm.dialog st /\
       SpeciesForm.values st' = SpeciesForm.values st /\
       SpeciesForm.effects st'
       = SpeciesForm.effects st
         ++ [SpeciesForm.EffToast "Something went wrong." message true] /\
       length (SpeciesForm.pending st') = pred (length (SpeciesForm.pending st))) /\
    (let st' := SpeciesForm.step url_ok userId st (SpeciesForm.Reply n None) in
     editing st' = false /\
     opened st' = opened st /\
     SpeciesForm.values st' = input /\
     SpeciesForm.effects st'
     = SpeciesForm.effects st
       ++ [SpeciesForm.EffRefresh;
           SpeciesForm.EffToast "Species updated successfully!"
             ("Successfully updated "
              ++ SpeciesForm.f_scientific_name input ++ ".") false] /\
     length (SpeciesForm.pending st') = pred (length (SpeciesForm.pending st))).
Proof.
  intros url_ok userId st n input Hn.
  assert (Hlen : length (SpeciesForm.remove_nth n (SpeciesForm.pending st))
                 = pred (length (SpeciesForm.pending st))).
  { assert (Hlt : (n < length (SpeciesForm.pending st))%nat)
      by (apply nth_error_Some; rewrite Hn; discriminate).
    unfold SpeciesForm.remove_nth.
    rewrite length_app, length_firstn, length_skipn. lia. }
  split.
  - intros message st'. unfold st', SpeciesForm.step. rewrite Hn.
    cbn. repeat split; try reflexivity. exact Hlen.
  - intro st'. unfold st', SpeciesForm.step. rewrite Hn.
    cbn. repeat split; try reflexivity. exact Hlen.
Qed.

(** The update of the guinea pig succeeds after the user has cancelled
    the form. *)
Lemma reply_outcomes_witness :
  SpeciesForm.values
    (SpeciesForm.step starts_with_http "user-1"
       (SpeciesForm.mkState (SpeciesDialog.mkState true false) guinea_pig
          (SpeciesForm.defaultValues guinea_pig)
          [SpeciesForm.mkForm "Cavia porcellus" (Some "Cavy"%string)
             SpeciesForm.Animalia (Some 300000) None None] [])
       (SpeciesForm.Reply 0 None))
  = SpeciesForm.mkForm "Cavia porcellus" (Some "Cavy"%string)
      SpeciesForm.Animalia (Some 300000) None None.
Proof.
  exact (proj1 (proj2 (proj2 (proj2 (reply_outcomes starts_with_http "user-1"
           (SpeciesForm.mkState (SpeciesDialog.mkState true false) guinea_pig
              (SpeciesForm.defaultValues guinea_pig)
              [SpeciesForm.mkForm "Cavia porcellus" (Some "Cavy"%string)
                 SpeciesForm.Animalia (Some 300000) None None] [])
           0%nat _ eq_refl))))).
Defined.

Lemma input_keeps_mode :
  forall url_ok userId ed st,
    let st' := SpeciesForm.step url_ok userId st (SpeciesForm.Input ed) in
    SpeciesForm.dialog st' = SpeciesForm.dialog st /\
    SpeciesForm.species st' = SpeciesForm.species st /\
    SpeciesForm.pending st' = SpeciesForm.pending st /\
    SpeciesForm.effects st' = SpeciesForm.effects st.
Proof.
  intros url_ok userId ed st. simpl.
  destruct (opened st && editing st); repeat split; reflexivity.
Qed.

Lemma inputs_keep_mode :
  forall url_ok userId edits st,
    let st' := SpeciesForm.run url_ok userId (map SpeciesForm.Input edits) st in
    SpeciesForm.dialog st' = SpeciesForm.dialog st /\
    SpeciesForm.species st' = SpeciesForm.species st /\
    SpeciesForm.pending st' = SpeciesForm.pending st /\
    SpeciesForm.effects st' = SpeciesForm.effects st.
Proof.
  intros url_ok userId edits. induction edits as [| ed rest IH]; intro st;
    [repeat split; reflexivity |].
  destruct (input_keeps_mode url_ok userId ed st) as (A1 & A2 & A3 & A4).
  specialize (IH (SpeciesForm.step url_ok userId st (SpeciesForm.Input ed))).
  change (SpeciesForm.run url_ok userId (map SpeciesForm.Input (ed :: rest)) st)
    with (SpeciesForm.run url_ok userId (map SpeciesForm.Input rest)
            (SpeciesForm.step url_ok userId st (SpeciesForm.Input ed))).
  cbv zeta in *. destruct IH as (H1 & H2 & H3 & H4).
  repeat split; congruence.
Qed.

(** X22: Cancel throws away whatever was typed: after any sequence of
    changes in the inputs of the open form, a click on Cancel puts the
    values of the row shown back into every field and returns to view
    mode, with the dialog still open and nothing sent. *)
Theorem cancel_restores_row_values :
  forall url_ok userId st edits,
    opened st = true -> editing st = true ->
    let st' := SpeciesForm.run url_ok userId
                 (map SpeciesForm.Input edits
                  ++ [SpeciesForm.Click SpeciesDialog.Cancel]) st in
    SpeciesForm.values st' = SpeciesForm.defaultValues (SpeciesForm.species st) /\
    editing st' = false /\ opened st' = true /\
    SpeciesForm.effects st' = SpeciesForm.effects st /\
    SpeciesForm.pending st' = SpeciesForm.pending st.
Proof.
  intros url_ok userId st edits Ho He st'.
  unfold st', SpeciesForm.run. rewrite fold_left_app.
  fold (SpeciesForm.run url_ok userId (map SpeciesForm.Input edits) st).
  destruct (inputs_keep_mode url_ok userId edits st) as (H1 & H2 & H3 & H4).
  set (typed := SpeciesForm.run url_ok userId (map SpeciesForm.Input edits) st) in *.
  cbn [fold_left]. unfold SpeciesForm.step.
  rewrite offered_cancel, H1, Ho, He. cbn [andb].
  cbn [SpeciesForm.values SpeciesForm.dialog SpeciesForm.effects
       SpeciesForm.pending].
  rewrite H2, H3, H4.
  assert (Hoff : SpeciesDialog.offered
                   (SpeciesForm.summary (SpeciesForm.species st)) userId
                   (SpeciesForm.dialog st) SpeciesDialog.Cancel = true).
  { rewrite offered_cancel, Ho, He. reflexivity. }
  unfold SpeciesDialog.step. rewrite Hoff. cbn. rewrite Ho.
  repeat split; reflexivity.
Qed.

(** Name and population typed over, then cancelled. *)
Lemma cancel_restores_row_values_witness :
  SpeciesForm.values
    (SpeciesForm.run starts_with_http "user-1"
       [SpeciesForm.Input (SpeciesForm.SetScientificName "x");
        SpeciesForm.Input (SpeciesForm.SetTotalPopulation None);
        SpeciesForm.Click SpeciesDialog.Cancel]
       (SpeciesForm.mkState (SpeciesDialog.mkState true true) guinea_pig
          (SpeciesForm.defaultValues guinea_pig) [] []))
  = SpeciesForm.defaultValues guinea_pig.
Proof.
  exact (proj1 (cancel_restores_row_values starts_with_http "user-1"
           (SpeciesForm.mkState (SpeciesDialog.mkState true true) guinea_pig
              (SpeciesForm.defaultValues guinea_pig) [] [])
           [SpeciesForm.SetScientificName "x";
            SpeciesForm.SetTotalPopulation None]
           eq_refl eq_refl)).
Defined.

Lemma isAuthor_false :
  forall sp userId,
    SpeciesForm.author sp <> userId ->
    SpeciesDialog.isAuthor (SpeciesForm.summary sp) userId = false.
Proof.
  intros sp u H. unfold SpeciesDialog.isAuthor, SpeciesForm.summary. simpl.
  destruct (String.eqb_spec u (SpeciesForm.author sp)) as [E | _];
    [| reflexivity].
  exfalso. apply H. symmetry. exact E.
Qed.

Lemma stranger_step :
  forall url_ok userId v0 st e,
    (forall sp, e = SpeciesForm.Refreshed sp -> SpeciesForm.author sp <> userId) ->
    stranger_invariant userId v0 st ->
    stranger_invariant userId v0 (SpeciesForm.step url_ok userId st e).
Proof.
  intros url_ok userId v0 st e Hre (Ha & He & Hp & Hf & Hv).
  assert (Hna := isAuthor_false _ _ Ha).
  destruct e as [o | b | ed | n err | sp']; unfold SpeciesForm.step.
  - unfold stranger_invariant. simpl. tauto.
  - destruct (SpeciesDialog.offered _ userId (SpeciesForm.dialog st) b) eqn:Hoff;
      [| unfold stranger_invariant; tauto].
    destruct b.
    + unfold stranger_invariant.
      cbn [SpeciesForm.species SpeciesForm.dialog SpeciesForm.pending
           SpeciesForm.effects SpeciesForm.values].
      unfold SpeciesDialog.step. rewrite Hoff. simpl. tauto.
    + rewrite offered_edit, Hna, andb_false_r in Hoff. discriminate.
    + unfold stranger_invariant.
      cbn [SpeciesForm.species SpeciesForm.dialog SpeciesForm.pending
           SpeciesForm.effects SpeciesForm.values].
      unfold SpeciesDialog.step. rewrite Hoff. simpl. tauto.
    + rewrite offered_update, He, andb_false_r in Hoff. discriminate.
    + rewrite offered_cancel, He, andb_false_r in Hoff. discriminate.
  - rewrite He, andb_false_r. unfold stranger_invariant. tauto.
  - rewrite Hp. destruct n; unfold stranger_invariant; tauto.
  - assert (Hsp := Hre sp' eq_refl). unfold stranger_invariant. simpl. tauto.
Qed.

(** X23: a user who is not the author of the row, and is not made its
    author by a refresh, can do nothing to it through the dialog: in
    every run the dialog stays out of the editing mode, no update
    request is sent, no toast is shown and the form values stay those of
    the row first shown. *)
Theorem stranger_never_updates :
  forall url_ok userId sp events,
    SpeciesForm.author sp <> userId ->
    never_authored userId events ->
    let st := SpeciesForm.run url_ok userId events (SpeciesForm.initial sp) in
    editing st = false /\
    SpeciesForm.updates (SpeciesForm.effects st) = [] /\
    SpeciesForm.effects st = [] /\
    SpeciesForm.pending st = [] /\
    SpeciesForm.values st = SpeciesForm.defaultValues sp /\
    ~ In SpeciesDialog.EditSpecies
         (SpeciesDialog.buttons
            (SpeciesForm.summary (SpeciesForm.species st)) userId
            (SpeciesForm.dialog st)).
Proof.
  intros url_ok userId sp events Ha Hev st.
  assert (Hinv : stranger_invariant userId (SpeciesForm.defaultValues sp) st).
  { unfold st. clear st.
    assert (H0 : stranger_invariant userId (SpeciesForm.defaultValues sp)
                   (SpeciesForm.initial sp))
      by (repeat split; try reflexivity; exact Ha).
    revert H0 Hev. generalize (SpeciesForm.initial sp) as s0.
    induction events as [| e rest IH]; intros s0 H0 Hev; [exact H0 |].
    simpl. apply IH.
    - apply stranger_step; [| exact H0].
      intros sp' ->. apply Hev. left. reflexivity.
    - intros sp' Hin. apply Hev. right. exact Hin. }
  destruct Hinv as (Ha' & He & Hp & Hf & Hv).
  split; [exact He |]. split; [rewrite Hf; reflexivity |].
  split; [exact Hf |]. split; [exact Hp |]. split; [exact Hv |].
  intro Hin. apply buttons_edit_author in Hin.
  apply Ha'. symmetry. exact Hin.
Qed.

(** Another user opens the guinea pig's dialog and tries everything. *)
Lemma stranger_never_updates_witness :
  SpeciesForm.effects
    (SpeciesForm.run starts_with_http "user-2"
       [SpeciesForm.Click SpeciesDialog.LearnMore;
        SpeciesForm.Click SpeciesDialog.EditSpecies;
        SpeciesForm.Input (SpeciesForm.SetScientificName "x");
        SpeciesForm.Click SpeciesDialog.UpdateSpecies;
        SpeciesForm.Reply 0 None]
       (SpeciesForm.initial guinea_pig)) = [].
Proof.
  assert (Ha : SpeciesForm.author guinea_pig <> "user-2"%string)
    by discriminate.
  assert (Hev : never_authored "user-2"
                  [SpeciesForm.Click SpeciesDialog.LearnMore;
                   SpeciesForm.Click SpeciesDialog.EditSpecies;
                   SpeciesForm.Input (SpeciesForm.SetScientificName "x");
                   SpeciesForm.Click SpeciesDialog.UpdateSpecies;
                   SpeciesForm.Reply 0 None]).
  { intros sp Hin. simpl in Hin.
    repeat (destruct Hin as [Hin | Hin]; [discriminate Hin |]).
    contradiction. }
  exact (proj1 (proj2 (proj2 (stranger_never_updates starts_with_http "user-2"
                                guinea_pig _ Ha Hev)))).
Defined.

Lemma last_default :
  forall (A : Type) (x : A) (l : list A) (d1 d2 : A),
    last (x :: l) d1 = last (x :: l) d2.
Proof.
  intros A x l. revert x. induction l as [| y rest IH]; intros x d1 d2;
    [reflexivity |].
  change (last (x :: y :: rest) d1) with (last (y :: rest) d1).
  change (last (x :: y :: rest) d2) with (last (y :: rest) d2).
  apply IH.
Qed.

Lemma toggles_keep_form :
  forall url_ok userId toggles st,
    let st' := SpeciesForm.run url_ok userId
                 (map SpeciesForm.OpenChange toggles) st in
    editing st' = editing st /\
    SpeciesForm.values st' = SpeciesForm.values st /\
    SpeciesForm.species st' = SpeciesForm.species st /\
    SpeciesForm.effects st' = SpeciesForm.effects st /\
    opened st' = last toggles (opened st).
Proof.
  intros url_ok userId toggles. induction toggles as [| o rest IH]; intro st;
    [repeat split; reflexivity |].
  specialize (IH (SpeciesForm.step url_ok userId st (SpeciesForm.OpenChange o))).
  change (SpeciesForm.run url_ok userId
            (map SpeciesForm.OpenChange (o :: rest)) st)
    with (SpeciesForm.run url_ok userId (map SpeciesForm.OpenChange rest)
            (SpeciesForm.step url_ok userId st (SpeciesForm.OpenChange o))).
  cbv zeta in *. destruct IH as (H1 & H2 & H3 & H4 & H5).
  set (st1 := SpeciesForm.step url_ok userId st (SpeciesForm.OpenChange o)) in *.
  assert (E1 : editing st1 = editing st) by reflexivity.
  assert (E2 : SpeciesForm.values st1 = SpeciesForm.values st) by reflexivity.
  assert (E3 : SpeciesForm.species st1 = SpeciesForm.species st) by reflexivity.
  assert (E4 : SpeciesForm.effects st1 = SpeciesForm.effects st) by reflexivity.
  assert (E5 : opened st1 = o) by reflexivity.
  split; [congruence |]. split; [congruence |]. split; [congruence |].
  split; [congruence |].
  rewrite H5, E5. destruct rest as [| b rest']; [reflexivity |].
  change (last (o :: b :: rest') (opened st)) with (last (b :: rest') (opened st)).
  apply last_default.
Qed.

(** X24: closing the dialog does not end the editing mode.  However
    often the dialog is closed and opened again, the mode and the values
    typed stay as they were; reopened in editing mode, the dialog shows
    the form with Update Species and Cancel, not the details. *)
Theorem editing_survives_close :
  forall url_ok userId st toggles,
    editing st = true ->
    let st' := SpeciesForm.run url_ok userId
                 (map SpeciesForm.OpenChange (toggles ++ [true])) st in
    editing st' = true /\
    SpeciesForm.values st' = SpeciesForm.values st /\
    SpeciesForm.effects st' = SpeciesForm.effects st /\
    SpeciesDialog.buttons (SpeciesForm.summary (SpeciesForm.species st')) userId
                          (SpeciesForm.dialog st')
    = [SpeciesDialog.LearnMore; SpeciesDialog.UpdateSpecies;
       SpeciesDialog.Cancel].
Proof.
  intros url_ok userId st toggles He st'.
  destruct (toggles_keep_form url_ok userId (toggles ++ [true]) st)
    as (H1 & H2 & H3 & H4 & H5). fold st' in H1, H2, H3, H4, H5.
  rewrite last_last in H5.
  split; [rewrite H1; exact He |]. split; [exact H2 |]. split; [exact H4 |].
  unfold SpeciesDialog.buttons. rewrite H5, H1, He. reflexivity.
Qed.

(** The author types a name, closes the dialog and opens it again. *)
Lemma editing_survives_close_witness :
  SpeciesForm.f_scientific_name
    (SpeciesForm.values
       (SpeciesForm.run starts_with_http "user-1"
          (map SpeciesForm.OpenChange ([false] ++ [true]))
          (SpeciesForm.mkState (SpeciesDialog.mkState true true) guinea_pig
             (SpeciesForm.apply_edit (SpeciesForm.SetScientificName "Cavia")
                (SpeciesForm.defaultValues guinea_pig)) [] [])))
  = "Cavia"%string.
Proof.
  rewrite (proj1 (proj2 (editing_survives_close starts_with_http "user-1"
             (SpeciesForm.mkState (SpeciesDialog.mkState true true) guinea_pig
                (SpeciesForm.apply_edit (SpeciesForm.SetScientificName "Cavia")
                   (SpeciesForm.defaultValues guinea_pig)) [] [])
             [false] eq_refl))).
  reflexivity.
Defined.

Lemma updates_app :
  forall l l',
    SpeciesForm.updates (l ++ l') = SpeciesForm.updates l ++ SpeciesForm.updates l'.
Proof.
  induction l as [| a rest IH]; intro l'; [reflexivity |].
  destruct a; simpl; rewrite IH; reflexivity.
Qed.

Lemma Forall_firstn :
  forall (A : Type) (P : A -> Prop) n (l : list A),
    Forall P l -> Forall P (firstn n l).
Proof.
  intros A P n. induction n as [| n IH]; intros l H; [constructor |].
  destruct H as [| x rest Hx Hrest]; [constructor |].
  simpl. constructor; [exact Hx | apply IH; exact Hrest].
Qed.

Lemma Forall_skipn :
  forall (A : Type) (P : A -> Prop) n (l : list A),
    Forall P l -> Forall P (skipn n l).
Proof.
  intros A P n. induction n as [| n IH]; intros l H; [exact H |].
  destruct H as [| x rest Hx Hrest]; [constructor |].
  simpl. apply IH. exact Hrest.
Qed.

Lemma Forall_remove_nth :
  forall (A : Type) (P : A -> Prop) n (l : list A),
    Forall P l -> Forall P (SpeciesForm.remove_nth n l).
Proof.
  intros A P n l H. unfold SpeciesForm.remove_nth. apply Forall_app.
  split; [apply Forall_firstn | apply Forall_skipn]; exact H.
Qed.

Lemma requests_sound_step :
  forall url_ok userId ids st e,
    (forall sp, e = SpeciesForm.Refreshed sp -> In (SpeciesForm.id sp) ids) ->
    requests_sound ids st ->
    requests_sound ids (SpeciesForm.step url_ok userId st e).
Proof.
  intros url_ok userId ids st e Hre (Hid & Hp & Hu).
  destruct e as [o | b | ed | n err | sp']; unfold SpeciesForm.step.
  - split; [exact Hid |]. split; assumption.
  - destruct (SpeciesDialog.offered _ userId (SpeciesForm.dialog st) b);
      [| split; [exact Hid | split; assumption]].
    destruct b; try (split; [exact Hid | split; assumption]).
    unfold SpeciesForm.submit.
    destruct (SpeciesForm.parse url_ok (SpeciesForm.values st)) as [input |] eqn:E;
      [| split; [exact Hid | split; assumption]].
    assert (Hin := parse_processed url_ok _ _ E).
    split; [exact Hid |]. cbn [SpeciesForm.pending SpeciesForm.effects]. split.
    + apply Forall_app. split; [exact Hp | constructor; [exact Hin | constructor]].
    + rewrite updates_app. apply Forall_app. split; [exact Hu |].
      simpl. constructor; [split; assumption | constructor].
  - destruct (opened st && editing st); split; try exact Hid; split; assumption.
  - destruct (nth_error (SpeciesForm.pending st) n) as [input |];
      [| split; [exact Hid | split; assumption]].
    assert (Hp' := Forall_remove_nth _ _ n _ Hp).
    destruct err as [msg |]; unfold SpeciesForm.on_reply;
      cbn [SpeciesForm.pending SpeciesForm.effects SpeciesForm.species
           SpeciesForm.dialog SpeciesForm.values];
      (split; [exact Hid |]); (split; [exact Hp' |]);
      cbn [SpeciesForm.effects];
      rewrite updates_app; simpl; rewrite app_nil_r; exact Hu.
  - split; [exact (Hre sp' eq_refl) |]. split; assumption.
Qed.

Lemma requests_sound_run :
  forall url_ok userId ids events st,
    (forall k, In k (refreshed_ids events) -> In k ids) ->
    requests_sound ids st ->
    requests_sound ids (SpeciesForm.run url_ok userId events st).
Proof.
  intros url_ok userId ids events.
  induction events as [| e rest IH]; intros st Hids H; [exact H |].
  simpl. apply IH.
  - intros k Hk. apply Hids. destruct e; simpl; try exact Hk.
    right. exact Hk.
  - apply requests_sound_step; [| exact H].
    intros sp ->. apply Hids. left. reflexivity.
Qed.

(** X25: whatever is done in the dialog, by whomever, every update
    request it sends is for a row it was showing (the first one or one a
    refresh handed over) and carries processed values: a scientific
    name that is not empty, texts that are [null] or trimmed and not
    empty, and a population that is [null] or a whole number of at
    least 1. *)
Theorem every_request_is_sound :
  forall url_ok userId sp events row_id payload,
    In (row_id, payload)
       (SpeciesForm.updates
          (SpeciesForm.effects
             (SpeciesForm.run url_ok userId events (SpeciesForm.initial sp)))) ->
    In row_id (SpeciesForm.id sp :: refreshed_ids events) /\
    SpeciesForm.processed payload.
Proof.
  intros url_ok userId sp events k payload Hin.
  assert (H0 : requests_sound (SpeciesForm.id sp :: refreshed_ids events)
                 (SpeciesForm.initial sp)).
  { split; [left; reflexivity |]. split; constructor. }
  assert (Hids : forall k0, In k0 (refreshed_ids events) ->
                            In k0 (SpeciesForm.id sp :: refreshed_ids events))
    by (intros k0 Hk; right; exact Hk).
  destruct (requests_sound_run url_ok userId _ events _ Hids H0)
    as (_ & _ & Hu).
  exact (proj1 (Forall_forall _ _) Hu (k, payload) Hin).
Qed.

(** The author renames the guinea pig with padding around the name. *)
Lemma every_request_is_sound_witness :
  SpeciesForm.processed
    (SpeciesForm.mkForm "Cavia aperea" (Some "Guinea pig"%string)
       SpeciesForm.Animalia (Some 300000) None None).
Proof.
  apply (every_request_is_sound starts_with_http "user-1" guinea_pig
           [SpeciesForm.Click SpeciesDialog.LearnMore;
            SpeciesForm.Click SpeciesDialog.EditSpecies;
            SpeciesForm.Input (SpeciesForm.SetScientificName "  Cavia aperea ");
            SpeciesForm.Click SpeciesDialog.UpdateSpecies]
           7%Z).
  left. reflexivity.
Defined.

(** ** The kingdom select *)

(** X26: the select cannot make [kingdoms.parse] throw: each of its six
    items parses, to the kingdom it names, and every kingdom has its
    item; a string parses only if it is one of the items. *)
Theorem kingdom_select_round_trip :
  (forall k, kingdoms_parse (kingdom_name k) = Some k) /\
  (forall value k, kingdoms_parse value = Some k -> value = kingdom_name k) /\
  (forall value, In value kingdoms_options <->
                 exists k, kingdoms_parse value = Some k) /\
  (forall k, In (kingdom_name k) kingdoms_options) /\
  NoDup kingdoms_options.
Proof.
  assert (Hparse : forall value k,
             kingdoms_parse value = Some k -> value = kingdom_name k).
  { intros value k. unfold kingdoms_parse.
    repeat match goal with
           | |- context [String.eqb value ?s] =>
               destruct (String.eqb_spec value s) as [-> | _]
           end; intro H; inversion H; reflexivity. }
  split; [intros []; reflexivity |]. split; [exact Hparse |].
  split; [| split].
  - intro value. split.
    + intro Hin. simpl in Hin.
      repeat (destruct Hin as [<- | Hin]; [eexists; reflexivity |]).
      contradiction.
    + intros [k Hk]. apply Hparse in Hk. subst value.
      destruct k; simpl; tauto.
  - intros []; simpl; tauto.
  - unfold kingdoms_options.
    repeat (constructor; [simpl; intuition discriminate |]). constructor.
Qed.

(** The item "Fungi". *)
Lemma kingdom_select_round_trip_witness :
  "Fungi"%string = kingdom_name SpeciesForm.Fungi.
Proof.
  exact (proj1 (proj2 kingdom_select_round_trip) "Fungi"%string
               SpeciesForm.Fungi eq_refl).
Defined.

(** ** The domain of the position scale *)

Lemma intern_fold_sound :
  forall values dom k,
    In k (fold_left (fun dom v => match D3.index_of v dom with
                                  | Some _ => dom
                                  | None => dom ++ [v]
                                  end) values dom) ->
    In k dom \/ In k values.
Proof.
  induction values as [| v rest IH]; intros dom k H; simpl in *.
  - left. exact H.
  - apply IH in H. destruct H as [H | H]; [| right; right; exact H].
    destruct (D3.index_of v dom); [left; exact H |].
    apply in_app_or in H. destruct H as [H | [<- | []]];
      [left; exact H | right; left; reflexivity].
Qed.

Lemma intern_fold_length :
  forall values dom,
    (length (fold_left (fun dom v => match D3.index_of v dom with
                                     | Some _ => dom
                                     | None => dom ++ [v]
                                     end) values dom)
     <= length dom + length values)%nat.
Proof.
  induction values as [| v rest IH]; intro dom; simpl; [lia |].
  destruct (D3.index_of v dom).
  - specialize (IH dom). lia.
  - specialize (IH (dom ++ [v])). rewrite length_app in IH. simpl in IH. lia.
Qed.

(** X27: the position scale has one band per distinct name: its domain
    holds exactly the names that occur in the dataset, each once, so
    records that share a name share a band and there are never more
    bands than records; when all names differ the domain is the
    sequence of names as it stands. *)
Theorem position_domain_distinct_names :
  forall (animalData : Dataset) graphRef,
    let dom := D3.b_domain (Chart.x animalData graphRef) in
    NoDup dom /\
    (forall k, In k dom <-> exists d, In d animalData /\ name d = k) /\
    (length dom <= length animalData)%nat /\
    (NoDup (map name animalData) -> dom = map name animalData).
Proof.
  intros ds r dom.
  assert (E : dom = D3.intern (map name ds)) by reflexivity.
  split; [rewrite E; apply intern_NoDup_out |]. split; [| split].
  - intro k. rewrite E. split.
    + intro H. unfold D3.intern in H. apply intern_fold_sound in H.
      destruct H as [[] | H]. apply in_map_iff in H.
      destruct H as (d & Hd & Hin). exists d. split; assumption.
    + intros (d & Hin & <-). apply intern_In. apply in_map. exact Hin.
  - rewrite E. unfold D3.intern.
    assert (L := intern_fold_length (map name ds) []).
    rewrite length_map in L. exact L.
  - intro Hnd. rewrite E. apply intern_NoDup. exact Hnd.
Qed.

(** Two records called Cheetah and one Elephant: two bands. *)
Lemma position_domain_distinct_names_witness :
  D3.b_domain (Chart.x [cheetah; elephant; cheetah] (Some page))
  = ["Cheetah"; "Elephant"]%string /\
  D3.b_domain (Chart.x two_animals (Some page)) = map name two_animals.
Proof.
  split; [reflexivity |].
  apply (proj2 (proj2 (proj2 (position_domain_distinct_names
                                two_animals (Some page))))).
  simpl. repeat constructor; simpl; intuition discriminate.
Defined.

(** ** Requests, replies and toasts *)

Lemma count_effects_app :
  forall p l l',
    count_effects p (l ++ l') = (count_effects p l + count_effects p l')%nat.
Proof.
  intros p l l'. induction l as [| e rest IH]; [reflexivity |].
  simpl. rewrite IH. lia.
Qed.

Lemma remove_nth_length :
  forall (A : Type) n (l : list A) x,
    nth_error l n = Some x ->
    S (length (SpeciesForm.remove_nth n l)) = length l.
Proof.
  intros A n l x H.
  assert (Hlt : (n < length l)%nat)
    by (apply nth_error_Some; rewrite H; discriminate).
  unfold SpeciesForm.remove_nth.
  rewrite length_app, length_firstn, length_skipn. lia.
Qed.

Lemma accounted_step :
  forall url_ok userId st e,
    accounted st -> accounted (SpeciesForm.step url_ok userId st e).
Proof.
  intros url_ok userId st e [H1 H2].
  destruct e as [o | b | ed | n err | sp']; unfold SpeciesForm.step.
  - split; assumption.
  - destruct (SpeciesDialog.offered _ userId (SpeciesForm.dialog st) b);
      [| split; assumption].
    destruct b; try (split; assumption).
    unfold SpeciesForm.submit.
    destruct (SpeciesForm.parse url_ok (SpeciesForm.values st)) as [input |];
      [| split; assumption].
    unfold accounted. cbn [SpeciesForm.pending SpeciesForm.effects].
    rewrite !count_effects_app, length_app. simpl. lia.
  - destruct (opened st && editing st); split; assumption.
  - destruct (nth_error (SpeciesForm.pending st) n) as [input |] eqn:E;
      [| split; assumption].
    assert (L := remove_nth_length _ _ _ _ E).
    destruct err as [msg |]; unfold SpeciesForm.on_reply, accounted;
      cbn [SpeciesForm.pending SpeciesForm.effects];
      rewrite !count_effects_app; simpl; lia.
  - split; assumption.
Qed.

(** X28: requests, replies and toasts add up in every run of the
    dialog: each update request sent is either still without a reply or
    has been answered by exactly one toast, an error toast or a success
    toast; and the route has been refreshed once for each success toast,
    never after an error. *)
Theorem requests_replies_toasts_add_up :
  forall url_ok userId sp events,
    let st := SpeciesForm.run url_ok userId events (SpeciesForm.initial sp) in
    count_effects is_update (SpeciesForm.effects st)
    = (count_effects is_error_toast (SpeciesForm.effects st)
       + count_effects is_success_toast (SpeciesForm.effects st)
       + length (SpeciesForm.pending st))%nat /\
    count_effects is_refresh (SpeciesForm.effects st)
    = count_effects is_success_toast (SpeciesForm.effects st).
Proof.
  intros url_ok userId sp events st.
  assert (H : accounted st).
  { unfold st. assert (H0 : accounted (SpeciesForm.initial sp))
      by (split; reflexivity).
    revert H0. generalize (SpeciesForm.initial sp) as s0.
    induction events as [| e rest IH]; intros s0 H0; [exact H0 |].
    simpl. apply IH. apply accounted_step. exact H0. }
  exact H.
Qed.
